(** * De Bruijn contig assembler (project3_assembly.py): model and properties

    The four stages of the pipeline are embedded as Rocq functions:
    [index_kmers], [filter_kmers], [predecessors_and_successors] and
    [simple_path] (with its nested recursive procedure [build_contig]).

    Modelling choices.
    - Python [str] is [string]; Python [int] is [Z]; [len] of a string is
      a [nat].
    - A Python [dict] whose iteration order is observed ([kmers],
      [filtered_kmers], [index]) is an association list with unique keys kept
      in insertion order: assigning to an existing key keeps its position,
      assigning to a new key appends.
    - The memo [contig_dict] is only read by key, so it is a [gmap]; the set
      [visited] is a [gset].
    - A character of a [string] stands for one code point below 256, so
      slicing by character is slicing by code point; strings with other code
      points are outside the model.
    - Exceptions are values of [Result]: [KeyError] for a failed [index[w]],
      [IndexError] for subscripting an empty string, [RecursionError] when
      the calls of [build_contig] nest deeper than the interpreter allows.
    - The recursion of [build_contig] is driven by [limit]: how many calls
      of [build_contig] can be nested, counting from the one made by
      [simple_path], before the interpreter raises [RecursionError].  The
      source sets no limit of its own, so this number comes from the
      interpreter ([sys.getrecursionlimit()] and the frames in use when
      [simple_path] is called) and is an argument of [simple_path] and of
      the pipeline.  An exception leaves [simple_path] at once, so the state
      at the point where it is raised is not kept.
    - [OutOfFuel] is not a Python outcome: the two [while] loops are driven
      by a fuel argument, [build_contig] gives them one unit per node of the
      index and one more, and [loops_never_starve] shows that this is always
      enough. *)

From Stdlib Require Import ZArith Ascii String List Lia Bool.
From stdpp Require Import base decidable option list gmap strings.

Import ListNotations.
#[local] Set Warnings "-clear-no-such-hyp".
Local Open Scope string_scope.
Local Open Scope list_scope.
Local Open Scope Z_scope.

(** ** Python strings *)

Module PyStr.

(** Index normalisation of a slice bound for a sequence of length [n]
    (step 1): negative bounds count from the end, everything is clamped. *)
Definition adjust (n i : Z) : Z :=
  if i <? 0 then Z.max (i + n) 0 else Z.min i n.

Fixpoint drop (n : nat) (s : string) : string :=
  match n, s with
  | O, _ => s
  | S _, EmptyString => EmptyString
  | S n', String _ s' => drop n' s'
  end.

Fixpoint take (n : nat) (s : string) : string :=
  match n, s with
  | O, _ => EmptyString
  | S _, EmptyString => EmptyString
  | S n', String c s' => String c (take n' s')
  end.

Definition len (s : string) : Z := Z.of_nat (String.length s).

(** [s[a:b]]; [None] stands for an omitted bound. *)
Definition slice (s : string) (a b : option Z) : string :=
  let n := len s in
  let lo := match a with Some i => adjust n i | None => 0 end in
  let hi := match b with Some i => adjust n i | None => n end in
  if lo <? hi then take (Z.to_nat (hi - lo)) (drop (Z.to_nat lo) s)
  else EmptyString.

(** [s[0]] *)
Definition first (s : string) : option ascii :=
  match s with
  | EmptyString => None
  | String c _ => Some c
  end.

(** [s[-1]] *)
Fixpoint last (s : string) : option ascii :=
  match s with
  | EmptyString => None
  | String c EmptyString => Some c
  | String _ s' => last s'
  end.

Definition of_char (c : ascii) : string := String c EmptyString.

(** [range(n)] *)
Definition range (n : Z) : list Z := map Z.of_nat (seq 0 (Z.to_nat n)).

End PyStr.

(** ** Insertion-ordered dictionaries *)

Module Dict.

Definition t (V : Type) : Type := list (string * V).

Definition keys {V} (d : t V) : list string := map fst d.

Fixpoint get {V} (d : t V) (k : string) : option V :=
  match d with
  | [] => None
  | (k', v) :: d' => if String.eqb k' k then Some v else get d' k
  end.

(** [k in d] *)
Definition mem {V} (d : t V) (k : string) : bool :=
  match get d k with Some _ => true | None => false end.

(** [d[k] = v] *)
Fixpoint set {V} (d : t V) (k : string) (v : V) : t V :=
  match d with
  | [] => [(k, v)]
  | (k', v') :: d' =>
      if String.eqb k' k then (k', v) :: d' else (k', v') :: set d' k v
  end.

End Dict.

(** ** Stage 1: [index_kmers] *)

Definition newline : ascii := "010"%char.

Definition is_nucleotide (c : ascii) : bool :=
  (Ascii.eqb c "A" || Ascii.eqb c "C" || Ascii.eqb c "G" || Ascii.eqb c "T")%bool.

(** What is left of [s] after the greedy run [[ACGT]*]. *)
Fixpoint skip_nucleotides (s : string) : string :=
  match s with
  | String c s' => if is_nucleotide c then skip_nucleotides s' else s
  | EmptyString => s
  end.

(** [pattern.match(sequence)] for [re.compile('^[ACGT]+$')]: at least one
    nucleotide from the start, then [$], which (without MULTILINE) holds at
    the end of the string and also just before a newline that is the last
    character of the string.  Giving back characters of the greedy run never
    helps, because [$] cannot hold in front of a nucleotide. *)
Definition pattern_match (sequence : string) : bool :=
  match sequence with
  | EmptyString => false
  | String c _ =>
      (is_nucleotide c &&
       let rest := skip_nucleotides sequence in
       (String.eqb rest EmptyString || String.eqb rest (PyStr.of_char newline)))%bool
  end.

(** Body of the inner loop: count one more occurrence of [sequence[i:i+k]]. *)
Definition count_kmer (sequence : string) (k : Z) (kmers : Dict.t Z) (i : Z) : Dict.t Z :=
  let kmer := PyStr.slice sequence (Some i) (Some (i + k)) in
  match Dict.get kmers kmer with
  | Some n => Dict.set kmers kmer (n + 1)
  | None => Dict.set kmers kmer 1
  end.

(** Body of the outer loop. *)
Definition index_sequence (k : Z) (kmers : Dict.t Z) (sequence : string) : Dict.t Z :=
  if negb (pattern_match sequence) then kmers
  else fold_left (count_kmer sequence k) (PyStr.range (PyStr.len sequence - k + 1)) kmers.

Definition index_kmers (sequences : list string) (k : Z) : Dict.t Z :=
  fold_left (index_sequence k) sequences [].

(** ** Stage 2: [filter_kmers] *)

Definition filter_kmers (kmers : Dict.t Z) (threshold : Z) : Dict.t Z :=
  fold_left
    (fun filtered_kmers '(kmer, abundance) =>
       if abundance >=? threshold then Dict.set filtered_kmers kmer abundance
       else filtered_kmers)
    kmers [].

(** ** Stage 3: [predecessors_and_successors] *)

Record Entry : Type := mkEntry { successors : list string; predecessors : list string }.

Definition bases : list string := ["A"; "C"; "G"; "T"].

(** [for i in posibility: if i in filtered_kmers.keys(): l.append(i)] *)
Definition keep_present {V} (filtered_kmers : Dict.t V) (posibility : list string) : list string :=
  fold_left
    (fun l i => if Dict.mem filtered_kmers i then l ++ [i] else l)
    posibility [].

Definition successors_of {V} (filtered_kmers : Dict.t V) (w : string) : list string :=
  let kmer := PyStr.slice w (Some 1) None in
  keep_present filtered_kmers (map (fun b => kmer +:+ b) bases).

Definition predecessors_of {V} (filtered_kmers : Dict.t V) (w : string) : list string :=
  let kmer := PyStr.slice w None (Some (-1)) in
  keep_present filtered_kmers (map (fun b => b +:+ kmer) bases).

Definition predecessors_and_successors {V} (filtered_kmers : Dict.t V) : Dict.t Entry :=
  fold_left
    (fun index w =>
       Dict.set index w
         {| successors := successors_of filtered_kmers w;
            predecessors := predecessors_of filtered_kmers w |})
    (Dict.keys filtered_kmers) [].

(** ** Outcomes of the assembler *)

Inductive Result (A : Type) : Type :=
| Ok (a : A)
| KeyError (k : string)
| IndexError
| RecursionError
| OutOfFuel.
Arguments Ok {A} a.
Arguments KeyError {A} k.
Arguments IndexError {A}.
Arguments RecursionError {A}.
Arguments OutOfFuel {A}.

Definition bind {A B} (r : Result A) (f : A -> Result B) : Result B :=
  match r with
  | Ok a => f a
  | KeyError k => KeyError k
  | IndexError => IndexError
  | RecursionError => RecursionError
  | OutOfFuel => OutOfFuel
  end.

Notation "'do' x <- c ; k" := (bind c (fun x => k))
  (at level 10, x pattern, c at level 100, k at level 200).

(** ** Stage 4: [simple_path] *)

(** Snapshots taken when [build_contig] is entered and when it stores its
    result.  They are ghost data: no branch of the model reads them. *)
Inductive Event : Type :=
| EvCall (w : string) (memo : gmap string string) (seen : gset string)
| EvReturn (w : string) (memo : gmap string string) (seen : gset string).

(** The two variables that [build_contig] closes over, and the ghost trace. *)
Record State : Type := mkState {
  contig_dict : gmap string string;
  visited : gset string;
  trace : list Event
}.

Definition initial_state : State :=
  {| contig_dict := ∅; visited := ∅; trace := [] |}.

(** [visited.add(w)] *)
Definition visit (w : string) (st : State) : State :=
  {| contig_dict := contig_dict st; visited := {[w]} ∪ visited st; trace := trace st |}.

(** [contig_dict[w] = contig] *)
Definition memoize (w contig : string) (st : State) : State :=
  {| contig_dict := <[w := contig]> (contig_dict st); visited := visited st;
     trace := trace st |}.

Definition record_call (w : string) (st : State) : State :=
  {| contig_dict := contig_dict st; visited := visited st;
     trace := trace st ++ [EvCall w (contig_dict st) (visited st)] |}.

Definition record_return (w : string) (st : State) : State :=
  {| contig_dict := contig_dict st; visited := visited st;
     trace := trace st ++ [EvReturn w (contig_dict st) (visited st)] |}.

(** [index[w]] *)
Definition lookup_entry (index : Dict.t Entry) (w : string) : Result Entry :=
  match Dict.get index w with
  | Some e => Ok e
  | None => KeyError w
  end.

(** [s[0]] or [s[-1]] as a one-character string. *)
Definition subscript (c : option ascii) : Result string :=
  match c with
  | Some a => Ok (PyStr.of_char a)
  | None => IndexError
  end.

Definition strlen (s : string) : nat := String.length s.

(** [while len(successor) == 1 and successor[0] not in visited: ...] *)
Fixpoint forward_loop (fuel : nat) (index : Dict.t Entry)
    (contig : string) (successor : list string) (st : State)
  : Result (string * list string * State) :=
  match successor with
  | [s0] =>
      if decide (s0 ∈ visited st) then Ok (contig, successor, st)
      else
        match fuel with
        | O => OutOfFuel
        | S fuel' =>
            do c <- subscript (PyStr.last s0) ;
            let contig := contig +:+ c in
            let st := visit s0 st in
            do e <- lookup_entry index s0 ;
            forward_loop fuel' index contig (successors e) st
        end
  | _ => Ok (contig, successor, st)
  end.

(** [while len(pre) == 1 and pre[0] not in visited: ...] *)
Fixpoint backward_loop (fuel : nat) (index : Dict.t Entry)
    (contig : string) (pre : list string) (st : State)
  : Result (string * list string * State) :=
  match pre with
  | [p0] =>
      if decide (p0 ∈ visited st) then Ok (contig, pre, st)
      else
        match fuel with
        | O => OutOfFuel
        | S fuel' =>
            do c <- subscript (PyStr.first p0) ;
            let contig := c +:+ contig in
            let st := visit p0 st in
            do e <- lookup_entry index p0 ;
            backward_loop fuel' index contig (predecessors e) st
        end
  | _ => Ok (contig, pre, st)
  end.

Definition longer (new_contig best_contig : string) : string :=
  if (strlen best_contig <? strlen new_contig)%nat then new_contig else best_contig.

(** [for s in successor: if s not in visited: ...] with the running
    [best_contig]; [build] is the recursive procedure. *)
Fixpoint forward_branches (build : string -> State -> Result (string * State))
    (successor : list string) (best_contig : string) (st : State)
  : Result (string * State) :=
  match successor with
  | [] => Ok (best_contig, st)
  | s :: rest =>
      if decide (s ∈ visited st) then forward_branches build rest best_contig st
      else
        do (new_contig, st) <- build s st ;
        forward_branches build rest (longer new_contig best_contig) st
  end.

(** [for p in pre: if p not in visited: ...]; [contig] is the contig on
    entry to the loop, which every candidate is concatenated with. *)
Fixpoint backward_branches (build : string -> State -> Result (string * State))
    (contig : string) (pre : list string) (best_contig : string) (st : State)
  : Result (string * State) :=
  match pre with
  | [] => Ok (best_contig, st)
  | p :: rest =>
      if decide (p ∈ visited st) then backward_branches build contig rest best_contig st
      else
        do (built, st) <- build p st ;
        let new_contig := built +:+ contig in
        backward_branches build contig rest (longer new_contig best_contig) st
  end.

(** [if len(successor) > 1: ...] *)
Definition forward_resolution (build : string -> State -> Result (string * State))
    (successor : list string) (contig : string) (st : State) : Result (string * State) :=
  if (1 <? length successor)%nat then forward_branches build successor contig st
  else Ok (contig, st).

(** [if len(pre) > 1: ...] *)
Definition backward_resolution (build : string -> State -> Result (string * State))
    (pre : list string) (contig : string) (st : State) : Result (string * State) :=
  if (1 <? length pre)%nat then backward_branches build contig pre contig st
  else Ok (contig, st).

(** Fuel for one [while] loop: one unit per node of the index and one
    more ([loops_never_starve]). *)
Definition enough_fuel (index : Dict.t Entry) : nat := S (length index).
Arguments enough_fuel : simpl never.

(** [build_contig(w)], when [limit] more calls of it can be nested: with
    none left the call is a [RecursionError]; a call made from the body has
    one less. *)
Fixpoint build_contig (limit : nat) (index : Dict.t Entry) (w : string) (st : State)
  : Result (string * State) :=
  match limit with
  | O => RecursionError
  | S limit' =>
      let fuel := enough_fuel index in
      let st := record_call w st in
      match contig_dict st !! w with
      | Some memoized => Ok (memoized, st)
      | None =>
          let contig := w in
          let st := visit w st in
          do e <- lookup_entry index w ;
          do (contig, successor, st) <- forward_loop fuel index contig (successors e) st ;
          do (contig, st) <- forward_resolution (build_contig limit' index) successor contig st ;
          do e <- lookup_entry index w ;
          do (contig, pre, st) <- backward_loop fuel index contig (predecessors e) st ;
          do (contig, st) <- backward_resolution (build_contig limit' index) pre contig st ;
          let st := record_return w (memoize w contig st) in
          Ok (contig, st)
      end
  end.

(** [for w in index.keys(): if w not in visited: list_contig.append(build_contig(w))] *)
Fixpoint drive (limit : nat) (index : Dict.t Entry) (ws : list string)
    (list_contig : list string) (st : State) : Result (list string * State) :=
  match ws with
  | [] => Ok (list_contig, st)
  | w :: ws' =>
      if decide (w ∈ visited st) then drive limit index ws' list_contig st
      else
        do (contig, st) <- build_contig limit index w st ;
        drive limit index ws' (list_contig ++ [contig]) st
  end.

(** The body of [simple_path], with the final state next to the list. *)
Definition simple_path_run (limit : nat) (index : Dict.t Entry) : Result (list string * State) :=
  drive limit index (Dict.keys index) [] initial_state.

Definition simple_path (limit : nat) (index : Dict.t Entry) : Result (list string) :=
  do (list_contig, _) <- simple_path_run limit index ;
  Ok list_contig.

(** The core of [main]. *)
Definition pipeline (limit : nat) (sequences : list string) (k threshold : Z)
  : Result (list string) :=
  let kmers := index_kmers sequences k in
  let filtered_kmers := filter_kmers kmers threshold in
  let pred_et_succ := predecessors_and_successors filtered_kmers in
  simple_path limit pred_et_succ.

(** * Specification vocabulary *)

(** A string over the alphabet {A, C, G, T}. *)
Fixpoint nucleotides (s : string) : bool :=
  match s with
  | EmptyString => true
  | String c s' => (is_nucleotide c && nucleotides s')%bool
  end.

(** What every value of [kmers] satisfies: unique keys, counts from 1 up. *)
Definition counted (kmers : Dict.t Z) : Prop :=
  NoDup (Dict.keys kmers) /\ forall kmer n, (kmer, n) ∈ kmers -> 1 <= n.

(** Every adjacency list of [index] names non-empty keys of [index]: the
    condition under which [build_contig] raises neither [KeyError] nor
    [IndexError]. *)
Definition well_linked (index : Dict.t Entry) : Prop :=
  forall w e, Dict.get index w = Some e ->
    Forall (fun s => s <> EmptyString /\ Dict.get index s <> None) (successors e ++ predecessors e).

(** The test of [filter_kmers] on one item. *)
Definition keep (threshold : Z) (kv : string * Z) : bool := snd kv >=? threshold.

(** The value stored under [w] by [predecessors_and_successors]. *)
Definition entry_of {V} (filtered_kmers : Dict.t V) (w : string) : Entry :=
  {| successors := successors_of filtered_kmers w;
     predecessors := predecessors_of filtered_kmers w |}.

(** An adjacency list whose entries can be followed without an exception. *)
Definition linked (index : Dict.t Entry) (l : list string) : Prop :=
  Forall (fun s => s <> EmptyString /\ Dict.get index s <> None) l.

(** The nodes of the graph, and how many of them are not visited yet: the
    measure that bounds the loops and the nesting of [build_contig]. *)
Definition nodes (index : Dict.t Entry) : gset string := list_to_set (Dict.keys index).

Definition remaining (index : Dict.t Entry) (st : State) : nat :=
  size ((nodes index) ∖ (visited st)).

(** What a snapshot must satisfy: the memo only holds visited k-mers, and a
    call is made on a k-mer that is neither visited nor memoized. *)
Definition event_ok (ev : Event) : Prop :=
  match ev with
  | EvCall w memo seen => (w ∉ seen) /\ memo !! w = None /\ dom memo ⊆ seen
  | EvReturn w memo seen => (w ∈ dom memo) /\ dom memo ⊆ seen
  end.

Definition consistent (st : State) : Prop :=
  dom (contig_dict st) ⊆ visited st /\ Forall event_ok (trace st).

(** The recursive builds made by a branch loop, in order: one for each entry
    that is not visited when its turn comes. *)
Fixpoint branch_results (build : string -> State -> Result (string * State))
    (entries : list string) (st : State) : Result (list string * State) :=
  match entries with
  | [] => Ok ([], st)
  | s :: rest =>
      if decide (s ∈ visited st) then branch_results build rest st
      else
        do (built, st) <- build s st ;
        do (others, st) <- branch_results build rest st ;
        Ok (built :: others, st)
  end.

(** [best] is the first longest string of [contig :: candidates]: everything
    before it is strictly shorter, nothing after it is longer. *)
Definition first_longest (contig : string) (candidates : list string) (best : string) : Prop :=
  exists before after,
    contig :: candidates = before ++ best :: after
    /\ Forall (fun c => (strlen c < strlen best)%nat) before
    /\ Forall (fun c => (strlen c <= strlen best)%nat) after.

(** Entries of an adjacency list that are not visited. *)
Definition unvisited_count (l : list string) (st : State) : nat :=
  length (List.filter (fun s => negb (bool_decide (s ∈ visited st))) l).

(** Three properties of a recursive procedure handed to the branch loops:
    it preserves [consistent] and only adds to [visited]; it returns when
    fewer than [bound] nodes remain; it agrees with another procedure
    wherever that one returns. *)
Definition keeps_consistent (build : string -> State -> Result (string * State)) : Prop :=
  forall s st c st',
    build s st = Ok (c, st') -> s ∉ visited st -> consistent st ->
    visited st ⊆ visited st' /\ consistent st'.

Definition returns_below (index : Dict.t Entry) (bound : nat)
    (build : string -> State -> Result (string * State)) : Prop :=
  forall s st,
    Dict.get index s <> None -> s ∉ visited st -> consistent st ->
    (remaining index st < bound)%nat ->
    exists r, build s st = Ok r.

Definition extends (build1 build2 : string -> State -> Result (string * State)) : Prop :=
  forall s st r, build1 s st = Ok r -> build2 s st = Ok r.

(** An outcome that is a value, unless the recursion went too deep. *)
Definition unless_too_deep {A} (r : Result A) : Prop :=
  (exists a, r = Ok a) \/ r = RecursionError.

(** The gate that would make the backward branch resolution depend on the
    number of unvisited predecessors: with at most one of them, nothing is
    done. *)
Definition gated_on_unvisited : Prop :=
  forall limit index pre contig st,
    (unvisited_count pre st <= 1)%nat ->
    backward_resolution (build_contig limit index) pre contig st = Ok (contig, st).

(** ** Example graphs *)

(** A read pair whose graph forks after AAC: AAC -> ACG -> CGT and
    AAC -> ACT -> CTT. *)
Definition fork_index : Dict.t Entry :=
  Eval vm_compute in
    predecessors_and_successors (filter_kmers (index_kmers ["AACGT"; "AACTT"] 3) 1).



(** Two reads whose graph merges into CA: AC -> CA and GC -> CA, with the
    cycle CA -> AC.  [merge_state] is the state in which [build_contig "CA"]
    reaches its backward branch resolution, with contig CAC. *)
Definition merge_index : Dict.t Entry :=
  Eval vm_compute in
    predecessors_and_successors (filter_kmers (index_kmers ["CAC"; "GCA"] 2) 1).

Definition merge_state : State :=
  visit "AC" (visit "CA" (record_call "CA" initial_state)).

Definition merge_final : State :=
  Eval vm_compute in
    match branch_results (build_contig 3 merge_index) ["AC"; "GC"] merge_state with
    | Ok (_, st) => st
    | _ => initial_state
    end.

(** ** Vocabulary for the further properties *)

(** The count stored for [kmer]; 0 when it is not a key. *)
Definition count_of (kmers : Dict.t Z) (kmer : string) : Z :=
  match Dict.get kmers kmer with
  | Some n => n
  | None => 0
  end.

(** The windows that the inner loop of [index_kmers] cuts from one sequence,
    in the order of the loop; none for a sequence the pattern rejects. *)
Definition windows (k : Z) (sequence : string) : list string :=
  if pattern_match sequence
  then map (fun i => PyStr.slice sequence (Some i) (Some (i + k)))
           (PyStr.range (PyStr.len sequence - k + 1))
  else [].

Definition all_windows (k : Z) (sequences : list string) : list string :=
  flat_map (windows k) sequences.

(** How many windows of the sequences are equal to [kmer]. *)
Definition occurrences (k : Z) (sequences : list string) (kmer : string) : Z :=
  Z.of_nat (length (filter (fun w => w = kmer) (all_windows k sequences))).

(** The sum of the counts of a mapping. *)
Definition total_count (kmers : Dict.t Z) : Z := fold_right Z.add 0 (map snd kmers).

(** The distinct elements of a list, each at the place of its first
    occurrence. *)
Fixpoint first_occurrences (l : list string) : list string :=
  match l with
  | [] => []
  | x :: l' => x :: filter (fun y => y <> x) (first_occurrences l')
  end.

(** The window of [k] characters that starts at offset [i] of [s]. *)
Definition window_at (k : nat) (s : string) (i : nat) : string :=
  PyStr.take k (PyStr.drop i s).

(** [visited.add] for each element of a list, in order. *)
Definition visit_all (l : list string) (st : State) : State :=
  fold_left (fun st w => visit w st) l st.



(** * Properties *)

(** ** Strings *)

Section StringFacts.

Lemma length_drop n s : String.length (PyStr.drop n s) = (String.length s - n)%nat.
Proof.
  revert s; induction n as [|n IH]; intros [|c s]; simpl; auto.
Qed.

Lemma length_take n s : String.length (PyStr.take n s) = Nat.min n (String.length s).
Proof.
  revert s; induction n as [|n IH]; intros [|c s]; simpl; auto.
Qed.

Lemma app_cons (c : ascii) (a b : string) : String c a +:+ b = String c (a +:+ b).
Proof. reflexivity. Qed.

Lemma length_app (a b : string) :
  String.length (a +:+ b) = (String.length a + String.length b)%nat.
Proof. induction a as [|c a IH]; [reflexivity | rewrite app_cons; simpl; now f_equal]. Qed.

Lemma take_all n s : (String.length s <= n)%nat -> PyStr.take n s = s.
Proof.
  revert s; induction n as [|n IH]; intros [|c s]; simpl; intros H; auto; try lia.
  f_equal. apply IH. lia.
Qed.

Lemma take_app_exact (a b : string) : PyStr.take (String.length a) (a +:+ b) = a.
Proof.
  induction a as [|c a IH]; [destruct b; reflexivity |].
  rewrite app_cons. simpl. now f_equal.
Qed.

Lemma drop_app_exact (a b : string) : PyStr.drop (String.length a) (a +:+ b) = b.
Proof. induction a as [|c a IH]; [reflexivity | rewrite app_cons; exact IH]. Qed.

Lemma take_drop n s : PyStr.take n s +:+ PyStr.drop n s = s.
Proof.
  revert s; induction n as [|n IH]; intros [|c s]; simpl; auto.
  rewrite app_cons. f_equal. apply IH.
Qed.

Lemma app_empty_r (s : string) : s +:+ EmptyString = s.
Proof. induction s as [|c s IH]; [reflexivity | rewrite app_cons; now f_equal]. Qed.

Lemma length_zero (s : string) : String.length s = 0%nat -> s = EmptyString.
Proof. destruct s; simpl; [reflexivity | discriminate]. Qed.

Lemma length_one (s : string) :
  String.length s = 1%nat -> exists c, s = PyStr.of_char c.
Proof.
  destruct s as [|c [|d s]]; simpl; try discriminate.
  intros _. now exists c.
Qed.

Lemma last_app_char (a : string) (c : ascii) : PyStr.last (a +:+ PyStr.of_char c) = Some c.
Proof.
  induction a as [|d a IH]; [reflexivity |].
  rewrite app_cons. simpl. rewrite IH. destruct a; reflexivity.
Qed.

Lemma first_char_app (c : ascii) (a : string) : PyStr.first (PyStr.of_char c +:+ a) = Some c.
Proof. reflexivity. Qed.

Lemma elem_of_range i n : i ∈ PyStr.range n <-> 0 <= i < n.
Proof.
  unfold PyStr.range. rewrite list_elem_of_fmap. split.
  - intros (j & -> & Hj). apply list_elem_of_In, in_seq in Hj. lia.
  - intros H. exists (Z.to_nat i). split; [lia |].
    apply list_elem_of_In, in_seq. lia.
Qed.

(** A window that lies inside the string has exactly the requested length. *)
Lemma length_slice_window s i k :
  0 <= i -> 0 < k -> i + k <= PyStr.len s ->
  String.length (PyStr.slice s (Some i) (Some (i + k))) = Z.to_nat k.
Proof.
  intros Hi Hk Hik. unfold PyStr.slice, PyStr.adjust, PyStr.len in *.
  destruct (Z.ltb_spec i 0); [lia |].
  destruct (Z.ltb_spec (i + k) 0); [lia |].
  rewrite !Z.min_l by lia.
  destruct (Z.ltb_spec i (i + k)); [| lia].
  rewrite length_take, length_drop. lia.
Qed.

(** A window that starts at or after the end of the string, or that ends
    before it starts, is empty. *)
Lemma slice_past_end s i k :
  PyStr.len s <= i -> k <= 0 -> PyStr.len s <= i + k ->
  PyStr.slice s (Some i) (Some (i + k)) = EmptyString.
Proof.
  intros Hi Hk Hik. unfold PyStr.slice, PyStr.adjust, PyStr.len in *.
  destruct (Z.ltb_spec i 0); [lia |].
  destruct (Z.ltb_spec (i + k) 0); [lia |].
  rewrite !Z.min_r by lia.
  destruct (Z.ltb_spec (Z.of_nat (String.length s)) (Z.of_nat (String.length s)));
    [lia | reflexivity].
Qed.

End StringFacts.

(** ** Dictionaries *)

Section DictFacts.
Context {V : Type}.
Implicit Types (d : Dict.t V) (k : string) (v : V).

Lemma get_set_eq d k v : Dict.get (Dict.set d k v) k = Some v.
Proof.
  induction d as [|[k' v'] d IH]; simpl.
  - now rewrite String.eqb_refl.
  - destruct (String.eqb_spec k' k) as [->|Hne]; simpl.
    + now rewrite String.eqb_refl.
    + destruct (String.eqb_spec k' k); [contradiction | exact IH].
Qed.

Lemma get_set_ne d k k' v : k <> k' -> Dict.get (Dict.set d k v) k' = Dict.get d k'.
Proof.
  intros Hne. induction d as [|[k0 v0] d IH]; simpl.
  - destruct (String.eqb_spec k k'); [contradiction | reflexivity].
  - destruct (String.eqb_spec k0 k) as [->|H0]; simpl.
    + destruct (String.eqb_spec k k'); [contradiction | reflexivity].
    + now rewrite IH.
Qed.

Lemma get_None d k : Dict.get d k = None <-> k ∉ Dict.keys d.
Proof.
  induction d as [|[k' v'] d IH]; simpl.
  - split; [intros _; apply not_elem_of_nil | reflexivity].
  - rewrite not_elem_of_cons.
    destruct (String.eqb_spec k' k) as [->|Hne].
    + split; [discriminate | intros [H _]; contradiction].
    + rewrite IH. split; [intros H; split; [congruence | exact H] | now intros [_ H]].
Qed.

Lemma get_Some_key d k : Dict.get d k <> None <-> k ∈ Dict.keys d.
Proof.
  rewrite get_None. split; [| tauto].
  intros H. destruct (decide (k ∈ Dict.keys d)); [assumption | contradiction].
Qed.

Lemma get_Some_elem d k v : Dict.get d k = Some v -> (k, v) ∈ d.
Proof.
  induction d as [|[k' v'] d IH]; simpl; [discriminate |].
  destruct (String.eqb_spec k' k) as [->|Hne].
  - intros [= ->]. apply elem_of_cons; now left.
  - intros H. apply elem_of_cons; right; auto.
Qed.

Lemma mem_true d k : Dict.mem d k = true <-> k ∈ Dict.keys d.
Proof.
  unfold Dict.mem. rewrite <- get_Some_key.
  destruct (Dict.get d k); split; intros; congruence.
Qed.

Lemma set_fresh d k v : Dict.get d k = None -> Dict.set d k v = d ++ [(k, v)].
Proof.
  induction d as [|[k' v'] d IH]; simpl; [reflexivity |].
  destruct (String.eqb_spec k' k); [discriminate |].
  intros H. now rewrite IH.
Qed.

Lemma keys_set_present d k v :
  Dict.get d k <> None -> Dict.keys (Dict.set d k v) = Dict.keys d.
Proof.
  induction d as [|[k' v'] d IH]; simpl; [congruence |].
  destruct (String.eqb_spec k' k); [reflexivity |].
  intros H. simpl. now rewrite IH.
Qed.

Lemma keys_set_fresh d k v :
  Dict.get d k = None -> Dict.keys (Dict.set d k v) = Dict.keys d ++ [k].
Proof.
  intros H. rewrite set_fresh by assumption. unfold Dict.keys. now rewrite map_app.
Qed.

Lemma elem_of_keys_set d k v x :
  x ∈ Dict.keys (Dict.set d k v) <-> x = k \/ x ∈ Dict.keys d.
Proof.
  destruct (Dict.get d k) eqn:E.
  - rewrite keys_set_present by congruence.
    split; [now right | intros [->|H]; [| exact H]].
    apply get_Some_key. congruence.
  - rewrite keys_set_fresh, elem_of_app, list_elem_of_singleton by assumption. tauto.
Qed.

Lemma NoDup_keys_set d k v : NoDup (Dict.keys d) -> NoDup (Dict.keys (Dict.set d k v)).
Proof.
  intros Hd. destruct (Dict.get d k) eqn:E.
  - now rewrite keys_set_present by congruence.
  - rewrite keys_set_fresh by assumption.
    apply NoDup_app. split; [assumption | split; [| apply NoDup_singleton]].
    intros x Hx Hk. apply list_elem_of_singleton in Hk as ->.
    now apply get_None in E.
Qed.

Lemma elem_of_set d k v (x : string * V) :
  x ∈ Dict.set d k v -> x = (k, v) \/ x ∈ d.
Proof.
  induction d as [|[k' v'] d IH]; simpl.
  - intros H. apply list_elem_of_singleton in H. now left.
  - destruct (String.eqb_spec k' k) as [->|Hne]; rewrite !elem_of_cons.
    + intros [->|H]; auto.
    + intros [->|H]; auto. destruct (IH H); auto.
Qed.

Lemma set_not_nil d k v : Dict.set d k v <> [].
Proof.
  destruct d as [|[k' v'] d]; simpl; [discriminate |].
  destruct (String.eqb k' k); discriminate.
Qed.

(** A loop that assigns [d[k] = f k] for each [k] of a list. *)
Lemma get_fold_set (f : string -> V) (ks : list string) d k :
  Dict.get (fold_left (fun acc x => Dict.set acc x (f x)) ks d) k
  = if decide (k ∈ ks) then Some (f k) else Dict.get d k.
Proof.
  revert d. induction ks as [|x ks IH]; intros d; simpl.
  - destruct (decide (k ∈ [])) as [H|_]; [| reflexivity].
    now apply not_elem_of_nil in H.
  - rewrite IH.
    destruct (decide (k ∈ ks)) as [Hin|Hnin].
    + rewrite decide_True by (apply elem_of_cons; now right). reflexivity.
    + destruct (decide (k = x)) as [->|Hne].
      * rewrite decide_True by (apply elem_of_cons; now left). apply get_set_eq.
      * rewrite decide_False by (rewrite elem_of_cons; tauto).
        apply get_set_ne. congruence.
Qed.

Lemma fold_set_fresh (f : string -> V) (ks : list string) d :
  NoDup (Dict.keys d ++ ks) ->
  fold_left (fun acc x => Dict.set acc x (f x)) ks d = d ++ map (fun x => (x, f x)) ks.
Proof.
  revert d. induction ks as [|x ks IH]; intros d Hnd; simpl.
  - now rewrite app_nil_r.
  - assert (Hx : Dict.get d x = None).
    { apply get_None. apply NoDup_app in Hnd as (_ & Hd & _).
      intros Hin. apply (Hd x Hin). apply elem_of_cons; now left. }
    rewrite IH.
    + rewrite set_fresh by assumption. now rewrite <- app_assoc.
    + rewrite keys_set_fresh by assumption. now rewrite <- app_assoc.
Qed.

End DictFacts.

(** ** Stage 1 *)

Section IndexFacts.

Lemma fold_left_invariant {A B} (P : A -> Prop) (f : A -> B -> A) (l : list B) (a : A) :
  (forall a b, b ∈ l -> P a -> P (f a b)) -> P a -> P (fold_left f l a).
Proof.
  revert a. induction l as [|b l IH]; intros a Hstep Ha; simpl; [assumption |].
  apply IH.
  - intros a' b' Hb'. apply Hstep. apply elem_of_cons; now right.
  - apply Hstep; [apply elem_of_cons; now left | assumption].
Qed.

Lemma counted_nil : counted [].
Proof.
  split; [apply NoDup_nil_2 |].
  intros kmer n H. now apply not_elem_of_nil in H.
Qed.

Lemma count_kmer_counted sequence k kmers i :
  counted kmers -> counted (count_kmer sequence k kmers i).
Proof.
  intros [Hnd Hpos]. unfold count_kmer.
  set (kmer := PyStr.slice sequence (Some i) (Some (i + k))).
  destruct (Dict.get kmers kmer) as [n|] eqn:E; (split; [now apply NoDup_keys_set |]).
  - intros x m Hx. apply elem_of_set in Hx as [[= -> ->]|Hx]; [| eauto].
    apply get_Some_elem, Hpos in E. lia.
  - intros x m Hx. apply elem_of_set in Hx as [[= -> ->]|Hx]; [lia | eauto].
Qed.

Lemma index_sequence_counted k kmers sequence :
  counted kmers -> counted (index_sequence k kmers sequence).
Proof.
  intros H. unfold index_sequence. destruct (negb (pattern_match sequence)); [assumption |].
  apply fold_left_invariant; [| assumption].
  intros a i _. apply count_kmer_counted.
Qed.

Lemma index_kmers_counted sequences k : counted (index_kmers sequences k).
Proof.
  unfold index_kmers. apply fold_left_invariant; [| apply counted_nil].
  intros a s _. apply index_sequence_counted.
Qed.

Lemma keys_count_kmer sequence k kmers i x :
  x ∈ Dict.keys (count_kmer sequence k kmers i)
  <-> x = PyStr.slice sequence (Some i) (Some (i + k)) \/ x ∈ Dict.keys kmers.
Proof.
  unfold count_kmer.
  destruct (Dict.get kmers _); apply elem_of_keys_set.
Qed.

(** For a positive [k], every key is a window of exactly [k] characters. *)
Lemma index_sequence_key_length k kmers sequence :
  0 < k ->
  Forall (fun kmer => String.length kmer = Z.to_nat k) (Dict.keys kmers) ->
  Forall (fun kmer => String.length kmer = Z.to_nat k)
         (Dict.keys (index_sequence k kmers sequence)).
Proof.
  intros Hk H. unfold index_sequence. destruct (negb (pattern_match sequence)); [assumption |].
  apply (fold_left_invariant
           (fun d => Forall (fun kmer => String.length kmer = Z.to_nat k) (Dict.keys d)));
    [| assumption].
  intros a i Hi Ha. apply elem_of_range in Hi.
  apply Forall_forall. intros x Hx.
  apply keys_count_kmer in Hx as [->|Hx].
  - apply length_slice_window; lia.
  - rewrite Forall_forall in Ha. auto.
Qed.

Lemma index_kmers_key_length sequences k :
  0 < k ->
  Forall (fun kmer => String.length kmer = Z.to_nat k) (Dict.keys (index_kmers sequences k)).
Proof.
  intros Hk. unfold index_kmers.
  apply (fold_left_invariant
           (fun d => Forall (fun kmer => String.length kmer = Z.to_nat k) (Dict.keys d)));
    [| constructor].
  intros a s _. now apply index_sequence_key_length.
Qed.

(** Keys are never removed. *)
Lemma keys_fold_count_kmer sequence k l kmers x :
  x ∈ Dict.keys kmers -> x ∈ Dict.keys (fold_left (count_kmer sequence k) l kmers).
Proof.
  intros Hx. apply (fold_left_invariant (fun d => x ∈ Dict.keys d)); [| assumption].
  intros a i _ Ha. apply keys_count_kmer. now right.
Qed.

Lemma keys_fold_count_kmer_window sequence k l kmers i :
  i ∈ l ->
  PyStr.slice sequence (Some i) (Some (i + k))
    ∈ Dict.keys (fold_left (count_kmer sequence k) l kmers).
Proof.
  revert kmers. induction l as [|j l IH]; intros kmers Hi; [now apply not_elem_of_nil in Hi |].
  simpl. apply elem_of_cons in Hi as [->|Hi]; [| now apply IH].
  apply keys_fold_count_kmer, keys_count_kmer. now left.
Qed.

Lemma keys_index_sequence k kmers sequence x :
  x ∈ Dict.keys kmers -> x ∈ Dict.keys (index_sequence k kmers sequence).
Proof.
  intros Hx. unfold index_sequence. destruct (negb (pattern_match sequence)); [assumption |].
  now apply keys_fold_count_kmer.
Qed.

Lemma index_sequence_rejected k kmers sequence :
  pattern_match sequence = false -> index_sequence k kmers sequence = kmers.
Proof. intros H. unfold index_sequence. now rewrite H. Qed.

(** With [k <= 0] an accepted sequence always yields the empty window. *)
Lemma index_sequence_empty_kmer k kmers sequence :
  k <= 0 -> pattern_match sequence = true ->
  EmptyString ∈ Dict.keys (index_sequence k kmers sequence).
Proof.
  intros Hk Hm. unfold index_sequence. rewrite Hm. simpl.
  set (i := PyStr.len sequence - k).
  assert (Hlen : 0 <= PyStr.len sequence) by (unfold PyStr.len; lia).
  rewrite <- (slice_past_end sequence i k) by (unfold i; lia).
  apply keys_fold_count_kmer_window. apply elem_of_range. unfold i. lia.
Qed.

Lemma index_kmers_app l1 l2 k :
  index_kmers (l1 ++ l2) k = fold_left (index_sequence k) l2 (index_kmers l1 k).
Proof. unfold index_kmers. apply fold_left_app. Qed.

(** A rejected sequence leaves no mark on the counts. *)
Lemma index_kmers_rejected l1 sequence l2 k :
  pattern_match sequence = false ->
  index_kmers (l1 ++ sequence :: l2) k = index_kmers (l1 ++ l2) k.
Proof.
  intros H. rewrite !index_kmers_app. simpl. now rewrite index_sequence_rejected.
Qed.

Lemma index_kmers_all_rejected sequences k :
  Forall (fun s => pattern_match s = false) sequences -> index_kmers sequences k = [].
Proof.
  unfold index_kmers. generalize (@nil (string * Z)).
  induction sequences as [|s l IH]; intros d H; simpl; [reflexivity |].
  inversion H; subst. rewrite index_sequence_rejected by assumption. now apply IH.
Qed.

Lemma index_kmers_accepted sequences k sequence :
  k <= 0 -> sequence ∈ sequences -> pattern_match sequence = true ->
  EmptyString ∈ Dict.keys (index_kmers sequences k).
Proof.
  intros Hk Hin Hm. apply list_elem_of_split in Hin as (l1 & l2 & ->).
  rewrite index_kmers_app. simpl.
  apply (fold_left_invariant (fun d => EmptyString ∈ Dict.keys d)).
  - intros a s _. apply keys_index_sequence.
  - now apply index_sequence_empty_kmer.
Qed.

End IndexFacts.

(** ** The validity pattern *)

Section PatternFacts.

Lemma newline_not_nucleotide : is_nucleotide newline = false.
Proof. reflexivity. Qed.

Lemma pattern_match_cons c s :
  pattern_match (String c s)
  = (is_nucleotide c
     && (String.eqb (skip_nucleotides (String c s)) EmptyString
         || String.eqb (skip_nucleotides (String c s)) (PyStr.of_char newline)))%bool.
Proof. reflexivity. Qed.

Lemma skip_nucleotides_app body rest :
  nucleotides body = true -> skip_nucleotides (body +:+ rest) = skip_nucleotides rest.
Proof.
  induction body as [|c body IH]; [reflexivity |].
  simpl. intros H. apply andb_true_iff in H as [Hc Hb].
  rewrite ?app_cons. simpl. rewrite Hc. auto.
Qed.

Lemma skip_nucleotides_split s :
  exists body, nucleotides body = true /\ s = body +:+ skip_nucleotides s.
Proof.
  induction s as [|c s (body & Hb & Hs)]; [now exists EmptyString |].
  simpl. destruct (is_nucleotide c) eqn:Hc.
  - exists (String c body). simpl. rewrite Hc, Hb, ?app_cons. split; [reflexivity | now f_equal].
  - now exists EmptyString.
Qed.

(** [pattern_match] accepts exactly the non-empty nucleotide strings, and
    those followed by one final newline. *)
Lemma pattern_match_spec s :
  pattern_match s = true
  <-> exists body, body <> EmptyString /\ nucleotides body = true
                   /\ (s = body \/ s = body +:+ PyStr.of_char newline).
Proof.
  split.
  - destruct s as [|c s]; [discriminate |].
    unfold pattern_match. intros H. apply andb_true_iff in H as [Hc H].
    destruct (skip_nucleotides_split (String c s)) as (body & Hb & Hs).
    exists body. split; [| split; [assumption |]].
    + intros ->. simpl in Hs. rewrite Hc in Hs.
      simpl in H. rewrite Hc in H.
      destruct (skip_nucleotides_split s) as (b' & _ & Hs').
      apply (f_equal String.length) in Hs. simpl in Hs.
      apply orb_true_iff in H as [H|H]; apply String.eqb_eq in H; rewrite H in Hs;
        simpl in Hs.
      * lia.
      * rewrite H in Hs'. apply (f_equal String.length) in Hs'.
        rewrite length_app in Hs'. simpl in Hs'.
        assert (String.length b' = 0%nat) as Hb0 by lia.
        apply length_zero in Hb0 as ->.
        apply (f_equal String.length) in H. lia.
    + apply orb_true_iff in H as [H|H]; apply String.eqb_eq in H; rewrite H in Hs.
      * left. now rewrite app_empty_r in Hs.
      * now right.
  - intros (body & Hne & Hb & Hs).
    destruct body as [|c body]; [congruence |].
    simpl in Hb. apply andb_true_iff in Hb as [Hc Hb].
    assert (Hskip : forall rest, skip_nucleotides (String c body +:+ rest)
                                 = skip_nucleotides rest).
    { intros rest. apply skip_nucleotides_app. simpl. now rewrite Hc, Hb. }
    destruct Hs as [->| ->].
    + rewrite pattern_match_cons, Hc.
      rewrite <- (app_empty_r (String c body)), Hskip. reflexivity.
    + rewrite app_cons, pattern_match_cons, Hc, <- app_cons, Hskip. reflexivity.
Qed.

(** A character that is neither a nucleotide nor a newline rejects the
    whole sequence, wherever it stands. *)
Lemma pattern_match_foreign a c b :
  is_nucleotide c = false -> c <> newline ->
  pattern_match (a +:+ String c b) = false.
Proof.
  intros Hc Hnl. destruct (pattern_match (a +:+ String c b)) eqn:E; [| reflexivity].
  exfalso. apply pattern_match_spec in E as (body & _ & Hb & Hs).
  assert (Hin : forall x y, nucleotides (x +:+ String c y) = false).
  { intros x y. induction x as [|d x IH]; simpl.
    - rewrite Hc. reflexivity.
    - rewrite ?app_cons. simpl. rewrite IH. apply andb_false_r. }
  destruct Hs as [Hs|Hs].
  - rewrite <- Hs, Hin in Hb. discriminate.
  - revert body Hb Hs. induction a as [|d a IH]; intros body Hb Hs.
    + simpl in Hs. destruct body as [|e body].
      * simpl in Hs. injection Hs as Hs _. contradiction.
      * rewrite app_cons in Hs. injection Hs as <- _.
        simpl in Hb. rewrite Hc in Hb. discriminate.
    + rewrite app_cons in Hs. destruct body as [|e body].
      * simpl in Hs. injection Hs as _ Hs. destruct a; discriminate.
      * rewrite app_cons in Hs. injection Hs as <- Hs.
        simpl in Hb. apply andb_true_iff in Hb as [_ Hb]. eauto.
Qed.

End PatternFacts.

(** ** Stage 2 *)

Section FilterFacts.

Lemma filter_kmers_from (threshold : Z) (kmers acc : Dict.t Z) :
  NoDup (Dict.keys acc ++ Dict.keys kmers) ->
  fold_left
    (fun filtered_kmers '(kmer, abundance) =>
       if abundance >=? threshold then Dict.set filtered_kmers kmer abundance
       else filtered_kmers)
    kmers acc
  = acc ++ List.filter (keep threshold) kmers.
Proof.
  revert acc. induction kmers as [|[kmer n] kmers IH]; intros acc Hnd; simpl.
  - now rewrite app_nil_r.
  - assert (Hfresh : Dict.get acc kmer = None).
    { apply get_None. intros Hin. apply NoDup_app in Hnd as (_ & Hd & _).
      apply (Hd kmer Hin). apply elem_of_cons; now left. }
    change (keep threshold (kmer, n)) with (n >=? threshold).
    destruct (n >=? threshold).
    + rewrite IH.
      * rewrite set_fresh by assumption. now rewrite <- app_assoc.
      * rewrite keys_set_fresh by assumption. now rewrite <- app_assoc.
    + apply IH. simpl in Hnd.
      apply NoDup_app in Hnd as (Ha & Hd & Hk).
      apply NoDup_app. split; [assumption | split].
      * intros x Hx Hx'. apply (Hd x Hx). apply elem_of_cons; now right.
      * now apply NoDup_cons in Hk as [_ Hk].
Qed.

(** On a dictionary, the loop of [filter_kmers] is an order-preserving
    filter of the items. *)
Lemma filter_kmers_filter kmers threshold :
  NoDup (Dict.keys kmers) ->
  filter_kmers kmers threshold = List.filter (keep threshold) kmers.
Proof. intros H. unfold filter_kmers. now rewrite filter_kmers_from. Qed.

Lemma filter_kmers_keys kmers threshold :
  NoDup (Dict.keys kmers) ->
  NoDup (Dict.keys (filter_kmers kmers threshold))
  /\ forall kmer, kmer ∈ Dict.keys (filter_kmers kmers threshold) -> kmer ∈ Dict.keys kmers.
Proof.
  intros H. rewrite filter_kmers_filter by assumption.
  induction kmers as [|[kmer n] kmers IH]; simpl.
  - split; [constructor | auto].
  - simpl in H. apply NoDup_cons in H as [Hk H]. destruct (IH H) as [IH1 IH2].
    destruct (keep threshold (kmer, n)); simpl.
    + split.
      * apply NoDup_cons. split; [| assumption]. intros Hin. apply Hk. auto.
      * intros x Hx. apply elem_of_cons in Hx as [->|Hx]; apply elem_of_cons; auto.
    + split; [assumption |]. intros x Hx. apply elem_of_cons; auto.
Qed.

End FilterFacts.

(** ** Stage 3 *)

Section AdjacencyFacts.
Context {V : Type}.
Implicit Types (filtered_kmers : Dict.t V).

Lemma keep_present_from filtered_kmers posibility (l : list string) :
  fold_left (fun l i => if Dict.mem filtered_kmers i then l ++ [i] else l) posibility l
  = l ++ List.filter (Dict.mem filtered_kmers) posibility.
Proof.
  revert l. induction posibility as [|i rest IH]; intros l; simpl.
  - now rewrite app_nil_r.
  - rewrite IH. destruct (Dict.mem filtered_kmers i); [| reflexivity].
    now rewrite <- app_assoc.
Qed.

Lemma keep_present_filter filtered_kmers posibility :
  keep_present filtered_kmers posibility = List.filter (Dict.mem filtered_kmers) posibility.
Proof. unfold keep_present. now rewrite keep_present_from. Qed.

Lemma elem_of_keep_present filtered_kmers posibility s :
  s ∈ keep_present filtered_kmers posibility
  <-> s ∈ posibility /\ s ∈ Dict.keys filtered_kmers.
Proof.
  rewrite keep_present_filter, list_elem_of_In, filter_In, <- list_elem_of_In, mem_true.
  reflexivity.
Qed.

Lemma adjacency_get filtered_kmers w :
  Dict.get (predecessors_and_successors filtered_kmers) w
  = if decide (w ∈ Dict.keys filtered_kmers) then Some (entry_of filtered_kmers w) else None.
Proof.
  unfold predecessors_and_successors.
  exact (get_fold_set (entry_of filtered_kmers) (Dict.keys filtered_kmers) [] w).
Qed.

Lemma adjacency_items filtered_kmers :
  NoDup (Dict.keys filtered_kmers) ->
  predecessors_and_successors filtered_kmers
  = map (fun w => (w, entry_of filtered_kmers w)) (Dict.keys filtered_kmers).
Proof.
  intros H. unfold predecessors_and_successors.
  exact (fold_set_fresh (entry_of filtered_kmers) (Dict.keys filtered_kmers) [] H).
Qed.

Lemma adjacency_keys filtered_kmers :
  NoDup (Dict.keys filtered_kmers) ->
  Dict.keys (predecessors_and_successors filtered_kmers) = Dict.keys filtered_kmers.
Proof.
  intros H. rewrite adjacency_items by assumption.
  unfold Dict.keys. rewrite map_map. simpl. apply map_id.
Qed.

Lemma adjacency_length filtered_kmers :
  NoDup (Dict.keys filtered_kmers) ->
  length (predecessors_and_successors filtered_kmers) = length filtered_kmers.
Proof.
  intros H. rewrite adjacency_items by assumption.
  unfold Dict.keys. now rewrite !length_map.
Qed.

Lemma candidate_not_empty (kmer b : string) :
  b ∈ bases -> kmer +:+ b <> EmptyString /\ b +:+ kmer <> EmptyString.
Proof.
  intros Hb. split; intros H; apply (f_equal String.length) in H;
    rewrite length_app in H; simpl in H;
    unfold bases in Hb; rewrite !elem_of_cons in Hb;
    destruct Hb as [->|[->|[->|[->|Hb]]]]; simpl in H; try lia;
    now apply not_elem_of_nil in Hb.
Qed.

(** The adjacency lists name surviving k-mers only, none of them empty. *)
Lemma adjacency_well_linked filtered_kmers :
  well_linked (predecessors_and_successors filtered_kmers).
Proof.
  intros w e He. rewrite adjacency_get in He.
  destruct (decide (w ∈ Dict.keys filtered_kmers)); [| discriminate].
  injection He as <-. simpl.
  apply Forall_forall. intros s Hs.
  assert (s ∈ Dict.keys filtered_kmers /\ s <> EmptyString) as [Hkey Hne].
  { apply elem_of_app in Hs as [Hs|Hs];
      apply elem_of_keep_present in Hs as [Hs Hk];
      apply list_elem_of_fmap in Hs as (b & -> & Hb);
      (split; [assumption |]);
      [exact (proj1 (candidate_not_empty _ b Hb)) | exact (proj2 (candidate_not_empty _ b Hb))]. }
  split; [assumption |].
  rewrite adjacency_get, decide_True by assumption. discriminate.
Qed.

End AdjacencyFacts.

(** ** Stage 4: the extension loops *)

Lemma bind_Ok {A B} (r : Result A) (f : A -> Result B) (b : B) :
  bind r f = Ok b -> exists a, r = Ok a /\ f a = Ok b.
Proof. destruct r; simpl; intros H; try discriminate; eauto. Qed.

Ltac bind_inv H :=
  let a := fresh "a" in
  let E := fresh "E" in
  apply bind_Ok in H as (a & E & H).

Tactic Notation "bind_split" hyp(H) "as" simple_intropattern(p) ident(E) :=
  apply bind_Ok in H as (p & E & H).

Section LoopFacts.
Variable index : Dict.t Entry.

Lemma remaining_mono (st st' : State) :
  visited st ⊆ visited st' -> (remaining index st' <= remaining index st)%nat.
Proof. intros H. unfold remaining. apply subseteq_size. set_solver. Qed.

Lemma remaining_visit (s : string) (st : State) :
  Dict.get index s <> None -> s ∉ visited st ->
  (remaining index (visit s st) < remaining index st)%nat.
Proof.
  intros Hk Hs. unfold remaining. apply subset_size.
  assert (s ∈ nodes index).
  { unfold nodes. apply elem_of_list_to_set. now apply get_Some_key. }
  simpl. set_solver.
Qed.

Lemma remaining_initial : (remaining index initial_state <= length index)%nat.
Proof.
  unfold remaining, nodes. simpl. rewrite difference_empty_L.
  replace (length index) with (length (Dict.keys index)) by apply length_map.
  unfold size, set_size. simpl.
  apply submseteq_length, NoDup_submseteq; [apply NoDup_elements |].
  intros x Hx. apply elem_of_elements in Hx. now apply elem_of_list_to_set in Hx.
Qed.

Lemma remaining_bound (st : State) : (remaining index st <= length index)%nat.
Proof.
  etransitivity; [| apply remaining_initial].
  apply remaining_mono. simpl. set_solver.
Qed.

Lemma linked_entry (w : string) (e : Entry) :
  well_linked index -> Dict.get index w = Some e ->
  linked index (successors e) /\ linked index (predecessors e).
Proof. intros Hwl He. apply Forall_app. exact (Hwl w e He). Qed.

Lemma lookup_entry_Ok (w : string) (e : Entry) :
  lookup_entry index w = Ok e <-> Dict.get index w = Some e.
Proof.
  unfold lookup_entry. destruct (Dict.get index w); split; intros H; congruence.
Qed.

Lemma subscript_last_Ok (s : string) : s <> EmptyString -> exists c, subscript (PyStr.last s) = Ok c.
Proof.
  intros Hs. destruct (PyStr.last s) eqn:E; [simpl; eauto |].
  exfalso. induction s as [|c s IH]; [congruence |].
  simpl in E. destruct s; [discriminate |]. apply IH; [discriminate | exact E].
Qed.

Lemma subscript_first_Ok (s : string) : s <> EmptyString -> exists c, subscript (PyStr.first s) = Ok c.
Proof. intros Hs. destruct s; [congruence | simpl; eauto]. Qed.

(** The forward loop only adds to [visited]. *)
Lemma forward_loop_state fuel contig successor st contig' successor' st' :
  forward_loop fuel index contig successor st = Ok (contig', successor', st') ->
  visited st ⊆ visited st'
  /\ contig_dict st' = contig_dict st /\ trace st' = trace st.
Proof.
  revert contig successor st.
  induction fuel as [|fuel IH]; intros contig successor st H;
    destruct successor as [|s0 [|s1 rest]]; simpl in H;
    try (injection H as <- <- <-; done);
    (destruct (decide (s0 ∈ visited st)); [injection H as <- <- <-; done |]);
    [discriminate |].
  bind_inv H. bind_inv H. apply IH in H as (H1 & H2 & H3). simpl in *.
  split; [set_solver | done].
Qed.

Lemma backward_loop_state fuel contig pre st contig' pre' st' :
  backward_loop fuel index contig pre st = Ok (contig', pre', st') ->
  visited st ⊆ visited st'
  /\ contig_dict st' = contig_dict st /\ trace st' = trace st.
Proof.
  revert contig pre st.
  induction fuel as [|fuel IH]; intros contig pre st H;
    destruct pre as [|p0 [|p1 rest]]; simpl in H;
    try (injection H as <- <- <-; done);
    (destruct (decide (p0 ∈ visited st)); [injection H as <- <- <-; done |]);
    [discriminate |].
  bind_inv H. bind_inv H. apply IH in H as (H1 & H2 & H3). simpl in *.
  split; [set_solver | done].
Qed.

(** In a well-linked index the loops leave a followable adjacency list. *)
Lemma forward_loop_linked fuel contig successor st contig' successor' st' :
  well_linked index -> linked index successor ->
  forward_loop fuel index contig successor st = Ok (contig', successor', st') ->
  linked index successor'.
Proof.
  intros Hwl. revert contig successor st.
  induction fuel as [|fuel IH]; intros contig successor st Hl H;
    destruct successor as [|s0 [|s1 rest]]; simpl in H;
    try (injection H as <- <- <-; done);
    (destruct (decide (s0 ∈ visited st)); [injection H as <- <- <-; done |]);
    [discriminate |].
  bind_inv H. bind_inv H. apply lookup_entry_Ok in E0.
  apply IH in H; [assumption |]. now apply (linked_entry s0).
Qed.

Lemma backward_loop_linked fuel contig pre st contig' pre' st' :
  well_linked index -> linked index pre ->
  backward_loop fuel index contig pre st = Ok (contig', pre', st') ->
  linked index pre'.
Proof.
  intros Hwl. revert contig pre st.
  induction fuel as [|fuel IH]; intros contig pre st Hl H;
    destruct pre as [|p0 [|p1 rest]]; simpl in H;
    try (injection H as <- <- <-; done);
    (destruct (decide (p0 ∈ visited st)); [injection H as <- <- <-; done |]);
    [discriminate |].
  bind_inv H. bind_inv H. apply lookup_entry_Ok in E0.
  apply IH in H; [assumption |]. now apply (linked_entry p0).
Qed.

(** One unit of fuel per unvisited node is enough for a loop. *)
Lemma forward_loop_total fuel contig successor st :
  well_linked index -> linked index successor ->
  (remaining index st <= fuel)%nat ->
  exists r, forward_loop fuel index contig successor st = Ok r.
Proof.
  intros Hwl. revert contig successor st.
  induction fuel as [|fuel IH]; intros contig successor st Hl Hrem;
    destruct successor as [|s0 [|s1 rest]]; simpl; eauto;
    (destruct (decide (s0 ∈ visited st)); [eauto |]);
    apply Forall_cons in Hl as [[Hne Hkey] _];
    pose proof (remaining_visit s0 st Hkey n) as Hlt; [lia |].
  destruct (subscript_last_Ok s0 Hne) as [c ->]. simpl.
  unfold lookup_entry. destruct (Dict.get index s0) as [e|] eqn:He; [| congruence].
  simpl. apply IH; [now apply (linked_entry s0) | lia].
Qed.

Lemma backward_loop_total fuel contig pre st :
  well_linked index -> linked index pre ->
  (remaining index st <= fuel)%nat ->
  exists r, backward_loop fuel index contig pre st = Ok r.
Proof.
  intros Hwl. revert contig pre st.
  induction fuel as [|fuel IH]; intros contig pre st Hl Hrem;
    destruct pre as [|p0 [|p1 rest]]; simpl; eauto;
    (destruct (decide (p0 ∈ visited st)); [eauto |]);
    apply Forall_cons in Hl as [[Hne Hkey] _];
    pose proof (remaining_visit p0 st Hkey n) as Hlt; [lia |].
  destruct (subscript_first_Ok p0 Hne) as [c ->]. simpl.
  unfold lookup_entry. destruct (Dict.get index p0) as [e|] eqn:He; [| congruence].
  simpl. apply IH; [now apply (linked_entry p0) | lia].
Qed.

(** More fuel does not change the outcome of a loop that ended. *)
Lemma forward_loop_more_fuel n m contig successor st r :
  (n <= m)%nat ->
  forward_loop n index contig successor st = Ok r ->
  forward_loop m index contig successor st = Ok r.
Proof.
  revert m contig successor st.
  induction n as [|n IH]; intros m contig successor st Hnm H;
    destruct successor as [|s0 [|s1 rest]]; destruct m as [|m]; simpl in *;
    try assumption; try lia;
    (destruct (decide (s0 ∈ visited st)); [assumption |]); try discriminate.
  bind_inv H. bind_inv H. rewrite E. simpl. rewrite E0. simpl.
  apply IH; [lia | assumption].
Qed.

Lemma backward_loop_more_fuel n m contig pre st r :
  (n <= m)%nat ->
  backward_loop n index contig pre st = Ok r ->
  backward_loop m index contig pre st = Ok r.
Proof.
  revert m contig pre st.
  induction n as [|n IH]; intros m contig pre st Hnm H;
    destruct pre as [|p0 [|p1 rest]]; destruct m as [|m]; simpl in *;
    try assumption; try lia;
    (destruct (decide (p0 ∈ visited st)); [assumption |]); try discriminate.
  bind_inv H. bind_inv H. rewrite E. simpl. rewrite E0. simpl.
  apply IH; [lia | assumption].
Qed.

End LoopFacts.

(** ** Stage 4: the branch loops, for any recursive procedure *)

Section BranchFacts.
Variable index : Dict.t Entry.
Implicit Types (build : string -> State -> Result (string * State)).

Lemma forward_branches_keeps build successor best st best' st' :
  keeps_consistent build ->
  forward_branches build successor best st = Ok (best', st') ->
  consistent st -> visited st ⊆ visited st' /\ consistent st'.
Proof.
  intros Hb. revert best st.
  induction successor as [|s rest IH]; intros best st H Hc; simpl in H.
  - now injection H as <- <-.
  - destruct (decide (s ∈ visited st)); [eauto |].
    bind_inv H. destruct a as [c st1].
    destruct (Hb _ _ _ _ E n Hc) as [Hv1 Hc1].
    destruct (IH _ _ H Hc1) as [Hv2 Hc2]. split; [set_solver | assumption].
Qed.

Lemma backward_branches_keeps build contig pre best st best' st' :
  keeps_consistent build ->
  backward_branches build contig pre best st = Ok (best', st') ->
  consistent st -> visited st ⊆ visited st' /\ consistent st'.
Proof.
  intros Hb. revert best st.
  induction pre as [|p rest IH]; intros best st H Hc; simpl in H.
  - now injection H as <- <-.
  - destruct (decide (p ∈ visited st)); [eauto |].
    bind_inv H. destruct a as [c st1].
    destruct (Hb _ _ _ _ E n Hc) as [Hv1 Hc1].
    destruct (IH _ _ H Hc1) as [Hv2 Hc2]. split; [set_solver | assumption].
Qed.

Lemma forward_branches_total bound build successor best st :
  keeps_consistent build -> returns_below index bound build ->
  linked index successor -> consistent st -> (remaining index st < bound)%nat ->
  exists r, forward_branches build successor best st = Ok r.
Proof.
  intros Hk Hb. revert best st.
  induction successor as [|s rest IH]; intros best st Hl Hc Hrem; simpl; [eauto |].
  apply Forall_cons in Hl as [Hs Hl].
  destruct (decide (s ∈ visited st)); [eauto |].
  destruct (Hb s st (proj2 Hs) n Hc Hrem) as [[c st1] E]. rewrite E. simpl.
  destruct (Hk _ _ _ _ E n Hc) as [Hv1 Hc1].
  apply IH; [assumption | assumption |].
  pose proof (remaining_mono index st st1 Hv1). lia.
Qed.

Lemma backward_branches_total bound build contig pre best st :
  keeps_consistent build -> returns_below index bound build ->
  linked index pre -> consistent st -> (remaining index st < bound)%nat ->
  exists r, backward_branches build contig pre best st = Ok r.
Proof.
  intros Hk Hb. revert best st.
  induction pre as [|p rest IH]; intros best st Hl Hc Hrem; simpl; [eauto |].
  apply Forall_cons in Hl as [Hs Hl].
  destruct (decide (p ∈ visited st)); [eauto |].
  destruct (Hb p st (proj2 Hs) n Hc Hrem) as [[c st1] E]. rewrite E. simpl.
  destruct (Hk _ _ _ _ E n Hc) as [Hv1 Hc1].
  apply IH; [assumption | assumption |].
  pose proof (remaining_mono index st st1 Hv1). lia.
Qed.

Lemma forward_branches_extends build1 build2 successor best st r :
  extends build1 build2 ->
  forward_branches build1 successor best st = Ok r ->
  forward_branches build2 successor best st = Ok r.
Proof.
  intros Hx. revert best st.
  induction successor as [|s rest IH]; intros best st H; simpl in *; [assumption |].
  destruct (decide (s ∈ visited st)); [eauto |].
  bind_inv H. rewrite (Hx _ _ _ E). destruct a as [c st1]. simpl. eauto.
Qed.

Lemma backward_branches_extends build1 build2 contig pre best st r :
  extends build1 build2 ->
  backward_branches build1 contig pre best st = Ok r ->
  backward_branches build2 contig pre best st = Ok r.
Proof.
  intros Hx. revert best st.
  induction pre as [|p rest IH]; intros best st H; simpl in *; [assumption |].
  destruct (decide (p ∈ visited st)); [eauto |].
  bind_inv H. rewrite (Hx _ _ _ E). destruct a as [c st1]. simpl. eauto.
Qed.


Lemma backward_branches_results build contig pre best st :
  backward_branches build contig pre best st
  = do (results, st') <- branch_results build pre st ;
    Ok (fold_left (fun b c => longer c b) (map (fun r => r +:+ contig) results) best, st').
Proof.
  revert best st. induction pre as [|p rest IH]; intros best st; simpl; [reflexivity |].
  destruct (decide (p ∈ visited st)); [apply IH |].
  destruct (build p st) as [[c st1]| | | |]; simpl; try reflexivity.
  rewrite IH. destruct (branch_results build rest st1) as [[results st2]| | | |]; reflexivity.
Qed.

Lemma fold_longer_from (seen candidates : list string) (contig best : string) :
  first_longest contig seen best ->
  first_longest contig (seen ++ candidates)
                (fold_left (fun b c => longer c b) candidates best).
Proof.
  revert seen best. induction candidates as [|c rest IH]; intros seen best H; simpl.
  - now rewrite app_nil_r.
  - replace (seen ++ c :: rest) with ((seen ++ [c]) ++ rest) by now rewrite <- app_assoc.
    apply IH. destruct H as (before & after & Heq & Hb & Ha).
    unfold longer. destruct (Nat.ltb_spec (strlen best) (strlen c)) as [Hlt|Hge].
    + exists (before ++ best :: after), []. split; [| split; [| constructor]].
      * rewrite app_comm_cons, Heq. reflexivity.
      * apply Forall_app. split; [| constructor].
        -- eapply Forall_impl; [exact Hb |]. simpl. intros; lia.
        -- lia.
        -- eapply Forall_impl; [exact Ha |]. simpl. intros; lia.
    + exists before, (after ++ [c]). split; [| split; [assumption |]].
      * rewrite app_comm_cons, Heq, <- app_assoc. reflexivity.
      * apply Forall_app. split; [assumption | now constructor].
Qed.

Lemma fold_longer_first_longest (candidates : list string) (contig : string) :
  first_longest contig candidates (fold_left (fun b c => longer c b) candidates contig).
Proof.
  apply (fold_longer_from [] candidates contig contig).
  exists [], []. repeat split; constructor.
Qed.

Lemma first_longest_member contig candidates best :
  first_longest contig candidates best -> best = contig \/ best ∈ candidates.
Proof.
  intros (before & after & Heq & _ & _).
  assert (Hin : best ∈ contig :: candidates).
  { rewrite Heq. apply elem_of_app. right. apply elem_of_cons. now left. }
  apply elem_of_cons in Hin. exact Hin.
Qed.

Lemma first_longest_bound contig candidates best c :
  first_longest contig candidates best -> c ∈ contig :: candidates ->
  (strlen c <= strlen best)%nat.
Proof.
  intros (before & after & Heq & Hb & Ha) Hc. rewrite Heq in Hc.
  rewrite Forall_forall in Hb, Ha.
  apply elem_of_app in Hc as [Hc|Hc]; [apply Hb in Hc; lia |].
  apply elem_of_cons in Hc as [->|Hc]; [lia | auto].
Qed.


End BranchFacts.

(** ** Stage 4: branch resolution and [build_contig] *)

Section BuildFacts.
Variable index : Dict.t Entry.
Implicit Types (build : string -> State -> Result (string * State)).

Lemma forward_resolution_keeps build successor contig st contig' st' :
  keeps_consistent build ->
  forward_resolution build successor contig st = Ok (contig', st') ->
  consistent st -> visited st ⊆ visited st' /\ consistent st'.
Proof.
  intros Hb H Hc. unfold forward_resolution in H.
  destruct (1 <? length successor)%nat.
  - eapply forward_branches_keeps; eauto.
  - now injection H as <- <-.
Qed.

Lemma backward_resolution_keeps build pre contig st contig' st' :
  keeps_consistent build ->
  backward_resolution build pre contig st = Ok (contig', st') ->
  consistent st -> visited st ⊆ visited st' /\ consistent st'.
Proof.
  intros Hb H Hc. unfold backward_resolution in H.
  destruct (1 <? length pre)%nat.
  - eapply backward_branches_keeps; eauto.
  - now injection H as <- <-.
Qed.

Lemma forward_resolution_total bound build successor contig st :
  keeps_consistent build -> returns_below index bound build ->
  linked index successor -> consistent st -> (remaining index st < bound)%nat ->
  exists r, forward_resolution build successor contig st = Ok r.
Proof.
  intros. unfold forward_resolution. destruct (1 <? length successor)%nat; [| eauto].
  eapply forward_branches_total; eauto.
Qed.

Lemma backward_resolution_total bound build pre contig st :
  keeps_consistent build -> returns_below index bound build ->
  linked index pre -> consistent st -> (remaining index st < bound)%nat ->
  exists r, backward_resolution build pre contig st = Ok r.
Proof.
  intros. unfold backward_resolution. destruct (1 <? length pre)%nat; [| eauto].
  eapply backward_branches_total; eauto.
Qed.

Lemma forward_resolution_extends build1 build2 successor contig st r :
  extends build1 build2 ->
  forward_resolution build1 successor contig st = Ok r ->
  forward_resolution build2 successor contig st = Ok r.
Proof.
  intros Hx. unfold forward_resolution. destruct (1 <? length successor)%nat; [| auto].
  now apply forward_branches_extends.
Qed.

Lemma backward_resolution_extends build1 build2 pre contig st r :
  extends build1 build2 ->
  backward_resolution build1 pre contig st = Ok r ->
  backward_resolution build2 pre contig st = Ok r.
Proof.
  intros Hx. unfold backward_resolution. destruct (1 <? length pre)%nat; [| auto].
  now apply backward_branches_extends.
Qed.

Lemma consistent_grow st st' :
  contig_dict st' = contig_dict st -> trace st' = trace st ->
  visited st ⊆ visited st' -> consistent st -> consistent st'.
Proof.
  intros Hd Ht Hv [Hc1 Hc2]. split; [rewrite Hd; set_solver | now rewrite Ht].
Qed.

Lemma memo_miss w st : w ∉ visited st -> consistent st -> contig_dict st !! w = None.
Proof. intros Hw [Hd _]. apply not_elem_of_dom. set_solver. Qed.

Lemma consistent_call w st :
  w ∉ visited st -> consistent st -> consistent (visit w (record_call w st)).
Proof.
  intros Hw Hc. pose proof (memo_miss w st Hw Hc) as Hm.
  destruct Hc as [Hd Ht]. split; simpl.
  - set_solver.
  - apply Forall_app. split; [assumption |].
    constructor; [| constructor]. simpl. auto.
Qed.

Lemma consistent_return w contig st :
  w ∈ visited st -> consistent st -> consistent (record_return w (memoize w contig st)).
Proof.
  intros Hw [Hd Ht]. split; simpl.
  - rewrite dom_insert_L. set_solver.
  - apply Forall_app. split; [assumption |].
    constructor; [| constructor]. simpl. rewrite dom_insert_L. set_solver.
Qed.

Lemma build_contig_S limit w st :
  build_contig (S limit) index w st
  = let fuel := enough_fuel index in
    let st := record_call w st in
    match contig_dict st !! w with
    | Some memoized => Ok (memoized, st)
    | None =>
        let contig := w in
        let st := visit w st in
        do e <- lookup_entry index w ;
        do (contig, successor, st) <- forward_loop fuel index contig (successors e) st ;
        do (contig, st) <- forward_resolution (build_contig limit index) successor contig st ;
        do e <- lookup_entry index w ;
        do (contig, pre, st) <- backward_loop fuel index contig (predecessors e) st ;
        do (contig, st) <- backward_resolution (build_contig limit index) pre contig st ;
        let st := record_return w (memoize w contig st) in
        Ok (contig, st)
    end.
Proof. reflexivity. Qed.

(** Called on an unvisited k-mer in a consistent state, [build_contig]
    returns in a consistent state, with [visited] only larger. *)
Lemma build_contig_keeps limit : keeps_consistent (build_contig limit index).
Proof.
  induction limit as [|limit IH]; intros w st c st' H Hw Hc; [discriminate |].
  rewrite build_contig_S in H. cbv zeta in H.
  change (contig_dict (record_call w st)) with (contig_dict st) in H.
  rewrite (memo_miss w st Hw Hc) in H.
  bind_split H as e E. bind_split H as [[contig1 successor1] st1] E0.
  bind_split H as [contig2 st2] E1.
  bind_split H as e' E2. bind_split H as [[contig3 pre3] st3] E3.
  bind_split H as [contig4 st4] E4.
  injection H as <- <-.
  pose proof (consistent_call w st Hw Hc) as Hc0.
  apply forward_loop_state in E0 as (Hv1 & Hd1 & Ht1).
  pose proof (consistent_grow _ _ Hd1 Ht1 Hv1 Hc0) as Hc1.
  destruct (forward_resolution_keeps _ _ _ _ _ _ IH E1 Hc1) as [Hv2 Hc2].
  apply backward_loop_state in E3 as (Hv3 & Hd3 & Ht3).
  pose proof (consistent_grow _ _ Hd3 Ht3 Hv3 Hc2) as Hc3.
  destruct (backward_resolution_keeps _ _ _ _ _ _ IH E4 Hc3) as [Hv4 Hc4].
  simpl in Hv1.
  split; [simpl; set_solver |].
  apply consistent_return; [set_solver | assumption].
Qed.

(** Allowed more nested calls than there are unvisited nodes,
    [build_contig] returns on a well-linked index. *)
Lemma build_contig_total limit :
  well_linked index -> returns_below index limit (build_contig limit index).
Proof.
  intros Hwl. induction limit as [|limit IH]; intros w st Hkey Hw Hc Hrem; [lia |].
  rewrite build_contig_S. cbv zeta.
  change (contig_dict (record_call w st)) with (contig_dict st).
  rewrite (memo_miss w st Hw Hc).
  pose proof (consistent_call w st Hw Hc) as Hc0.
  assert (Hrem0 : (remaining index (visit w (record_call w st)) < limit)%nat).
  { pose proof (remaining_visit index w (record_call w st) Hkey Hw).
    unfold remaining in *. simpl in *. lia. }
  assert (Hfuel : forall st, (remaining index st <= enough_fuel index)%nat).
  { intros st0. pose proof (remaining_bound index st0). unfold enough_fuel. lia. }
  unfold lookup_entry at 1. destruct (Dict.get index w) as [e|] eqn:He; [| congruence].
  cbn [bind].
  destruct (linked_entry index w e Hwl He) as [Hls Hlp].
  destruct (forward_loop_total index (enough_fuel index) w (successors e)
              (visit w (record_call w st)) Hwl Hls (Hfuel _))
    as [[[contig1 successor1] st1] E1].
  rewrite E1. cbn [bind].
  pose proof (forward_loop_linked _ _ _ _ _ _ _ _ Hwl Hls E1) as Hl1.
  apply forward_loop_state in E1 as (Hv1 & Hd1 & Ht1).
  pose proof (consistent_grow _ _ Hd1 Ht1 Hv1 Hc0) as Hc1.
  pose proof (remaining_mono index _ _ Hv1) as Hr1.
  destruct (forward_resolution_total limit _ successor1 contig1 st1
              (build_contig_keeps limit) IH Hl1 Hc1 ltac:(lia))
    as [[contig2 st2] E2].
  rewrite E2. cbn [bind].
  destruct (forward_resolution_keeps _ _ _ _ _ _ (build_contig_keeps limit) E2 Hc1)
    as [Hv2 Hc2].
  pose proof (remaining_mono index _ _ Hv2) as Hr2.
  unfold lookup_entry at 1. rewrite He. cbn [bind].
  destruct (backward_loop_total index (enough_fuel index) contig2 (predecessors e) st2
              Hwl Hlp (Hfuel _))
    as [[[contig3 pre3] st3] E3].
  rewrite E3. cbn [bind].
  pose proof (backward_loop_linked _ _ _ _ _ _ _ _ Hwl Hlp E3) as Hl3.
  apply backward_loop_state in E3 as (Hv3 & Hd3 & Ht3).
  pose proof (consistent_grow _ _ Hd3 Ht3 Hv3 Hc2) as Hc3.
  pose proof (remaining_mono index _ _ Hv3) as Hr3.
  destruct (backward_resolution_total limit _ pre3 contig3 st3
              (build_contig_keeps limit) IH Hl3 Hc3 ltac:(lia))
    as [[contig4 st4] E4].
  rewrite E4. simpl. eauto.
Qed.

(** A larger limit does not change the outcome of a call that returned. *)
Lemma build_contig_more_limit n m :
  (n <= m)%nat -> extends (build_contig n index) (build_contig m index).
Proof.
  revert m. induction n as [|n IH]; intros m Hnm w st r H; [discriminate |].
  destruct m as [|m]; [lia |].
  rewrite build_contig_S in *. cbv zeta in *.
  destruct (contig_dict (record_call w st) !! w); [assumption |].
  bind_split H as e E. rewrite E. cbn [bind].
  bind_split H as [[contig1 successor1] st1] E0.
  rewrite E0. cbn [bind].
  bind_split H as [contig2 st2] E1.
  rewrite (forward_resolution_extends _ _ _ _ _ _ (IH m ltac:(lia)) E1). cbn [bind].
  bind_split H as e' E2. rewrite E in E2. injection E2 as <-.
  bind_split H as [[contig3 pre3] st3] E3.
  rewrite E3. cbn [bind].
  bind_split H as [contig4 st4] E4.
  rewrite (backward_resolution_extends _ _ _ _ _ _ (IH m ltac:(lia)) E4). cbn [bind].
  exact H.
Qed.

End BuildFacts.

(** ** Stage 4: the driver *)

Section DriverFacts.
Variable index : Dict.t Entry.

Lemma consistent_initial : consistent initial_state.
Proof. split; simpl; [set_solver | constructor]. Qed.

Lemma drive_keeps limit ws list_contig st list_contig' st' :
  drive limit index ws list_contig st = Ok (list_contig', st') ->
  consistent st -> consistent st'.
Proof.
  revert list_contig st. induction ws as [|w ws IH]; intros acc st H Hc; simpl in H.
  - now injection H as <- <-.
  - destruct (decide (w ∈ visited st)); [eauto |].
    bind_split H as [contig st1] E.
    destruct (build_contig_keeps index limit _ _ _ _ E n Hc) as [_ Hc1]. eauto.
Qed.

Lemma drive_total limit ws list_contig st :
  well_linked index ->
  Forall (fun w => Dict.get index w <> None) ws ->
  consistent st -> (remaining index st < limit)%nat ->
  exists r, drive limit index ws list_contig st = Ok r.
Proof.
  intros Hwl. revert list_contig st.
  induction ws as [|w ws IH]; intros acc st Hk Hc Hrem; simpl; [eauto |].
  apply Forall_cons in Hk as [Hw Hk].
  destruct (decide (w ∈ visited st)); [eauto |].
  destruct (build_contig_total index limit Hwl w st Hw n Hc Hrem) as [[contig st1] E].
  rewrite E. simpl.
  destruct (build_contig_keeps index limit _ _ _ _ E n Hc) as [Hv1 Hc1].
  apply IH; [assumption | assumption |].
  pose proof (remaining_mono index _ _ Hv1). lia.
Qed.

Lemma drive_more_limit n m ws list_contig st r :
  (n <= m)%nat ->
  drive n index ws list_contig st = Ok r -> drive m index ws list_contig st = Ok r.
Proof.
  intros Hnm. revert list_contig st.
  induction ws as [|w ws IH]; intros acc st H; simpl in *; [assumption |].
  destruct (decide (w ∈ visited st)); [eauto |].
  bind_split H as [contig st1] E.
  rewrite (build_contig_more_limit index n m Hnm _ _ _ E). simpl. eauto.
Qed.

Lemma keys_are_keys : Forall (fun w => Dict.get index w <> None) (Dict.keys index).
Proof. apply Forall_forall. intros w Hw. now apply get_Some_key. Qed.

(** On a well-linked index the assembler returns, in a consistent state,
    when it is allowed more nested calls than the index has nodes. *)
Lemma simple_path_run_total limit :
  well_linked index -> (length index < limit)%nat ->
  exists list_contig st,
    simple_path_run limit index = Ok (list_contig, st) /\ consistent st.
Proof.
  intros Hwl Hlimit. unfold simple_path_run.
  destruct (drive_total limit (Dict.keys index) [] initial_state Hwl
              keys_are_keys consistent_initial) as [[list_contig st] E].
  - pose proof remaining_initial index. lia.
  - exists list_contig, st. split; [assumption |].
    eapply drive_keeps; [exact E | exact consistent_initial].
Qed.

(** Whatever limit lets the assembler return, the outcome is the same. *)
Lemma simple_path_run_any_limit limit1 limit2 r1 r2 :
  simple_path_run limit1 index = Ok r1 -> simple_path_run limit2 index = Ok r2 -> r1 = r2.
Proof.
  unfold simple_path_run. intros H1 H2.
  apply (drive_more_limit limit1 (Nat.max limit1 limit2)) in H1; [| lia].
  apply (drive_more_limit limit2 (Nat.max limit1 limit2)) in H2; [| lia].
  congruence.
Qed.

Lemma simple_path_total limit :
  well_linked index -> (length index < limit)%nat ->
  exists list_contig, simple_path limit index = Ok list_contig.
Proof.
  intros Hwl Hlimit.
  destruct (simple_path_run_total limit Hwl Hlimit) as (list_contig & st & E & _).
  exists list_contig. unfold simple_path. now rewrite E.
Qed.

End DriverFacts.

(** ** Stage 4: outcomes on a well-linked index *)

Section SafeFacts.
Variable index : Dict.t Entry.
Hypothesis Hwl : well_linked index.
Implicit Types (build : string -> State -> Result (string * State)).

Lemma enough_fuel_enough (st : State) : (remaining index st <= enough_fuel index)%nat.
Proof. pose proof (remaining_bound index st). unfold enough_fuel. lia. Qed.

Lemma forward_branches_safe build successor best st :
  (forall s st, Dict.get index s <> None -> unless_too_deep (build s st)) ->
  linked index successor ->
  unless_too_deep (forward_branches build successor best st).
Proof.
  intros Hb. revert best st.
  induction successor as [|s rest IH]; intros best st Hl; simpl; [left; eauto |].
  apply Forall_cons in Hl as [[_ Hkey] Hl].
  destruct (decide (s ∈ visited st)); [auto |].
  destruct (Hb s st Hkey) as [[[c st1] ->] | ->]; simpl; [auto | now right].
Qed.

Lemma backward_branches_safe build contig pre best st :
  (forall s st, Dict.get index s <> None -> unless_too_deep (build s st)) ->
  linked index pre ->
  unless_too_deep (backward_branches build contig pre best st).
Proof.
  intros Hb. revert best st.
  induction pre as [|p rest IH]; intros best st Hl; simpl; [left; eauto |].
  apply Forall_cons in Hl as [[_ Hkey] Hl].
  destruct (decide (p ∈ visited st)); [auto |].
  destruct (Hb p st Hkey) as [[[c st1] ->] | ->]; simpl; [auto | now right].
Qed.

(** On a well-linked index a call on a key returns or raises
    [RecursionError], whatever the limit. *)
Lemma build_contig_safe limit w st :
  Dict.get index w <> None -> unless_too_deep (build_contig limit index w st).
Proof.
  revert w st. induction limit as [|limit IH]; intros w st Hkey; [now right |].
  rewrite build_contig_S. cbv zeta.
  destruct (contig_dict (record_call w st) !! w); [left; eauto |].
  unfold lookup_entry at 1. destruct (Dict.get index w) as [e|] eqn:He; [| congruence].
  cbn [bind].
  destruct (linked_entry index w e Hwl He) as [Hls Hlp].
  destruct (forward_loop_total index (enough_fuel index) w (successors e)
              (visit w (record_call w st)) Hwl Hls (enough_fuel_enough _))
    as [[[contig1 successor1] st1] E1].
  rewrite E1. cbn [bind].
  pose proof (forward_loop_linked _ _ _ _ _ _ _ _ Hwl Hls E1) as Hl1.
  assert (H2 : unless_too_deep
                 (forward_resolution (build_contig limit index) successor1 contig1 st1)).
  { unfold forward_resolution. destruct (1 <? length successor1)%nat; [| left; eauto].
    now apply forward_branches_safe. }
  destruct H2 as [[[contig2 st2] ->] | ->]; [| now right].
  cbn [bind]. unfold lookup_entry at 1. rewrite He. cbn [bind].
  destruct (backward_loop_total index (enough_fuel index) contig2 (predecessors e) st2
              Hwl Hlp (enough_fuel_enough _))
    as [[[contig3 pre3] st3] E3].
  rewrite E3. cbn [bind].
  pose proof (backward_loop_linked _ _ _ _ _ _ _ _ Hwl Hlp E3) as Hl3.
  assert (H4 : unless_too_deep
                 (backward_resolution (build_contig limit index) pre3 contig3 st3)).
  { unfold backward_resolution. destruct (1 <? length pre3)%nat; [| left; eauto].
    now apply backward_branches_safe. }
  destruct H4 as [[[contig4 st4] ->] | ->]; [| now right].
  left. simpl. eauto.
Qed.

Lemma drive_safe limit ws list_contig st :
  Forall (fun w => Dict.get index w <> None) ws ->
  unless_too_deep (drive limit index ws list_contig st).
Proof.
  revert list_contig st. induction ws as [|w ws IH]; intros acc st Hk; simpl; [left; eauto |].
  apply Forall_cons in Hk as [Hw Hk].
  destruct (decide (w ∈ visited st)); [auto |].
  destruct (build_contig_safe limit w st Hw) as [[[c st1] ->] | ->]; simpl; [auto | now right].
Qed.

Lemma simple_path_safe limit : unless_too_deep (simple_path limit index).
Proof.
  unfold simple_path, simple_path_run.
  destruct (drive_safe limit (Dict.keys index) [] initial_state (keys_are_keys index))
    as [[[l st] ->] | ->]; [left; simpl; eauto | now right].
Qed.

End SafeFacts.

(** ** Stage 4: the loops end on every index *)

Section StopFacts.
Variable index : Dict.t Entry.
Implicit Types (build : string -> State -> Result (string * State)).

Lemma forward_loop_stops fuel contig successor st :
  (remaining index st < fuel)%nat ->
  forward_loop fuel index contig successor st <> OutOfFuel.
Proof.
  revert contig successor st. induction fuel as [|fuel IH]; intros contig successor st Hrem;
    [lia |].
  destruct successor as [|s0 [|s1 rest]]; simpl; try discriminate.
  destruct (decide (s0 ∈ visited st)) as [Hv|Hv]; [discriminate |].
  destruct (PyStr.last s0); simpl; [| discriminate].
  unfold lookup_entry. destruct (Dict.get index s0) as [e|] eqn:E; simpl; [| discriminate].
  apply IH. pose proof (remaining_visit index s0 st ltac:(congruence) Hv). lia.
Qed.

Lemma backward_loop_stops fuel contig pre st :
  (remaining index st < fuel)%nat ->
  backward_loop fuel index contig pre st <> OutOfFuel.
Proof.
  revert contig pre st. induction fuel as [|fuel IH]; intros contig pre st Hrem; [lia |].
  destruct pre as [|p0 [|p1 rest]]; simpl; try discriminate.
  destruct (decide (p0 ∈ visited st)) as [Hv|Hv]; [discriminate |].
  destruct (PyStr.first p0); simpl; [| discriminate].
  unfold lookup_entry. destruct (Dict.get index p0) as [e|] eqn:E; simpl; [| discriminate].
  apply IH. pose proof (remaining_visit index p0 st ltac:(congruence) Hv). lia.
Qed.

Lemma forward_branches_stops build successor best st :
  (forall s st, build s st <> OutOfFuel) ->
  forward_branches build successor best st <> OutOfFuel.
Proof.
  intros Hb. revert best st.
  induction successor as [|s rest IH]; intros best st; simpl; [discriminate |].
  destruct (decide (s ∈ visited st)); [auto |].
  destruct (build s st) as [[c st1]| | | |] eqn:E; simpl; try discriminate; [auto |].
  exfalso. exact (Hb s st E).
Qed.

Lemma backward_branches_stops build contig pre best st :
  (forall s st, build s st <> OutOfFuel) ->
  backward_branches build contig pre best st <> OutOfFuel.
Proof.
  intros Hb. revert best st.
  induction pre as [|p rest IH]; intros best st; simpl; [discriminate |].
  destruct (decide (p ∈ visited st)); [auto |].
  destruct (build p st) as [[c st1]| | | |] eqn:E; simpl; try discriminate; [auto |].
  exfalso. exact (Hb p st E).
Qed.

(** The fuel that [build_contig] gives to its loops is never used up: the
    model adds no outcome to those of the interpreter. *)
Lemma loops_never_starve limit w st : build_contig limit index w st <> OutOfFuel.
Proof.
  revert w st. induction limit as [|limit IH]; intros w st; [discriminate |].
  rewrite build_contig_S. cbv zeta.
  destruct (contig_dict (record_call w st) !! w); [discriminate |].
  unfold lookup_entry. destruct (Dict.get index w) as [e|] eqn:He; [| discriminate].
  cbn [bind].
  assert (Hfuel : forall st, (remaining index st < enough_fuel index)%nat).
  { intros st0. pose proof (remaining_bound index st0). unfold enough_fuel. lia. }
  destruct (forward_loop (enough_fuel index) index w (successors e)
              (visit w (record_call w st)))
    as [[[contig1 successor1] st1]| | | |] eqn:E0; cbn [bind]; try discriminate;
    [| exfalso; exact (forward_loop_stops _ _ _ _ (Hfuel _) E0)].
  destruct (forward_resolution (build_contig limit index) successor1 contig1 st1)
    as [[contig2 st2]| | | |] eqn:E1; cbn [bind]; try discriminate.
  2: { exfalso. unfold forward_resolution in E1.
       destruct (1 <? length successor1)%nat; [| discriminate].
       exact (forward_branches_stops _ _ _ _ IH E1). }
  destruct (backward_loop (enough_fuel index) index contig2 (predecessors e) st2)
    as [[[contig3 pre3] st3]| | | |] eqn:E3; cbn [bind]; try discriminate;
    [| exfalso; exact (backward_loop_stops _ _ _ _ (Hfuel _) E3)].
  destruct (backward_resolution (build_contig limit index) pre3 contig3 st3)
    as [[contig4 st4]| | | |] eqn:E4; cbn [bind]; try discriminate.
  exfalso. unfold backward_resolution in E4.
  destruct (1 <? length pre3)%nat; [| discriminate].
  exact (backward_branches_stops _ _ _ _ _ IH E4).
Qed.

Lemma drive_stops limit ws list_contig st :
  drive limit index ws list_contig st <> OutOfFuel.
Proof.
  revert list_contig st. induction ws as [|w ws IH]; intros acc st; simpl; [discriminate |].
  destruct (decide (w ∈ visited st)); [auto |].
  destruct (build_contig limit index w st) as [[c st1]| | | |] eqn:E; simpl;
    try discriminate; [auto |].
  exfalso. exact (loops_never_starve limit w st E).
Qed.

Lemma simple_path_stops limit : simple_path limit index <> OutOfFuel.
Proof.
  unfold simple_path, simple_path_run.
  pose proof (drive_stops limit (Dict.keys index) [] initial_state) as H.
  destruct (drive limit index (Dict.keys index) [] initial_state) as [[l st]| | | |];
    simpl; try discriminate. contradiction.
Qed.

End StopFacts.

(** ** The pipeline *)

Section PipelineFacts.
Variables (sequences : list string) (k threshold : Z).

Lemma filtered_keys_unique :
  NoDup (Dict.keys (filter_kmers (index_kmers sequences k) threshold)).
Proof. apply filter_kmers_keys. apply index_kmers_counted. Qed.

Lemma pipeline_index_length :
  length (predecessors_and_successors (filter_kmers (index_kmers sequences k) threshold))
  = length (filter_kmers (index_kmers sequences k) threshold).
Proof. apply adjacency_length, filtered_keys_unique. Qed.

(** The pipeline returns when it is allowed more nested calls than k-mers
    are kept. *)
Lemma pipeline_total limit :
  (length (filter_kmers (index_kmers sequences k) threshold) < limit)%nat ->
  exists list_contig, pipeline limit sequences k threshold = Ok list_contig.
Proof.
  intros Hlimit. unfold pipeline.
  apply simple_path_total; [apply adjacency_well_linked |].
  now rewrite pipeline_index_length.
Qed.

(** It raises neither [KeyError] nor [IndexError], and its loops end. *)
Lemma pipeline_safe limit : unless_too_deep (pipeline limit sequences k threshold).
Proof. unfold pipeline. apply simple_path_safe, adjacency_well_linked. Qed.

End PipelineFacts.

(** * The claims *)

(** ** Worked scenario *)

(** C1. On sequences = ["ACGTACGTA"], k = 3 and threshold = 2, [index_kmers]
    returns {ACG:2, CGT:2, GTA:2, TAC:1}; [filter_kmers] keeps ACG, CGT and
    GTA; [predecessors_and_successors] gives ACG successors [CGT] and no
    predecessor, CGT successors [GTA] and predecessors [ACG], GTA no
    successor and predecessors [CGT]; and [simple_path] returns the single
    contig "ACGTA", as soon as the interpreter allows one call of
    [build_contig]. *)
Theorem scenario_ACGTACGTA :
  let kmers := index_kmers ["ACGTACGTA"] 3 in
  let filtered_kmers := filter_kmers kmers 2 in
  let index := predecessors_and_successors filtered_kmers in
  kmers = [("ACG", 2); ("CGT", 2); ("GTA", 2); ("TAC", 1)]
  /\ filtered_kmers = [("ACG", 2); ("CGT", 2); ("GTA", 2)]
  /\ index = [("ACG", {| successors := ["CGT"]; predecessors := [] |});
              ("CGT", {| successors := ["GTA"]; predecessors := ["ACG"] |});
              ("GTA", {| successors := []; predecessors := ["CGT"] |})]
  /\ (forall limit, (0 < limit)%nat -> simple_path limit index = Ok ["ACGTA"]).
Proof.
  cbv zeta. split; [vm_compute; reflexivity |]. split; [vm_compute; reflexivity |].
  split; [vm_compute; reflexivity |].
  intros [|limit] Hlimit; [lia |]. vm_compute. reflexivity.
Qed.

(** ** Adjacency contract *)

Section AdjacencyContract.

Ltac slice_cases :=
  unfold PyStr.slice, PyStr.adjust, PyStr.len;
  repeat match goal with
         | |- context [Z.ltb ?a ?b] =>
             lazymatch constr:((a, b)) with
             | context [Z.ltb] => fail
             | _ => destruct (Z.ltb_spec a b); try lia
             end
         | |- context [Z.min ?a ?b] =>
             first [rewrite (Z.min_l a b) by lia | rewrite (Z.min_r a b) by lia]
         | |- context [Z.max ?a ?b] =>
             first [rewrite (Z.max_l a b) by lia | rewrite (Z.max_r a b) by lia]
         end.

Lemma take_zero (s : string) : PyStr.take 0 s = EmptyString.
Proof. now destruct s. Qed.

Lemma drop_all (n : nat) (s : string) : (String.length s <= n)%nat -> PyStr.drop n s = EmptyString.
Proof.
  revert s. induction n as [|n IH]; intros [|c s] H; simpl in *; auto; try lia.
  apply IH. lia.
Qed.

Ltac slice_finish :=
  first [ apply take_all; rewrite length_drop; lia
        | symmetry; apply drop_all; lia
        | simpl PyStr.drop; f_equal; lia
        | match goal with
          | |- EmptyString = PyStr.take ?n _ => replace n with 0%nat by lia; now rewrite take_zero
          end ].

Lemma slice_tail (w : string) : PyStr.slice w (Some 1) None = PyStr.drop 1 w.
Proof. slice_cases; slice_finish. Qed.

Lemma slice_tail_len (w : string) :
  PyStr.slice w (Some 1) (Some (PyStr.len w)) = PyStr.drop 1 w.
Proof. slice_cases; slice_finish. Qed.

Lemma slice_init (w : string) :
  PyStr.slice w None (Some (-1)) = PyStr.take (String.length w - 1) w.
Proof. slice_cases; slice_finish. Qed.

Lemma slice_init_len (w : string) :
  PyStr.slice w (Some 0) (Some (PyStr.len w - 1)) = PyStr.take (String.length w - 1) w.
Proof. slice_cases; slice_finish. Qed.

Lemma base_nucleotide (c : ascii) : is_nucleotide c = true <-> PyStr.of_char c ∈ bases.
Proof.
  unfold is_nucleotide, bases. rewrite !orb_true_iff, !Ascii.eqb_eq, !elem_of_cons.
  unfold PyStr.of_char. split.
  - intros [[[->| ->]| ->]| ->]; auto.
  - intros [H|[H|[H|[H|H]]]]; try (injection H as ->; tauto).
    now apply not_elem_of_nil in H.
Qed.

Lemma base_is_char (b : string) : b ∈ bases -> exists c, b = PyStr.of_char c.
Proof.
  unfold bases. rewrite !elem_of_cons.
  intros [->|[->|[->|[->|H]]]]; try (eexists; reflexivity).
  now apply not_elem_of_nil in H.
Qed.

Lemma nucleotides_drop (n : nat) (s : string) :
  nucleotides s = true -> nucleotides (PyStr.drop n s) = true.
Proof.
  revert s. induction n as [|n IH]; intros [|c s] H; simpl; auto.
  simpl in H. apply andb_true_iff in H as [_ H]. auto.
Qed.

(** A k-mer extends [tail] by one base exactly when its first [k-1]
    characters are [tail]. *)
Lemma successor_candidate (tail s : string) :
  nucleotides s = true -> String.length s = S (String.length tail) ->
  s ∈ map (fun b => tail +:+ b) bases <-> PyStr.take (String.length s - 1) s = tail.
Proof.
  intros Hs Hlen. rewrite list_elem_of_fmap. split.
  - intros (b & -> & Hb). replace (String.length (tail +:+ b) - 1)%nat
      with (String.length tail) by lia. apply take_app_exact.
  - intros Ht. pose proof (take_drop (String.length s - 1) s) as Hsplit.
    assert (Hl : String.length (PyStr.drop (String.length s - 1) s) = 1%nat)
      by (rewrite length_drop; lia).
    apply length_one in Hl as [c Hc].
    exists (PyStr.of_char c). split; [now rewrite <- Ht, <- Hc |].
    apply base_nucleotide.
    pose proof (nucleotides_drop (String.length s - 1) s Hs) as Hn.
    rewrite Hc in Hn. simpl in Hn. now rewrite andb_true_r in Hn.
Qed.

(** A k-mer extends [init] by one base in front exactly when its last
    [k-1] characters are [init]. *)
Lemma predecessor_candidate (init p : string) :
  nucleotides p = true -> String.length p = S (String.length init) ->
  p ∈ map (fun b => b +:+ init) bases <-> PyStr.drop 1 p = init.
Proof.
  intros Hp Hlen. rewrite list_elem_of_fmap. split.
  - intros (b & -> & Hb). apply base_is_char in Hb as [c ->]. reflexivity.
  - intros Ht. destruct p as [|c p]; [discriminate |]. simpl in Ht. subst p.
    exists (PyStr.of_char c). split; [reflexivity |].
    apply base_nucleotide. simpl in Hp. now apply andb_true_iff in Hp as [Hc _].
Qed.

Lemma nucleotides_take (n : nat) (s : string) :
  nucleotides s = true -> nucleotides (PyStr.take n s) = true.
Proof.
  revert s. induction n as [|n IH]; intros [|c s] H; simpl; auto.
  simpl in H. apply andb_true_iff in H as [Hc H]. rewrite Hc. simpl. auto.
Qed.

Lemma nucleotides_app (a b : string) :
  nucleotides a = true -> nucleotides b = true -> nucleotides (a +:+ b) = true.
Proof.
  intros Ha Hb. induction a as [|c a IH]; [exact Hb |].
  simpl in Ha. apply andb_true_iff in Ha as [Hc Ha].
  rewrite app_cons. simpl. rewrite Hc. simpl. auto.
Qed.

Lemma base_nucleotides (b : string) :
  b ∈ bases -> nucleotides b = true /\ String.length b = 1%nat.
Proof.
  unfold bases. rewrite !elem_of_cons.
  intros [->|[->|[->|[->|H]]]]; try (split; reflexivity).
  now apply not_elem_of_nil in H.
Qed.

End AdjacencyContract.

(** C2. For a key [w] of FilteredKmers that is a k-mer (length [k > 0]
    over {A, C, G, T}), the entry computed for [w] is such that a k-mer [s]
    is a successor iff [s] is a key and [s[0:k-1] == w[1:k]], a k-mer [p] is
    a predecessor iff [p] is a key and [p[1:k] == w[0:k-1]]; both lists hold
    k-mers only, in the candidate order: A, C, G, T appended to [w[1:k]],
    resp. put in front of [w[0:k-1]]. *)
Theorem adjacency_contract {V} (filtered_kmers : Dict.t V) (k : Z) (w : string) :
  0 < k ->
  w ∈ Dict.keys filtered_kmers ->
  PyStr.len w = k -> nucleotides w = true ->
  exists e,
    Dict.get (predecessors_and_successors filtered_kmers) w = Some e
    /\ (forall s, PyStr.len s = k -> nucleotides s = true ->
                  (s ∈ successors e
                   <-> s ∈ Dict.keys filtered_kmers
                       /\ PyStr.slice s (Some 0) (Some (k - 1))
                          = PyStr.slice w (Some 1) (Some k)))
    /\ (forall p, PyStr.len p = k -> nucleotides p = true ->
                  (p ∈ predecessors e
                   <-> p ∈ Dict.keys filtered_kmers
                       /\ PyStr.slice p (Some 1) (Some k)
                          = PyStr.slice w (Some 0) (Some (k - 1))))
    /\ Forall (fun x => PyStr.len x = k /\ nucleotides x = true)
              (successors e ++ predecessors e)
    /\ successors e
       = List.filter (Dict.mem filtered_kmers)
           (map (fun b => PyStr.slice w (Some 1) (Some k) +:+ b) bases)
    /\ predecessors e
       = List.filter (Dict.mem filtered_kmers)
           (map (fun b => b +:+ PyStr.slice w (Some 0) (Some (k - 1))) bases).
Proof.
  intros Hk Hw Hlw Hnw. subst k.
  exists (entry_of filtered_kmers w).
  split; [rewrite adjacency_get; now rewrite decide_True by assumption |].
  simpl. unfold successors_of, predecessors_of.
  rewrite !keep_present_filter, slice_tail, slice_init, slice_tail_len, slice_init_len.
  assert (Hpos : (0 < String.length w)%nat) by (unfold PyStr.len in Hk; lia).
  assert (Hsame : forall x, PyStr.len x = PyStr.len w -> String.length x = String.length w)
    by (unfold PyStr.len; lia).
  split; [| split; [| split; [| split; reflexivity]]].
  - intros s Hls Hns.
    rewrite list_elem_of_In, filter_In, <- list_elem_of_In, mem_true.
    rewrite <- Hls, slice_init_len. apply Hsame in Hls.
    rewrite (successor_candidate (PyStr.drop 1 w) s Hns)
      by (rewrite length_drop; lia).
    tauto.
  - intros p Hlp Hnp.
    rewrite list_elem_of_In, filter_In, <- list_elem_of_In, mem_true.
    rewrite <- Hlp, slice_tail_len. apply Hsame in Hlp.
    rewrite (predecessor_candidate (PyStr.take (String.length w - 1) w) p Hnp)
      by (rewrite length_take; lia).
    tauto.
  - apply Forall_forall. intros x Hx.
    apply elem_of_app in Hx as [Hx|Hx];
      apply list_elem_of_In, filter_In in Hx as [Hx _];
      apply list_elem_of_In, list_elem_of_fmap in Hx as (b & -> & Hb);
      destruct (base_nucleotides b Hb) as [Hnb Hlb];
      unfold PyStr.len; rewrite length_app, ?length_drop, ?length_take, Hlb.
    + split; [lia |]. apply nucleotides_app; [now apply nucleotides_drop | exact Hnb].
    + split; [lia |]. apply nucleotides_app; [exact Hnb | now apply nucleotides_take].
Qed.

Lemma adjacency_contract_witness :
  exists e,
    Dict.get
      (predecessors_and_successors (filter_kmers (index_kmers ["ACGTACGTA"] 3) 2)) "CGT"
    = Some e
    /\ ("GTA" ∈ successors e
        <-> "GTA" ∈ Dict.keys (filter_kmers (index_kmers ["ACGTACGTA"] 3) 2)
            /\ PyStr.slice "GTA" (Some 0) (Some (3 - 1)) = PyStr.slice "CGT" (Some 1) (Some 3))
    /\ successors e = ["GTA"] /\ predecessors e = ["ACG"].
Proof.
  destruct (adjacency_contract (filter_kmers (index_kmers ["ACGTACGTA"] 3) 2) 3 "CGT")
    as (e & He & Hsucc & _ & _ & Hs & Hp).
  - lia.
  - apply list_elem_of_In. vm_compute. tauto.
  - reflexivity.
  - reflexivity.
  - exists e. split; [exact He |]. split; [apply Hsucc; reflexivity |].
    split; [rewrite Hs | rewrite Hp]; reflexivity.
Defined.

(** ** Branch resolution *)



(** C3 (as the code has it). After the backward loop, nothing is done when
    the predecessor list has at most one entry, visited or not.  When it has
    more, [build_contig] is called on each predecessor that is not visited
    when its turn comes, each result is put in front of the contig that
    entered the resolution, and the contig becomes the first longest string
    among that contig and these concatenations.  The resolution returns
    exactly when all these calls return. *)
Theorem backward_branch_resolution limit index pre contig st :
  let build := build_contig limit index in
  ((length pre <= 1)%nat -> backward_resolution build pre contig st = Ok (contig, st))
  /\ ((1 < length pre)%nat ->
      (forall results st',
          branch_results build pre st = Ok (results, st') ->
          exists best,
            backward_resolution build pre contig st = Ok (best, st')
            /\ first_longest contig (map (fun r => r +:+ contig) results) best
            /\ (best = contig \/ exists r, r ∈ results /\ best = r +:+ contig))
      /\ (forall r,
             backward_resolution build pre contig st = Ok r ->
             exists results st', branch_results build pre st = Ok (results, st'))).
Proof.
  intros build. unfold backward_resolution.
  split; [| split].
  - intros H. destruct (Nat.ltb_spec 1 (length pre)); [lia | reflexivity].
  - intros results st' Hr.
    destruct (Nat.ltb_spec 1 (length pre)); [| lia].
    rewrite backward_branches_results, Hr. simpl.
    pose proof (fold_longer_first_longest (map (fun r => r +:+ contig) results) contig) as Hfl.
    eexists. split; [reflexivity |]. split; [exact Hfl |].
    destruct (first_longest_member _ _ _ Hfl) as [Hm|Hm]; [now left | right].
    apply list_elem_of_fmap in Hm as (r & Hr' & Hin). eauto.
  - intros r Hr. destruct (Nat.ltb_spec 1 (length pre)); [| lia].
    rewrite backward_branches_results in Hr.
    destruct (branch_results build pre st) as [[results st']| | | |]; try discriminate.
    eauto.
Qed.

Lemma backward_branch_resolution_witness :
  exists best,
    backward_resolution (build_contig 3 merge_index) ["AC"; "GC"] "CAC" merge_state
    = Ok (best, merge_final)
    /\ first_longest "CAC" ["GCCAC"] best.
Proof.
  destruct (backward_branch_resolution 3 merge_index ["AC"; "GC"] "CAC" merge_state)
    as [_ H].
  destruct H as [H _]; [simpl; lia |].
  destruct (H ["GC"] merge_final) as (best & Hb & Hfl & _).
  - vm_compute. reflexivity.
  - exists best. split; assumption.
Defined.

(** C3 as stated does not hold: in the run on reads CAC and GCA (k = 2,
    threshold = 1) the predecessor list of CA is [AC; GC] with AC already
    visited, so a single entry is unvisited; the resolution is performed all
    the same, and turns the contig CAC into GCCAC. *)
Lemma backward_gate_counterexample :
  unvisited_count ["AC"; "GC"] merge_state = 1%nat
  /\ backward_resolution (build_contig 3 merge_index) ["AC"; "GC"] "CAC" merge_state
     = Ok ("GCCAC", merge_final)
  /\ pipeline 3 ["CAC"; "GCA"] 2 1 = Ok ["GCCAC"]
  /\ ~ gated_on_unvisited.
Proof.
  assert (H1 : unvisited_count ["AC"; "GC"] merge_state = 1%nat) by (vm_compute; reflexivity).
  assert (H2 : backward_resolution (build_contig 3 merge_index) ["AC"; "GC"] "CAC" merge_state
               = Ok ("GCCAC", merge_final)) by (vm_compute; reflexivity).
  split; [exact H1 |]. split; [exact H2 |]. split; [vm_compute; reflexivity |].
  intros Hgate.
  specialize (Hgate 3%nat merge_index ["AC"; "GC"] "CAC" merge_state).
  rewrite H1, H2 in Hgate. specialize (Hgate (le_n 1)).
  injection Hgate as Hc _. discriminate Hc.
Qed.

(** ** Degenerate [k] *)

(** C5 as stated does not hold: with k = 0 and the single read ACGT, every
    window is the empty string, so [index_kmers] counts the empty string 5
    times, the filter keeps it at threshold 2, and the contig list holds one
    contig, the empty string. *)
Lemma degenerate_k_counterexample :
  index_kmers ["ACGT"] 0 = [(EmptyString, 5)]
  /\ filter_kmers (index_kmers ["ACGT"] 0) 2 = [(EmptyString, 5)]
  /\ pipeline 1 ["ACGT"] 0 2 = Ok [EmptyString]
  /\ pipeline 1 ["ACGT"] 0 2 <> Ok [].
Proof.
  split; [reflexivity |]. split; [reflexivity |].
  assert (H : pipeline 1 ["ACGT"] 0 2 = Ok [EmptyString]) by (vm_compute; reflexivity).
  split; [exact H |]. rewrite H. discriminate.
Qed.

(** C5 (as the code has it). With [k <= 0] the pipeline raises neither
    [KeyError] nor [IndexError]: it returns a contig list, unless the calls
    of [build_contig] nest deeper than the interpreter allows, which is a
    [RecursionError]; it does return when more nested calls are allowed than
    k-mers are kept.  The k-mer mapping is empty exactly when no sequence
    passes the validity pattern, and then the filtered mapping and the
    contig list are empty too; as soon as one sequence passes, the empty
    string is a key of the k-mer mapping. *)
Theorem degenerate_k limit sequences k threshold :
  k <= 0 ->
  ((exists list_contig, pipeline limit sequences k threshold = Ok list_contig)
   \/ pipeline limit sequences k threshold = RecursionError)
  /\ ((length (filter_kmers (index_kmers sequences k) threshold) < limit)%nat ->
      exists list_contig, pipeline limit sequences k threshold = Ok list_contig)
  /\ (index_kmers sequences k = [] <-> Forall (fun s => pattern_match s = false) sequences)
  /\ (index_kmers sequences k = [] ->
      filter_kmers (index_kmers sequences k) threshold = []
      /\ pipeline limit sequences k threshold = Ok [])
  /\ (forall s, s ∈ sequences -> pattern_match s = true ->
                EmptyString ∈ Dict.keys (index_kmers sequences k)).
Proof.
  intros Hk.
  assert (Hacc : forall s, s ∈ sequences -> pattern_match s = true ->
                           EmptyString ∈ Dict.keys (index_kmers sequences k))
    by (intros s; now apply index_kmers_accepted).
  split; [apply pipeline_safe |]. split; [apply pipeline_total |].
  split; [| split; [| exact Hacc]].
  - split; [| apply index_kmers_all_rejected].
    intros Hnil. apply Forall_forall. intros s Hs.
    destruct (pattern_match s) eqn:E; [| reflexivity].
    specialize (Hacc s Hs E). rewrite Hnil in Hacc. now apply not_elem_of_nil in Hacc.
  - intros Hnil. unfold pipeline. rewrite Hnil. split; reflexivity.
Qed.

Lemma degenerate_k_witness :
  (index_kmers ["ACNT"] 0 = [] <-> Forall (fun s => pattern_match s = false) ["ACNT"])
  /\ pipeline 0 ["ACNT"] 0 2 = Ok []
  /\ EmptyString ∈ Dict.keys (index_kmers ["ACNT"; "ACGT"] (-1))
  /\ (exists list_contig, pipeline 3 ["ACNT"; "ACGT"] (-1) 1 = Ok list_contig)
  /\ pipeline 2 ["ACG"; "CAG"; "CCG"] (-1) 1 = RecursionError
  /\ pipeline 3 ["ACG"; "CAG"; "CCG"] (-1) 1 = Ok ["CCCA"; EmptyString].
Proof.
  destruct (degenerate_k 0 ["ACNT"] 0 2) as (_ & _ & Hiff & Hnil & _); [lia |].
  destruct (degenerate_k 3 ["ACNT"; "ACGT"] (-1) 1) as (_ & Hret & _ & _ & Hacc); [lia |].
  destruct (degenerate_k 2 ["ACG"; "CAG"; "CCG"] (-1) 1) as (Hdeep & _); [lia |].
  split; [exact Hiff |]. split; [| split; [| split; [| split]]].
  - apply Hnil. reflexivity.
  - apply (Hacc "ACGT"); [apply list_elem_of_In; simpl; tauto | reflexivity].
  - apply Hret. vm_compute. lia.
  - destruct Hdeep as [[l H] | H]; [vm_compute in H; discriminate H | exact H].
  - vm_compute. reflexivity.
Defined.

(** ** Threshold zero *)

Lemma filter_all {A} (p : A -> bool) (l : list A) :
  (forall x, x ∈ l -> p x = true) -> List.filter p l = l.
Proof.
  induction l as [|x l IH]; intros H; simpl; [reflexivity |].
  rewrite (H x) by (apply elem_of_cons; now left).
  f_equal. apply IH. intros y Hy. apply H. apply elem_of_cons; now right.
Qed.

(** C6. On a k-mer mapping (unique keys, counts from 1 up, as [index_kmers]
    produces them), [filter_kmers] with threshold 0 returns its input: same
    entries, same order. *)
Theorem filter_threshold_zero (kmers : Dict.t Z) :
  counted kmers -> filter_kmers kmers 0 = kmers.
Proof.
  intros [Hnd Hpos]. rewrite filter_kmers_filter by assumption.
  apply filter_all. intros [kmer n] Hin. unfold keep. simpl.
  apply Hpos in Hin. apply Z.geb_le. lia.
Qed.

Lemma filter_threshold_zero_witness :
  filter_kmers (index_kmers ["ACGTACGTA"] 3) 0 = index_kmers ["ACGTACGTA"] 3.
Proof. apply filter_threshold_zero. apply index_kmers_counted. Defined.

(** ** Rejected sequences *)

(** C7 fails on a read that ends with a newline: [$] also holds just
    before a final newline, so "ACG\n" passes the pattern although it holds a
    character outside {A, C, G, T}; its windows ACG and "CG\n" are counted,
    and the count of ACG from the read ACG goes from 1 to 2. *)
Theorem trailing_newline_is_indexed :
  let sequence := "ACG" +:+ PyStr.of_char newline in
  nucleotides sequence = false
  /\ pattern_match sequence = true
  /\ index_kmers [sequence] 3 = [("ACG", 1); ("CG" +:+ PyStr.of_char newline, 1)]
  /\ index_kmers ["ACG"; sequence] 3 = [("ACG", 2); ("CG" +:+ PyStr.of_char newline, 1)]
  /\ index_kmers ["ACG"] 3 = [("ACG", 1)].
Proof. vm_compute. repeat split. Qed.

(** ** Graph nodes *)

Lemma filter_kmers_passed kmers threshold kmer :
  NoDup (Dict.keys kmers) ->
  kmer ∈ Dict.keys (filter_kmers kmers threshold) ->
  exists n, (kmer, n) ∈ kmers /\ threshold <= n.
Proof.
  intros Hnd. rewrite filter_kmers_filter by assumption.
  unfold Dict.keys. rewrite list_elem_of_fmap. intros ([x n] & -> & Hin).
  apply list_elem_of_In, filter_In in Hin as [Hin Hkeep].
  exists n. split; [now apply list_elem_of_In |].
  unfold keep in Hkeep. simpl in Hkeep. apply Z.geb_le in Hkeep. exact Hkeep.
Qed.

(** C8. For a positive [k], the adjacency mapping built from the filtered
    k-mers of [index_kmers] has the keys of FilteredKmers, in the same order;
    each key has exactly [k] characters and passed the abundance filter. *)
Theorem adjacency_nodes sequences k threshold :
  0 < k ->
  let filtered_kmers := filter_kmers (index_kmers sequences k) threshold in
  let index := predecessors_and_successors filtered_kmers in
  Dict.keys index = Dict.keys filtered_kmers
  /\ Forall (fun w => PyStr.len w = k) (Dict.keys index)
  /\ Forall (fun w => exists n, (w, n) ∈ index_kmers sequences k /\ threshold <= n)
            (Dict.keys index).
Proof.
  intros Hk filtered_kmers index.
  pose proof (index_kmers_counted sequences k) as [Hnd _].
  pose proof (filter_kmers_keys _ threshold Hnd) as [Hnd' Hsub].
  assert (Hkeys : Dict.keys index = Dict.keys filtered_kmers)
    by now apply adjacency_keys.
  rewrite Hkeys. split; [reflexivity |].
  pose proof (index_kmers_key_length sequences k Hk) as Hlen.
  rewrite Forall_forall in Hlen.
  split; apply Forall_forall; intros w Hw.
  - apply Hsub, Hlen in Hw. unfold PyStr.len. lia.
  - now apply filter_kmers_passed.
Qed.

Lemma adjacency_nodes_witness :
  Dict.keys (predecessors_and_successors (filter_kmers (index_kmers ["ACGTACGTA"] 3) 2))
  = ["ACG"; "CGT"; "GTA"].
Proof.
  destruct (adjacency_nodes ["ACGTACGTA"] 3 2) as [H _]; [lia |].
  rewrite H. reflexivity.
Defined.

(** ** The memo *)

(** C10. A run of [simple_path] that ends leaves every key of
    [contig_dict] in [visited], and so does every state in which
    [build_contig] was entered or stored its result; each call of
    [build_contig] was made on a k-mer that was not in [visited] and not in
    [contig_dict], so no call returned through the memo.  On a well-linked
    index (in particular on every index built by
    [predecessors_and_successors]) the run does end, when the interpreter
    allows more nested calls than the index has keys. *)
Theorem memo_never_hit (index : Dict.t Entry) :
  (well_linked index ->
   forall limit, (length index < limit)%nat ->
   exists list_contig st, simple_path_run limit index = Ok (list_contig, st))
  /\ (forall limit list_contig st,
         simple_path_run limit index = Ok (list_contig, st) ->
         dom (contig_dict st) ⊆ visited st
         /\ Forall event_ok (trace st)
         /\ forall w memo seen,
              EvCall w memo seen ∈ trace st ->
              (w ∉ seen) /\ memo !! w = None /\ dom memo ⊆ seen).
Proof.
  split.
  - intros Hwl limit Hlimit.
    destruct (simple_path_run_total index limit Hwl Hlimit) as (l & st & H & _). eauto.
  - intros limit l st H.
    destruct (drive_keeps index limit _ _ _ _ _ H consistent_initial) as [Hd Ht].
    split; [exact Hd |]. split; [exact Ht |].
    intros w memo seen Hin. rewrite Forall_forall in Ht. exact (Ht _ Hin).
Qed.

Lemma memo_never_hit_witness :
  exists list_contig st,
    simple_path_run 4 merge_index = Ok (list_contig, st)
    /\ length (trace st) = 4%nat
    /\ Forall event_ok (trace st).
Proof.
  destruct (memo_never_hit merge_index) as [Hrun Hinv].
  assert (Hidx : merge_index
                 = predecessors_and_successors (filter_kmers (index_kmers ["CAC"; "GCA"] 2) 1))
    by (vm_compute; reflexivity).
  destruct (Hrun ltac:(rewrite Hidx; apply adjacency_well_linked) 4%nat ltac:(vm_compute; lia))
    as (l & st & H).
  exists l, st. split; [exact H |].
  destruct (Hinv _ _ _ H) as (_ & Ht & _). split; [| exact Ht].
  revert H. vm_compute. intros [= <- <-]. reflexivity.
Defined.

(** * Further properties *)

(** ** [index_kmers]: what is counted *)

Section CountFacts.

Lemma count_of_set (d : Dict.t Z) (k x : string) (v : Z) :
  count_of (Dict.set d k v) x = if decide (x = k) then v else count_of d x.
Proof.
  unfold count_of. destruct (decide (x = k)) as [->|Hne].
  - now rewrite get_set_eq.
  - rewrite get_set_ne by congruence. reflexivity.
Qed.

Lemma count_of_count_kmer sequence k kmers i x :
  count_of (count_kmer sequence k kmers i) x
  = count_of kmers x
    + (if decide (PyStr.slice sequence (Some i) (Some (i + k)) = x) then 1 else 0).
Proof.
  unfold count_kmer. set (kmer := PyStr.slice sequence (Some i) (Some (i + k))).
  destruct (Dict.get kmers kmer) as [n|] eqn:E; rewrite count_of_set;
    destruct (decide (x = kmer)) as [->|Hne].
  - rewrite decide_True by reflexivity. unfold count_of. now rewrite E.
  - rewrite decide_False by congruence. lia.
  - rewrite decide_True by reflexivity. unfold count_of. now rewrite E.
  - rewrite decide_False by congruence. lia.
Qed.

Lemma count_of_fold_count_kmer sequence k l kmers x :
  count_of (fold_left (count_kmer sequence k) l kmers) x
  = count_of kmers x
    + Z.of_nat (length (filter (fun w => w = x)
                          (map (fun i => PyStr.slice sequence (Some i) (Some (i + k))) l))).
Proof.
  revert kmers. induction l as [|i l IH]; intros kmers; simpl; [lia |].
  rewrite IH, count_of_count_kmer, filter_cons.
  destruct (decide (PyStr.slice sequence (Some i) (Some (i + k)) = x)); simpl length; lia.
Qed.

Lemma count_of_index_sequence k kmers sequence x :
  count_of (index_sequence k kmers sequence) x
  = count_of kmers x + Z.of_nat (length (filter (fun w => w = x) (windows k sequence))).
Proof.
  unfold index_sequence, windows. destruct (pattern_match sequence); simpl.
  - apply count_of_fold_count_kmer.
  - cbn. lia.
Qed.

Lemma count_of_index_from k sequences kmers x :
  count_of (fold_left (index_sequence k) sequences kmers) x
  = count_of kmers x + occurrences k sequences x.
Proof.
  unfold occurrences, all_windows.
  revert kmers. induction sequences as [|s l IH]; intros kmers; simpl.
  - cbn. lia.
  - rewrite IH, count_of_index_sequence, filter_app, List.length_app. lia.
Qed.

Lemma count_of_index_kmers sequences k x :
  count_of (index_kmers sequences k) x = occurrences k sequences x.
Proof. unfold index_kmers. rewrite count_of_index_from. reflexivity. Qed.

Lemma occurrences_pos k sequences x :
  0 < occurrences k sequences x <-> x ∈ all_windows k sequences.
Proof.
  unfold occurrences. split.
  - intros H. destruct (filter (fun w => w = x) (all_windows k sequences)) as [|y l] eqn:E;
      [simpl in H; lia |].
    assert (Hy : y ∈ filter (fun w => w = x) (all_windows k sequences))
      by (rewrite E; apply elem_of_cons; now left).
    apply list_elem_of_filter in Hy as [-> Hy]. exact Hy.
  - intros H.
    assert (Hx : x ∈ filter (fun w => w = x) (all_windows k sequences))
      by (apply list_elem_of_filter; split; [reflexivity | exact H]).
    destruct (filter (fun w => w = x) (all_windows k sequences));
      [now apply not_elem_of_nil in Hx | simpl; lia].
Qed.

Lemma total_count_set (d : Dict.t Z) (k : string) (v : Z) :
  total_count (Dict.set d k v) = total_count d - count_of d k + v.
Proof.
  unfold total_count, count_of. induction d as [|[k' v'] d IH]; simpl; [lia |].
  destruct (String.eqb_spec k' k) as [->|Hne]; simpl; lia.
Qed.

Lemma total_count_count_kmer sequence k kmers i :
  total_count (count_kmer sequence k kmers i) = total_count kmers + 1.
Proof.
  unfold count_kmer. set (kmer := PyStr.slice sequence (Some i) (Some (i + k))).
  destruct (Dict.get kmers kmer) as [n|] eqn:E; rewrite total_count_set;
    unfold count_of; rewrite E; lia.
Qed.

Lemma total_count_index_sequence k kmers sequence :
  total_count (index_sequence k kmers sequence)
  = total_count kmers + Z.of_nat (length (windows k sequence)).
Proof.
  unfold index_sequence, windows. destruct (pattern_match sequence); simpl; [| lia].
  rewrite length_map. generalize (PyStr.range (PyStr.len sequence - k + 1)).
  intros l. revert kmers. induction l as [|i l IH]; intros kmers; simpl; [lia |].
  rewrite IH, total_count_count_kmer. lia.
Qed.

Lemma length_windows k sequence :
  pattern_match sequence = true ->
  Z.of_nat (length (windows k sequence)) = Z.max 0 (PyStr.len sequence - k + 1).
Proof.
  intros H. unfold windows, PyStr.range. rewrite H, !length_map, length_seq. lia.
Qed.

Lemma keys_count_kmer_order sequence k kmers i :
  Dict.keys (count_kmer sequence k kmers i)
  = let kmer := PyStr.slice sequence (Some i) (Some (i + k)) in
    if bool_decide (kmer ∈ Dict.keys kmers) then Dict.keys kmers
    else Dict.keys kmers ++ [kmer].
Proof.
  unfold count_kmer. cbv zeta.
  set (kmer := PyStr.slice sequence (Some i) (Some (i + k))).
  destruct (Dict.get kmers kmer) as [n|] eqn:E.
  - rewrite bool_decide_eq_true_2 by (apply get_Some_key; congruence).
    apply keys_set_present. congruence.
  - rewrite bool_decide_eq_false_2 by now apply get_None.
    now apply keys_set_fresh.
Qed.

Lemma keys_index_sequence_order k kmers sequence :
  Dict.keys (index_sequence k kmers sequence)
  = fold_left (fun acc x => if bool_decide (x ∈ acc) then acc else acc ++ [x])
      (windows k sequence) (Dict.keys kmers).
Proof.
  unfold index_sequence, windows. destruct (pattern_match sequence); simpl; [| reflexivity].
  generalize (PyStr.range (PyStr.len sequence - k + 1)).
  intros l. revert kmers. induction l as [|i l IH]; intros kmers; simpl; [reflexivity |].
  rewrite IH, keys_count_kmer_order. reflexivity.
Qed.

End CountFacts.

(** X1. The count stored for a string is the number of windows
    [sequence[i:i+k]], over the accepted sequences and the offsets of the
    loop, that are equal to it; a string that is no window is not a key. *)
Theorem kmer_count_exact sequences k x :
  Dict.get (index_kmers sequences k) x
  = (if decide (occurrences k sequences x = 0) then None
     else Some (occurrences k sequences x))
  /\ (x ∈ Dict.keys (index_kmers sequences k) <-> x ∈ all_windows k sequences).
Proof.
  pose proof (count_of_index_kmers sequences k x) as Hc.
  pose proof (index_kmers_counted sequences k) as [_ Hpos].
  assert (Hget : Dict.get (index_kmers sequences k) x
                 = (if decide (occurrences k sequences x = 0) then None
                    else Some (occurrences k sequences x))).
  { unfold count_of in Hc. destruct (Dict.get (index_kmers sequences k) x) as [n|] eqn:E.
    - apply get_Some_elem, Hpos in E. subst n.
      rewrite decide_False by lia. reflexivity.
    - now rewrite decide_True by congruence. }
  split; [exact Hget |].
  rewrite <- get_Some_key, Hget, <- occurrences_pos.
  assert (0 <= occurrences k sequences x) by (unfold occurrences; lia).
  destruct (decide (occurrences k sequences x = 0)); split; intros; try congruence; lia.
Qed.

(** X2. Counts add up over the concatenation of two read lists. *)
Theorem kmer_count_additive l1 l2 k x :
  count_of (index_kmers (l1 ++ l2) k) x
  = count_of (index_kmers l1 k) x + count_of (index_kmers l2 k) x.
Proof.
  rewrite !count_of_index_kmers. unfold occurrences, all_windows.
  rewrite flat_map_app, filter_app, List.length_app. lia.
Qed.

(** X3. The count of every k-mer is the same whatever the order of the
    reads (only the order of the keys can change). *)
Theorem kmer_count_order_independent l1 l2 k :
  l1 ≡ₚ l2 ->
  forall x, Dict.get (index_kmers l1 k) x = Dict.get (index_kmers l2 k) x.
Proof.
  intros Hp x.
  assert (Ho : occurrences k l1 x = occurrences k l2 x).
  { unfold occurrences, all_windows. f_equal. apply Permutation_length.
    apply filter_Permutation. now apply Permutation_flat_map. }
  pose proof (count_of_index_kmers l1 k x) as H1.
  pose proof (count_of_index_kmers l2 k x) as H2.
  pose proof (index_kmers_counted l1 k) as [_ Hp1].
  pose proof (index_kmers_counted l2 k) as [_ Hp2].
  unfold count_of in H1, H2.
  destruct (Dict.get (index_kmers l1 k) x) as [n1|] eqn:E1;
    destruct (Dict.get (index_kmers l2 k) x) as [n2|] eqn:E2;
    try (apply get_Some_elem, Hp1 in E1); try (apply get_Some_elem, Hp2 in E2);
    try reflexivity; try (f_equal; lia); lia.
Qed.

Lemma kmer_count_order_independent_witness :
  Dict.get (index_kmers ["ACGT"; "CGTA"] 3) "CGT"
  = Dict.get (index_kmers ["CGTA"; "ACGT"] 3) "CGT".
Proof.
  apply kmer_count_order_independent. apply Permutation_swap.
Defined.

(** X4. Every window is counted exactly once: the counts sum to the number
    of windows, an accepted sequence of length [n] having
    [max 0 (n - k + 1)] of them and a rejected one none. *)
Theorem kmer_counts_total sequences k :
  total_count (index_kmers sequences k) = Z.of_nat (length (all_windows k sequences))
  /\ Forall (fun s => Z.of_nat (length (windows k s))
                      = if pattern_match s then Z.max 0 (PyStr.len s - k + 1) else 0)
            sequences.
Proof.
  split.
  - unfold index_kmers, all_windows.
    assert (H : forall d, total_count (fold_left (index_sequence k) sequences d)
                          = total_count d
                            + Z.of_nat (length (flat_map (windows k) sequences))).
    { induction sequences as [|s l IH]; intros d; simpl; [lia |].
      rewrite IH, total_count_index_sequence, List.length_app. lia. }
    rewrite H. reflexivity.
  - apply Forall_forall. intros s _.
    destruct (pattern_match s) eqn:E; [now apply length_windows |].
    unfold windows. now rewrite E.
Qed.

Lemma filter_everything {A} (P : A -> Prop) `{forall x, Decision (P x)} (l : list A) :
  (forall x, x ∈ l -> P x) -> filter P l = l.
Proof.
  induction l as [|x l IH]; intros Hall; [reflexivity |].
  rewrite filter_cons_True by (apply Hall, elem_of_cons; now left).
  f_equal. apply IH. intros y Hy. apply Hall, elem_of_cons. now right.
Qed.

Lemma fold_first_occurrences (l acc : list string) :
  fold_left (fun acc x => if bool_decide (x ∈ acc) then acc else acc ++ [x]) l acc
  = acc ++ filter (fun y => y ∉ acc) (first_occurrences l).
Proof.
  revert acc. induction l as [|x l IH]; intros acc; simpl.
  - now rewrite app_nil_r.
  - rewrite IH. destruct (bool_decide_reflect (x ∈ acc)) as [Hin|Hnin].
    + rewrite filter_cons_False by tauto. f_equal.
      rewrite list_filter_filter. apply list_filter_iff.
      intros y. split; [| tauto]. intros Hy. split; [exact Hy | congruence].
    + rewrite filter_cons_True by assumption.
      rewrite <- app_assoc. simpl. do 2 f_equal.
      rewrite list_filter_filter. apply list_filter_iff.
      intros y. rewrite elem_of_app, list_elem_of_singleton. tauto.
Qed.

(** X5. The keys come in the order in which the k-mers are first met:
    reads in list order, offsets from left to right. *)
Theorem kmer_key_order sequences k :
  Dict.keys (index_kmers sequences k) = first_occurrences (all_windows k sequences).
Proof.
  assert (H : forall d,
             Dict.keys (fold_left (index_sequence k) sequences d)
             = fold_left (fun acc x => if bool_decide (x ∈ acc) then acc else acc ++ [x])
                 (all_windows k sequences) (Dict.keys d)).
  { unfold all_windows. induction sequences as [|s l IH]; intros d; simpl; [reflexivity |].
    rewrite IH, keys_index_sequence_order, fold_left_app. reflexivity. }
  unfold index_kmers. rewrite H, fold_first_occurrences. simpl.
  apply filter_everything. intros y _. apply not_elem_of_nil.
Qed.

(** X6. A sequence shorter than [k] contributes nothing. *)
Theorem short_sequence_ignored l1 sequence l2 k :
  PyStr.len sequence < k ->
  index_kmers (l1 ++ sequence :: l2) k = index_kmers (l1 ++ l2) k.
Proof.
  intros H. rewrite !index_kmers_app. simpl. f_equal.
  unfold index_sequence. destruct (negb (pattern_match sequence)); [reflexivity |].
  unfold PyStr.range. replace (Z.to_nat (PyStr.len sequence - k + 1)) with 0%nat by lia.
  reflexivity.
Qed.

Lemma short_sequence_ignored_witness :
  index_kmers ["ACGT"; "AC"; "CGTA"] 3 = index_kmers ["ACGT"; "CGTA"] 3.
Proof.
  apply (short_sequence_ignored ["ACGT"] "AC" ["CGTA"] 3). vm_compute. reflexivity.
Defined.

(** X7. A sequence that is empty, or that holds anywhere a character that
    is neither a nucleotide nor a newline, is left out whole: the mapping is
    the one the other sequences give. *)
Theorem foreign_sequence_ignored l1 sequence l2 k :
  (sequence = EmptyString
   \/ exists a c b, sequence = a +:+ String c b /\ is_nucleotide c = false /\ c <> newline) ->
  index_kmers (l1 ++ sequence :: l2) k = index_kmers (l1 ++ l2) k.
Proof.
  intros H. apply index_kmers_rejected.
  destruct H as [->|(a & c & b & -> & Hc & Hnl)]; [reflexivity |].
  now apply pattern_match_foreign.
Qed.

Lemma foreign_sequence_ignored_witness :
  index_kmers ["ACGT"; "ACNGT"; "CGTA"] 3 = index_kmers ["ACGT"; "CGTA"] 3.
Proof.
  apply (foreign_sequence_ignored ["ACGT"] "ACNGT" ["CGTA"] 3).
  right. exists "AC", "N"%char, "GT". split; [reflexivity |]. split; [reflexivity |].
  discriminate.
Defined.


(** ** [filter_kmers]: what is kept *)

Section KeepFacts.

Lemma get_filter (p : string * Z -> bool) (d : Dict.t Z) (x : string) :
  NoDup (Dict.keys d) ->
  Dict.get (List.filter p d) x
  = match Dict.get d x with
    | Some n => if p (x, n) then Some n else None
    | None => None
    end.
Proof.
  induction d as [|[k v] d IH]; intros Hnd; simpl; [reflexivity |].
  simpl in Hnd. apply NoDup_cons in Hnd as [Hk Hnd].
  destruct (String.eqb_spec k x) as [->|Hne].
  - destruct (p (x, v)) eqn:Hp; simpl.
    + now rewrite String.eqb_refl.
    + rewrite IH by assumption.
      apply get_None in Hk. now rewrite Hk.
  - destruct (p (k, v)); simpl; [| now apply IH].
    destruct (String.eqb_spec k x); [contradiction | now apply IH].
Qed.

Lemma filter_twice {A} (p q : A -> bool) (l : list A) :
  List.filter q (List.filter p l) = List.filter (fun x => p x && q x)%bool l.
Proof.
  induction l as [|x l IH]; simpl; [reflexivity |].
  destruct (p x); simpl; [destruct (q x); now rewrite IH | exact IH].
Qed.

Lemma filter_same {A} (p q : A -> bool) (l : list A) :
  (forall x, p x = q x) -> List.filter p l = List.filter q l.
Proof.
  intros H. induction l as [|x l IH]; simpl; [reflexivity |].
  rewrite H, IH. reflexivity.
Qed.

Lemma filter_none {A} (p : A -> bool) (l : list A) :
  (forall x, x ∈ l -> p x = false) -> List.filter p l = [].
Proof.
  induction l as [|x l IH]; intros H; simpl; [reflexivity |].
  rewrite (H x) by (apply elem_of_cons; now left).
  apply IH. intros y Hy. apply H, elem_of_cons. now right.
Qed.

End KeepFacts.

(** X8. On a mapping with unique keys, [filter_kmers] returns the items
    whose count is at least the threshold, in the order of the input; a
    lookup in the result finds the input's count when it reaches the
    threshold and nothing otherwise. *)
Theorem filter_kmers_exact (kmers : Dict.t Z) (threshold : Z) :
  NoDup (Dict.keys kmers) ->
  filter_kmers kmers threshold = List.filter (fun kv => snd kv >=? threshold) kmers
  /\ forall x,
       Dict.get (filter_kmers kmers threshold) x
       = match Dict.get kmers x with
         | Some n => if n >=? threshold then Some n else None
         | None => None
         end.
Proof.
  intros Hnd. rewrite filter_kmers_filter by assumption.
  split; [reflexivity |]. intros x.
  exact (get_filter (keep threshold) kmers x Hnd).
Qed.

Lemma filter_kmers_exact_witness :
  Dict.get (filter_kmers (index_kmers ["ACGTACGTA"] 3) 2) "TAC" = None
  /\ Dict.get (filter_kmers (index_kmers ["ACGTACGTA"] 3) 2) "CGT" = Some 2.
Proof.
  destruct (filter_kmers_exact (index_kmers ["ACGTACGTA"] 3) 2) as [_ H].
  - apply index_kmers_counted.
  - split; rewrite H; reflexivity.
Defined.

(** X9. Filtering twice is filtering once with the larger threshold. *)
Theorem filter_kmers_twice (kmers : Dict.t Z) (t1 t2 : Z) :
  NoDup (Dict.keys kmers) ->
  filter_kmers (filter_kmers kmers t1) t2 = filter_kmers kmers (Z.max t1 t2).
Proof.
  intros Hnd.
  pose proof (filter_kmers_keys kmers t1 Hnd) as [Hnd1 _].
  rewrite (filter_kmers_filter (filter_kmers kmers t1)) by assumption.
  rewrite !filter_kmers_filter by assumption.
  rewrite filter_twice. apply filter_same.
  intros [x n]. unfold keep. simpl.
  destruct (Z.geb_spec n t1), (Z.geb_spec n t2), (Z.geb_spec n (Z.max t1 t2));
    simpl; try reflexivity; lia.
Qed.

Lemma filter_kmers_twice_witness :
  filter_kmers (filter_kmers (index_kmers ["ACGTACGTA"] 3) 1) 2
  = filter_kmers (index_kmers ["ACGTACGTA"] 3) (Z.max 1 2).
Proof. apply filter_kmers_twice. apply index_kmers_counted. Defined.

(** X10. With a threshold above every count nothing survives the filter,
    the adjacency mapping is empty and the assembler returns no contig,
    without a call of [build_contig]. *)
Theorem threshold_above_counts limit sequences k threshold :
  (forall kmer n, (kmer, n) ∈ index_kmers sequences k -> n < threshold) ->
  filter_kmers (index_kmers sequences k) threshold = []
  /\ predecessors_and_successors (filter_kmers (index_kmers sequences k) threshold) = []
  /\ pipeline limit sequences k threshold = Ok [].
Proof.
  intros Hall.
  assert (Hf : filter_kmers (index_kmers sequences k) threshold = []).
  { rewrite filter_kmers_filter by apply index_kmers_counted.
    apply filter_none. intros [kmer n] Hin. unfold keep. simpl.
    apply Hall in Hin. destruct (Z.geb_spec n threshold); [lia | reflexivity]. }
  unfold pipeline. rewrite Hf. repeat split.
Qed.

Lemma threshold_above_counts_witness : pipeline 0 ["ACGTACGTA"] 3 3 = Ok [].
Proof.
  apply threshold_above_counts.
  assert (E : index_kmers ["ACGTACGTA"] 3 = [("ACG", 2); ("CGT", 2); ("GTA", 2); ("TAC", 1)])
    by reflexivity.
  intros kmer n Hin. rewrite E in Hin.
  repeat (apply elem_of_cons in Hin as [[= _ ->]|Hin]; [lia |]).
  now apply not_elem_of_nil in Hin.
Defined.


(** ** [predecessors_and_successors]: shape of the graph *)

Section GraphFacts.
Context {V : Type}.
Implicit Types (filtered_kmers : Dict.t V).

Lemma elem_of_successors filtered_kmers w s :
  s ∈ successors_of filtered_kmers w
  <-> s ∈ Dict.keys filtered_kmers /\ s ∈ map (fun b => PyStr.drop 1 w +:+ b) bases.
Proof.
  unfold successors_of. rewrite elem_of_keep_present, slice_tail. tauto.
Qed.

Lemma elem_of_predecessors filtered_kmers w p :
  p ∈ predecessors_of filtered_kmers w
  <-> p ∈ Dict.keys filtered_kmers
      /\ p ∈ map (fun b => b +:+ PyStr.take (String.length w - 1) w) bases.
Proof.
  unfold predecessors_of. rewrite elem_of_keep_present, slice_init. tauto.
Qed.

Lemma length_candidate (x y : string) :
  (x ∈ map (fun b => y +:+ b) bases \/ x ∈ map (fun b => b +:+ y) bases) ->
  String.length x = S (String.length y).
Proof.
  intros [H|H]; apply list_elem_of_fmap in H as (b & -> & Hb);
    destruct (base_nucleotides b Hb) as [_ Hl]; rewrite length_app; lia.
Qed.

Lemma adjacency_entry filtered_kmers w e :
  Dict.get (predecessors_and_successors filtered_kmers) w = Some e ->
  w ∈ Dict.keys filtered_kmers /\ e = entry_of filtered_kmers w.
Proof.
  rewrite adjacency_get. destruct (decide (w ∈ Dict.keys filtered_kmers)); [| discriminate].
  intros [= <-]. split; [assumption | reflexivity].
Qed.

Lemma append_base_inj (y : string) : Inj eq eq (fun b : string => y +:+ b).
Proof.
  intros a b H. induction y as [|c y IH]; [exact H |].
  rewrite !app_cons in H. injection H as H. auto.
Qed.

Lemma prepend_base_inj (y : string) (a b : string) :
  a ∈ bases -> b ∈ bases -> a +:+ y = b +:+ y -> a = b.
Proof.
  intros Ha Hb H. apply base_is_char in Ha as [c ->]. apply base_is_char in Hb as [d ->].
  injection H as ->. reflexivity.
Qed.

Lemma NoDup_bases : NoDup bases.
Proof.
  unfold bases. repeat (apply NoDup_cons; split; [| ]); try apply NoDup_nil_2;
    rewrite ?not_elem_of_cons; repeat split; try discriminate; apply not_elem_of_nil.
Qed.

Lemma NoDup_list_filter {A} (p : A -> bool) (l : list A) : NoDup l -> NoDup (List.filter p l).
Proof.
  induction l as [|x l IH]; intros H; simpl; [constructor |].
  apply NoDup_cons in H as [Hx H]. destruct (p x); [| auto].
  apply NoDup_cons. split; [| auto].
  intros Hin. apply Hx. apply list_elem_of_In, filter_In in Hin as [Hin _].
  now apply list_elem_of_In.
Qed.

Lemma length_list_filter {A} (p : A -> bool) (l : list A) :
  (length (List.filter p l) <= length l)%nat.
Proof. induction l as [|x l IH]; simpl; [lia |]. destruct (p x); simpl; lia. Qed.

End GraphFacts.

(** X11. The two adjacency lists describe the same edges: for keys [w] and
    [s] that are non-empty strings over {A, C, G, T}, [s] is listed as a
    successor of [w] exactly when [w] is listed as a predecessor of [s]. *)
Theorem edges_are_symmetric {V} (filtered_kmers : Dict.t V) (w s : string) (ew es : Entry) :
  Dict.get (predecessors_and_successors filtered_kmers) w = Some ew ->
  Dict.get (predecessors_and_successors filtered_kmers) s = Some es ->
  w <> EmptyString -> s <> EmptyString ->
  nucleotides w = true -> nucleotides s = true ->
  (s ∈ successors ew <-> w ∈ predecessors es).
Proof.
  intros Hw Hs Hwne Hsne Hnw Hns.
  apply adjacency_entry in Hw as [Hwk ->]. apply adjacency_entry in Hs as [Hsk ->].
  simpl. rewrite elem_of_successors, elem_of_predecessors.
  assert (Hlw : (0 < String.length w)%nat) by (destruct w; [congruence | simpl; lia]).
  assert (Hls : (0 < String.length s)%nat) by (destruct s; [congruence | simpl; lia]).
  destruct (decide (String.length s = String.length w)) as [Heq|Hne].
  - rewrite (successor_candidate (PyStr.drop 1 w) s Hns)
      by (rewrite length_drop; lia).
    rewrite (predecessor_candidate (PyStr.take (String.length s - 1) s) w Hnw)
      by (rewrite length_take; lia).
    split; intros [_ H]; (split; [assumption | congruence]).
  - split; intros [_ H]; exfalso; apply Hne.
    + pose proof (length_candidate s (PyStr.drop 1 w) (or_introl H)) as Hl.
      rewrite length_drop in Hl. lia.
    + pose proof (length_candidate w (PyStr.take (String.length s - 1) s) (or_intror H)) as Hl.
      rewrite length_take in Hl. lia.
Qed.

Lemma edges_are_symmetric_witness :
  "CA" ∈ ["CA"] <-> "GC" ∈ ["AC"; "GC"].
Proof.
  apply (edges_are_symmetric (filter_kmers (index_kmers ["CAC"; "GCA"] 2) 1) "GC" "CA"
           {| successors := ["CA"]; predecessors := [] |}
           {| successors := ["AC"]; predecessors := ["AC"; "GC"] |});
    try reflexivity; discriminate.
Defined.

(** X12. Each adjacency list has at most four entries and no entry twice. *)
Theorem adjacency_lists_small {V} (filtered_kmers : Dict.t V) (w : string) (e : Entry) :
  Dict.get (predecessors_and_successors filtered_kmers) w = Some e ->
  (length (successors e) <= 4)%nat /\ (length (predecessors e) <= 4)%nat
  /\ NoDup (successors e) /\ NoDup (predecessors e).
Proof.
  intros He. apply adjacency_entry in He as [_ ->]. simpl.
  unfold successors_of, predecessors_of. rewrite !keep_present_filter.
  split; [| split; [| split]].
  - etransitivity; [apply length_list_filter |]. now rewrite length_map.
  - etransitivity; [apply length_list_filter |]. now rewrite length_map.
  - apply NoDup_list_filter. apply NoDup_fmap_2_strong; [| apply NoDup_bases].
    intros a b _ _. apply append_base_inj.
  - apply NoDup_list_filter. apply NoDup_fmap_2_strong; [| apply NoDup_bases].
    intros a b Ha Hb. now apply prepend_base_inj.
Qed.

Lemma adjacency_lists_small_witness :
  exists e, Dict.get fork_index "AAC" = Some e /\ (length (successors e) <= 4)%nat.
Proof.
  assert (Hidx : fork_index
                 = predecessors_and_successors
                     (filter_kmers (index_kmers ["AACGT"; "AACTT"] 3) 1))
    by (vm_compute; reflexivity).
  eexists. split; [reflexivity |].
  eapply (adjacency_lists_small (filter_kmers (index_kmers ["AACGT"; "AACTT"] 3) 1) "AAC").
  rewrite <- Hidx. reflexivity.
Defined.

(** X13. Only the keys of the filtered mapping matter: two mappings with
    the same keys in the same order, whatever their values, give the same
    adjacency mapping. *)
Theorem adjacency_depends_on_keys {V1 V2} (f1 : Dict.t V1) (f2 : Dict.t V2) :
  Dict.keys f1 = Dict.keys f2 ->
  predecessors_and_successors f1 = predecessors_and_successors f2.
Proof.
  intros Hk.
  assert (Hmem : forall x, Dict.mem f1 x = Dict.mem f2 x).
  { intros x. destruct (Dict.mem f1 x) eqn:E1, (Dict.mem f2 x) eqn:E2; try reflexivity.
    - apply mem_true in E1. rewrite Hk in E1. apply mem_true in E1. congruence.
    - apply mem_true in E2. rewrite <- Hk in E2. apply mem_true in E2. congruence. }
  assert (Hkeep : forall l, keep_present f1 l = keep_present f2 l).
  { intros l. rewrite !keep_present_filter. now apply filter_same. }
  unfold predecessors_and_successors, successors_of, predecessors_of.
  rewrite Hk. clear Hk. generalize (@nil (string * Entry)).
  induction (Dict.keys f2) as [|w ws IH]; intros acc; simpl; [reflexivity |].
  rewrite !Hkeep. apply IH.
Qed.

Lemma adjacency_depends_on_keys_witness :
  predecessors_and_successors [("ACG", 7); ("CGT", 9)]
  = predecessors_and_successors [("ACG", true); ("CGT", false)].
Proof. apply adjacency_depends_on_keys. reflexivity. Defined.

(** X14. The graph is closed: every string listed as a successor or a
    predecessor is non-empty and is itself a key of the adjacency mapping
    (and of the filtered mapping), and when [w] is not empty it has as many
    characters as [w]. *)
Theorem adjacency_closed {V} (filtered_kmers : Dict.t V) (w : string) (e : Entry) :
  Dict.get (predecessors_and_successors filtered_kmers) w = Some e ->
  Forall (fun s => s <> EmptyString
                   /\ s ∈ Dict.keys filtered_kmers
                   /\ Dict.get (predecessors_and_successors filtered_kmers) s <> None
                   /\ (w <> EmptyString -> String.length s = String.length w))
         (successors e ++ predecessors e).
Proof.
  intros He. pose proof (adjacency_well_linked filtered_kmers w e He) as Hwl.
  apply adjacency_entry in He as [_ ->]. simpl in *.
  rewrite Forall_forall in Hwl. apply Forall_forall. intros s Hs.
  destruct (Hwl s Hs) as [Hne Hkey]. split; [exact Hne |]. split; [| split; [exact Hkey |]].
  - rewrite adjacency_get in Hkey.
    destruct (decide (s ∈ Dict.keys filtered_kmers)); [assumption | congruence].
  - intros Hw.
    assert (Hlw : (0 < String.length w)%nat) by (destruct w; [congruence | simpl; lia]).
    apply elem_of_app in Hs as [Hs|Hs].
    + apply elem_of_successors in Hs as [_ Hs].
      pose proof (length_candidate s _ (or_introl Hs)) as Hl.
      rewrite length_drop in Hl. lia.
    + apply elem_of_predecessors in Hs as [_ Hs].
      pose proof (length_candidate s _ (or_intror Hs)) as Hl.
      rewrite length_take in Hl. lia.
Qed.

Lemma adjacency_closed_witness :
  Forall (fun s => s <> EmptyString /\ Dict.get merge_index s <> None) ["AC"; "AC"; "GC"].
Proof.
  assert (Hidx : merge_index
                 = predecessors_and_successors (filter_kmers (index_kmers ["CAC"; "GCA"] 2) 1))
    by (vm_compute; reflexivity).
  pose proof (adjacency_closed (filter_kmers (index_kmers ["CAC"; "GCA"] 2) 1) "CA"
                {| successors := ["AC"]; predecessors := ["AC"; "GC"] |}) as H.
  rewrite <- Hidx in H. specialize (H eq_refl). simpl in H.
  eapply Forall_impl; [exact H |]. simpl. tauto.
Defined.


(** ** [simple_path]: the contig list *)

Section ContigFacts.
Variable index : Dict.t Entry.

Lemma drive_appends limit ws list_contig st list_contig' st' :
  drive limit index ws list_contig st = Ok (list_contig', st') ->
  exists new, list_contig' = list_contig ++ new /\ (length new <= length ws)%nat.
Proof.
  revert list_contig st. induction ws as [|w ws IH]; intros acc st H; simpl in H.
  - injection H as <- <-. exists []. split; [now rewrite app_nil_r | simpl; lia].
  - destruct (decide (w ∈ visited st)).
    + destruct (IH _ _ H) as (new & -> & Hl). exists new. split; [reflexivity | simpl; lia].
    + bind_split H as [contig st1] E.
      destruct (IH _ _ H) as (new & -> & Hl). exists (contig :: new).
      split; [now rewrite <- app_assoc | simpl; lia].
Qed.

Lemma length_subscript (c : option ascii) (s : string) :
  subscript c = Ok s -> String.length s = 1%nat.
Proof. destruct c; simpl; [intros [= <-]; reflexivity | discriminate]. Qed.

Lemma forward_loop_grows fuel contig successor st contig' successor' st' :
  forward_loop fuel index contig successor st = Ok (contig', successor', st') ->
  (strlen contig <= strlen contig')%nat.
Proof.
  revert contig successor st.
  induction fuel as [|fuel IH]; intros contig successor st H;
    destruct successor as [|s0 [|s1 rest]]; simpl in H;
    try (injection H as <- <- <-; lia);
    (destruct (decide (s0 ∈ visited st)); [injection H as <- <- <-; lia |]);
    [discriminate |].
  bind_split H as c E. bind_split H as e E0. apply IH in H.
  unfold strlen in *. rewrite length_app in H. lia.
Qed.

Lemma backward_loop_grows fuel contig pre st contig' pre' st' :
  backward_loop fuel index contig pre st = Ok (contig', pre', st') ->
  (strlen contig <= strlen contig')%nat.
Proof.
  revert contig pre st.
  induction fuel as [|fuel IH]; intros contig pre st H;
    destruct pre as [|p0 [|p1 rest]]; simpl in H;
    try (injection H as <- <- <-; lia);
    (destruct (decide (p0 ∈ visited st)); [injection H as <- <- <-; lia |]);
    [discriminate |].
  bind_split H as c E. bind_split H as e E0. apply IH in H.
  unfold strlen in *. rewrite length_app in H. lia.
Qed.

Lemma longer_grows (new_contig best_contig : string) :
  (strlen best_contig <= strlen (longer new_contig best_contig))%nat.
Proof.
  unfold longer. destruct (Nat.ltb_spec (strlen best_contig) (strlen new_contig)); lia.
Qed.

Lemma forward_branches_grows build successor best st best' st' :
  forward_branches build successor best st = Ok (best', st') ->
  (strlen best <= strlen best')%nat.
Proof.
  revert best st. induction successor as [|s rest IH]; intros best st H; simpl in H.
  - injection H as <- <-. lia.
  - destruct (decide (s ∈ visited st)); [eauto |].
    bind_split H as [c st1] E. apply IH in H.
    pose proof (longer_grows c best). lia.
Qed.

Lemma backward_branches_grows build contig pre best st best' st' :
  backward_branches build contig pre best st = Ok (best', st') ->
  (strlen best <= strlen best')%nat.
Proof.
  revert best st. induction pre as [|p rest IH]; intros best st H; simpl in H.
  - injection H as <- <-. lia.
  - destruct (decide (p ∈ visited st)); [eauto |].
    bind_split H as [c st1] E. apply IH in H.
    pose proof (longer_grows (c +:+ contig) best). lia.
Qed.

(** A call that does not return through the memo yields a contig at least
    as long as the k-mer it started from, and stores it under that k-mer. *)
Lemma build_contig_result limit w st c st' :
  build_contig limit index w st = Ok (c, st') ->
  contig_dict st !! w = None ->
  (strlen w <= strlen c)%nat /\ contig_dict st' !! w = Some c.
Proof.
  destruct limit as [|limit]; [discriminate |].
  intros H Hmiss. rewrite build_contig_S in H. cbv zeta in H.
  change (contig_dict (record_call w st)) with (contig_dict st) in H.
  rewrite Hmiss in H.
  bind_split H as e E. bind_split H as [[contig1 successor1] st1] E0.
  bind_split H as [contig2 st2] E1.
  bind_split H as e' E2. bind_split H as [[contig3 pre3] st3] E3.
  bind_split H as [contig4 st4] E4.
  injection H as <- <-.
  apply forward_loop_grows in E0. apply backward_loop_grows in E3.
  assert (H2 : (strlen contig1 <= strlen contig2)%nat).
  { unfold forward_resolution in E1. destruct (1 <? length successor1)%nat.
    - now apply forward_branches_grows in E1.
    - injection E1 as <- <-. lia. }
  assert (H4 : (strlen contig3 <= strlen contig4)%nat).
  { unfold backward_resolution in E4. destruct (1 <? length pre3)%nat.
    - now apply backward_branches_grows in E4.
    - injection E4 as <- <-. lia. }
  split; [lia |]. simpl. apply lookup_insert_eq.
Qed.

Lemma drive_contigs limit ws list_contig st list_contig' st' :
  drive limit index ws list_contig st = Ok (list_contig', st') ->
  consistent st ->
  exists new,
    list_contig' = list_contig ++ new
    /\ Forall (fun c => exists w, w ∈ ws /\ (strlen w <= strlen c)%nat) new
    /\ Forall (fun w => w ∈ visited st') ws
    /\ visited st ⊆ visited st'.
Proof.
  revert list_contig st. induction ws as [|w ws IH]; intros acc st H Hc; simpl in H.
  - injection H as <- <-. exists []. rewrite app_nil_r.
    split; [reflexivity |]. split; [constructor |]. split; [constructor | reflexivity].
  - destruct (decide (w ∈ visited st)) as [Hv|Hv].
    + destruct (IH _ _ H Hc) as (new & -> & Hnew & Hvis & Hsub).
      exists new. split; [reflexivity |]. split; [| split; [| exact Hsub]].
      * eapply Forall_impl; [exact Hnew |]. intros c (x & Hx & Hl).
        exists x. split; [apply elem_of_cons; now right | exact Hl].
      * constructor; [set_solver | exact Hvis].
    + bind_split H as [contig st1] E.
      destruct (build_contig_keeps index limit _ _ _ _ E Hv Hc) as [Hv1 Hc1].
      destruct (build_contig_result _ _ _ _ _ E (memo_miss w st Hv Hc)) as [Hlen Hmemo].
      destruct (IH _ _ H Hc1) as (new & -> & Hnew & Hvis & Hsub).
      exists (contig :: new). split; [now rewrite <- app_assoc |].
      split; [| split; [| set_solver]].
      * constructor.
        -- exists w. split; [apply elem_of_cons; now left | exact Hlen].
        -- eapply Forall_impl; [exact Hnew |]. intros c (x & Hx & Hl).
           exists x. split; [apply elem_of_cons; now right | exact Hl].
      * constructor; [| exact Hvis].
        destruct Hc1 as [Hd _]. apply Hsub, Hd, elem_of_dom. eauto.
Qed.

End ContigFacts.

(** X15. The assembler returns at most one contig per node, and returns no
    contig only for the empty graph. *)
Theorem contig_count (limit : nat) (index : Dict.t Entry) (list_contig : list string) :
  simple_path limit index = Ok list_contig ->
  (length list_contig <= length index)%nat /\ (list_contig = [] <-> index = []).
Proof.
  unfold simple_path, simple_path_run. intros H.
  bind_split H as [l st] E. injection H as <-.
  pose proof (drive_appends index _ _ _ _ _ _ E) as (new & -> & Hlen).
  unfold Dict.keys in Hlen. rewrite length_map in Hlen. simpl.
  split; [exact Hlen |]. split.
  - intros ->. destruct index as [|[w e] rest]; [reflexivity |].
    exfalso. simpl in E.
    destruct (decide (w ∈ visited initial_state)) as [Hv|Hv];
      [simpl in Hv; set_solver |].
    bind_split E as [contig st1] E1.
    apply drive_appends in E as (new & Hnew & _). destruct new; discriminate.
  - intros ->. simpl in E. now injection E as <- _.
Qed.

Lemma contig_count_witness :
  (length ["GCCAC"] <= length merge_index)%nat /\ (["GCCAC"] = [] <-> merge_index = []).
Proof. apply (contig_count 3). vm_compute. reflexivity. Defined.

(** X16. For a positive [k], no contig of the pipeline is shorter than
    [k]. *)
Theorem contigs_at_least_k limit sequences k threshold list_contig :
  0 < k ->
  pipeline limit sequences k threshold = Ok list_contig ->
  Forall (fun contig => k <= PyStr.len contig) list_contig.
Proof.
  intros Hk H. unfold pipeline, simple_path, simple_path_run in H.
  bind_split H as [l st] E. injection H as <-.
  destruct (drive_contigs _ _ _ _ _ _ _ E consistent_initial) as (new & -> & Hnew & _).
  simpl. eapply Forall_impl; [exact Hnew |]. intros c (w & Hw & Hl).
  pose proof (index_kmers_counted sequences k) as [Hnd _].
  pose proof (filter_kmers_keys _ threshold Hnd) as [Hnd' Hsub].
  rewrite adjacency_keys in Hw by assumption.
  apply Hsub in Hw. pose proof (index_kmers_key_length sequences k Hk) as Hlen.
  rewrite Forall_forall in Hlen. apply Hlen in Hw.
  unfold PyStr.len, strlen in *. lia.
Qed.

Lemma contigs_at_least_k_witness :
  Forall (fun contig => 3 <= PyStr.len contig) ["ACGT"].
Proof.
  apply (contigs_at_least_k 3 ["AACGT"; "AACTT"] 3 1); [lia | vm_compute; reflexivity].
Defined.


(** ** [simple_path]: what is visited *)

Section WithinFacts.
Variable index : Dict.t Entry.
Hypothesis Hwl : well_linked index.

Lemma key_is_node (w : string) : Dict.get index w <> None -> w ∈ nodes index.
Proof. intros H. unfold nodes. apply elem_of_list_to_set. now apply get_Some_key. Qed.

Lemma forward_loop_within fuel contig successor st contig' successor' st' :
  linked index successor -> visited st ⊆ nodes index ->
  forward_loop fuel index contig successor st = Ok (contig', successor', st') ->
  visited st' ⊆ nodes index.
Proof.
  revert contig successor st.
  induction fuel as [|fuel IH]; intros contig successor st Hl Hv H;
    destruct successor as [|s0 [|s1 rest]]; simpl in H;
    try (injection H as <- <- <-; assumption);
    (destruct (decide (s0 ∈ visited st)); [injection H as <- <- <-; assumption |]);
    [discriminate |].
  bind_split H as c E. bind_split H as e E0. apply lookup_entry_Ok in E0.
  apply Forall_cons in Hl as [[_ Hkey] _]. apply key_is_node in Hkey.
  apply IH in H; [assumption | now apply (linked_entry index s0) |].
  simpl. set_solver.
Qed.

Lemma backward_loop_within fuel contig pre st contig' pre' st' :
  linked index pre -> visited st ⊆ nodes index ->
  backward_loop fuel index contig pre st = Ok (contig', pre', st') ->
  visited st' ⊆ nodes index.
Proof.
  revert contig pre st.
  induction fuel as [|fuel IH]; intros contig pre st Hl Hv H;
    destruct pre as [|p0 [|p1 rest]]; simpl in H;
    try (injection H as <- <- <-; assumption);
    (destruct (decide (p0 ∈ visited st)); [injection H as <- <- <-; assumption |]);
    [discriminate |].
  bind_split H as c E. bind_split H as e E0. apply lookup_entry_Ok in E0.
  apply Forall_cons in Hl as [[_ Hkey] _]. apply key_is_node in Hkey.
  apply IH in H; [assumption | now apply (linked_entry index p0) |].
  simpl. set_solver.
Qed.

Section Branches.
Variable build : string -> State -> Result (string * State).
Hypothesis Hkeeps : keeps_consistent build.
Hypothesis Hwithin :
  forall s st c st',
    build s st = Ok (c, st') -> Dict.get index s <> None -> s ∉ visited st ->
    consistent st -> visited st ⊆ nodes index -> visited st' ⊆ nodes index.

Lemma forward_branches_within successor best st best' st' :
  linked index successor -> consistent st -> visited st ⊆ nodes index ->
  forward_branches build successor best st = Ok (best', st') ->
  visited st' ⊆ nodes index.
Proof.
  revert best st. induction successor as [|s rest IH]; intros best st Hl Hc Hv H; simpl in H.
  - now injection H as <- <-.
  - apply Forall_cons in Hl as [[_ Hkey] Hl].
    destruct (decide (s ∈ visited st)) as [Hs|Hs]; [eauto |].
    bind_split H as [c st1] E.
    destruct (Hkeeps _ _ _ _ E Hs Hc) as [_ Hc1].
    pose proof (Hwithin _ _ _ _ E Hkey Hs Hc Hv). eauto.
Qed.

Lemma backward_branches_within contig pre best st best' st' :
  linked index pre -> consistent st -> visited st ⊆ nodes index ->
  backward_branches build contig pre best st = Ok (best', st') ->
  visited st' ⊆ nodes index.
Proof.
  revert best st. induction pre as [|p rest IH]; intros best st Hl Hc Hv H; simpl in H.
  - now injection H as <- <-.
  - apply Forall_cons in Hl as [[_ Hkey] Hl].
    destruct (decide (p ∈ visited st)) as [Hs|Hs]; [eauto |].
    bind_split H as [c st1] E.
    destruct (Hkeeps _ _ _ _ E Hs Hc) as [_ Hc1].
    pose proof (Hwithin _ _ _ _ E Hkey Hs Hc Hv). eauto.
Qed.

End Branches.

Lemma build_contig_within limit w st c st' :
  build_contig limit index w st = Ok (c, st') ->
  Dict.get index w <> None -> w ∉ visited st ->
  consistent st -> visited st ⊆ nodes index -> visited st' ⊆ nodes index.
Proof.
  revert w st c st'. induction limit as [|limit IH]; intros w st c st' H Hkey Hw Hc Hv;
    [discriminate |].
  rewrite build_contig_S in H. cbv zeta in H.
  change (contig_dict (record_call w st)) with (contig_dict st) in H.
  rewrite (memo_miss w st Hw Hc) in H.
  bind_split H as e E. bind_split H as [[contig1 successor1] st1] E0.
  bind_split H as [contig2 st2] E1.
  bind_split H as e' E2. bind_split H as [[contig3 pre3] st3] E3.
  bind_split H as [contig4 st4] E4.
  injection H as <- <-.
  rewrite E in E2. injection E2 as <-. apply lookup_entry_Ok in E.
  destruct (linked_entry index w e Hwl E) as [Hls Hlp].
  pose proof (consistent_call w st Hw Hc) as Hc0.
  assert (Hv0 : visited (visit w (record_call w st)) ⊆ nodes index)
    by (pose proof (key_is_node w Hkey); simpl; set_solver).
  pose proof (forward_loop_within _ _ _ _ _ _ _ Hls Hv0 E0) as Hv1.
  pose proof (forward_loop_linked _ _ _ _ _ _ _ _ Hwl Hls E0) as Hl1.
  apply forward_loop_state in E0 as (Hs1 & Hd1 & Ht1).
  pose proof (consistent_grow _ _ Hd1 Ht1 Hs1 Hc0) as Hc1.
  destruct (forward_resolution_keeps _ _ _ _ _ _ (build_contig_keeps index limit) E1 Hc1)
    as [_ Hc2].
  assert (Hv2 : visited st2 ⊆ nodes index).
  { unfold forward_resolution in E1. destruct (1 <? length successor1)%nat.
    - exact (forward_branches_within _ (build_contig_keeps index limit) IH
               _ _ _ _ _ Hl1 Hc1 Hv1 E1).
    - now injection E1 as <- <-. }
  pose proof (backward_loop_within _ _ _ _ _ _ _ Hlp Hv2 E3) as Hv3.
  pose proof (backward_loop_linked _ _ _ _ _ _ _ _ Hwl Hlp E3) as Hl3.
  apply backward_loop_state in E3 as (Hs3 & Hd3 & Ht3).
  pose proof (consistent_grow _ _ Hd3 Ht3 Hs3 Hc2) as Hc3.
  simpl. unfold backward_resolution in E4. destruct (1 <? length pre3)%nat.
  - exact (backward_branches_within _ (build_contig_keeps index limit) IH
             _ _ _ _ _ _ Hl3 Hc3 Hv3 E4).
  - now injection E4 as <- <-.
Qed.

Lemma drive_within limit ws list_contig st list_contig' st' :
  drive limit index ws list_contig st = Ok (list_contig', st') ->
  Forall (fun w => Dict.get index w <> None) ws ->
  consistent st -> visited st ⊆ nodes index -> visited st' ⊆ nodes index.
Proof.
  revert list_contig st. induction ws as [|w ws IH]; intros acc st H Hk Hc Hv; simpl in H.
  - now injection H as <- <-.
  - apply Forall_cons in Hk as [Hw Hk].
    destruct (decide (w ∈ visited st)) as [Hs|Hs]; [eauto |].
    bind_split H as [contig st1] E.
    destruct (build_contig_keeps index limit _ _ _ _ E Hs Hc) as [_ Hc1].
    pose proof (build_contig_within _ _ _ _ _ E Hw Hs Hc Hv). eauto.
Qed.

End WithinFacts.

(** X17. When a run on a well-linked index ends, the visited set is
    exactly the set of keys of the index: every node has been consumed and
    nothing else was marked; the memo holds keys of the index only. *)
Theorem all_nodes_visited (index : Dict.t Entry) limit list_contig st :
  well_linked index ->
  simple_path_run limit index = Ok (list_contig, st) ->
  (forall w, w ∈ visited st <-> w ∈ Dict.keys index)
  /\ (forall w contig, contig_dict st !! w = Some contig -> w ∈ Dict.keys index).
Proof.
  intros Hwl H. unfold simple_path_run in H.
  destruct (drive_contigs _ _ _ _ _ _ _ H consistent_initial) as (_ & _ & _ & Hall & _).
  pose proof (drive_within index Hwl _ _ _ _ _ _ H (keys_are_keys index)
                consistent_initial ltac:(simpl; set_solver)) as Hin.
  pose proof (drive_keeps index _ _ _ _ _ _ H consistent_initial) as [Hd _].
  rewrite Forall_forall in Hall.
  assert (Hnode : forall w, w ∈ visited st -> w ∈ Dict.keys index).
  { intros w Hw. apply Hin in Hw. unfold nodes in Hw. now apply elem_of_list_to_set in Hw. }
  split.
  - intros w. split; [apply Hnode | apply Hall].
  - intros w contig Hm. apply Hnode, Hd, elem_of_dom. eauto.
Qed.

Lemma all_nodes_visited_witness :
  exists list_contig st,
    simple_path_run 4 merge_index = Ok (list_contig, st)
    /\ forall w, w ∈ visited st <-> w ∈ Dict.keys merge_index.
Proof.
  assert (Hidx : merge_index
                 = predecessors_and_successors (filter_kmers (index_kmers ["CAC"; "GCA"] 2) 1))
    by (vm_compute; reflexivity).
  destruct (simple_path_run 4 merge_index) as [[l st]| | | |] eqn:E;
    try (vm_compute in E; discriminate E).
  exists l, st. split; [reflexivity |].
  destruct (all_nodes_visited merge_index 4 l st) as [H _]; [| exact E | exact H].
  rewrite Hidx. apply adjacency_well_linked.
Defined.


(** ** [simple_path]: the alphabet of the contigs *)

Section CleanFacts.
Variable index : Dict.t Entry.
Hypothesis Hwl : well_linked index.
Hypothesis Hclean : forall w, Dict.get index w <> None -> nucleotides w = true.

Lemma last_nucleotide (s c : string) :
  nucleotides s = true -> subscript (PyStr.last s) = Ok c -> nucleotides c = true.
Proof.
  induction s as [|a s IH]; [discriminate |].
  simpl. intros H. apply andb_true_iff in H as [Ha Hs].
  destruct s as [|b s']; [simpl; intros [= <-]; simpl; now rewrite Ha | auto].
Qed.

Lemma first_nucleotide (s c : string) :
  nucleotides s = true -> subscript (PyStr.first s) = Ok c -> nucleotides c = true.
Proof.
  destruct s as [|a s]; [discriminate |].
  simpl. intros H [= <-]. apply andb_true_iff in H as [Ha _]. simpl. now rewrite Ha.
Qed.

Lemma forward_loop_clean fuel contig successor st contig' successor' st' :
  linked index successor -> nucleotides contig = true ->
  forward_loop fuel index contig successor st = Ok (contig', successor', st') ->
  nucleotides contig' = true.
Proof.
  revert contig successor st.
  induction fuel as [|fuel IH]; intros contig successor st Hl Hn H;
    destruct successor as [|s0 [|s1 rest]]; simpl in H;
    try (injection H as <- <- <-; assumption);
    (destruct (decide (s0 ∈ visited st)); [injection H as <- <- <-; assumption |]);
    [discriminate |].
  bind_split H as c E. bind_split H as e E0. apply lookup_entry_Ok in E0.
  apply Forall_cons in Hl as [[_ Hkey] _].
  apply IH in H; [assumption | now apply (linked_entry index s0) |].
  apply nucleotides_app; [assumption |].
  exact (last_nucleotide s0 c (Hclean s0 Hkey) E).
Qed.

Lemma backward_loop_clean fuel contig pre st contig' pre' st' :
  linked index pre -> nucleotides contig = true ->
  backward_loop fuel index contig pre st = Ok (contig', pre', st') ->
  nucleotides contig' = true.
Proof.
  revert contig pre st.
  induction fuel as [|fuel IH]; intros contig pre st Hl Hn H;
    destruct pre as [|p0 [|p1 rest]]; simpl in H;
    try (injection H as <- <- <-; assumption);
    (destruct (decide (p0 ∈ visited st)); [injection H as <- <- <-; assumption |]);
    [discriminate |].
  bind_split H as c E. bind_split H as e E0. apply lookup_entry_Ok in E0.
  apply Forall_cons in Hl as [[_ Hkey] _].
  apply IH in H; [assumption | now apply (linked_entry index p0) |].
  apply nucleotides_app; [| assumption].
  exact (first_nucleotide p0 c (Hclean p0 Hkey) E).
Qed.

Lemma longer_clean (a b : string) :
  nucleotides a = true -> nucleotides b = true -> nucleotides (longer a b) = true.
Proof. intros Ha Hb. unfold longer. now destruct (strlen b <? strlen a)%nat. Qed.

Section Branches.
Variable build : string -> State -> Result (string * State).
Hypothesis Hkeeps : keeps_consistent build.
Hypothesis Hbuild :
  forall s st c st',
    build s st = Ok (c, st') -> Dict.get index s <> None -> s ∉ visited st ->
    consistent st -> nucleotides c = true.

Lemma forward_branches_clean successor best st best' st' :
  linked index successor -> consistent st -> nucleotides best = true ->
  forward_branches build successor best st = Ok (best', st') ->
  nucleotides best' = true.
Proof.
  revert best st. induction successor as [|s rest IH]; intros best st Hl Hc Hn H; simpl in H.
  - now injection H as <- <-.
  - apply Forall_cons in Hl as [[_ Hkey] Hl].
    destruct (decide (s ∈ visited st)) as [Hs|Hs]; [eauto |].
    bind_split H as [c st1] E.
    destruct (Hkeeps _ _ _ _ E Hs Hc) as [_ Hc1].
    pose proof (Hbuild _ _ _ _ E Hkey Hs Hc) as Hnc.
    apply (IH _ _ Hl Hc1 (longer_clean _ _ Hnc Hn) H).
Qed.

Lemma backward_branches_clean contig pre best st best' st' :
  linked index pre -> consistent st ->
  nucleotides contig = true -> nucleotides best = true ->
  backward_branches build contig pre best st = Ok (best', st') ->
  nucleotides best' = true.
Proof.
  intros Hl Hc Hcontig. revert best st Hl Hc.
  induction pre as [|p rest IH]; intros best st Hl Hc Hn H; simpl in H.
  - now injection H as <- <-.
  - apply Forall_cons in Hl as [[_ Hkey] Hl].
    destruct (decide (p ∈ visited st)) as [Hs|Hs]; [eauto |].
    bind_split H as [c st1] E.
    destruct (Hkeeps _ _ _ _ E Hs Hc) as [_ Hc1].
    pose proof (Hbuild _ _ _ _ E Hkey Hs Hc) as Hnc.
    apply (IH _ _ Hl Hc1 (longer_clean _ _ (nucleotides_app _ _ Hnc Hcontig) Hn) H).
Qed.

End Branches.

Lemma build_contig_clean limit w st c st' :
  build_contig limit index w st = Ok (c, st') ->
  Dict.get index w <> None -> w ∉ visited st -> consistent st ->
  nucleotides c = true.
Proof.
  revert w st c st'. induction limit as [|limit IH]; intros w st c st' H Hkey Hw Hc;
    [discriminate |].
  rewrite build_contig_S in H. cbv zeta in H.
  change (contig_dict (record_call w st)) with (contig_dict st) in H.
  rewrite (memo_miss w st Hw Hc) in H.
  bind_split H as e E. bind_split H as [[contig1 successor1] st1] E0.
  bind_split H as [contig2 st2] E1.
  bind_split H as e' E2. bind_split H as [[contig3 pre3] st3] E3.
  bind_split H as [contig4 st4] E4.
  injection H as <- <-.
  rewrite E in E2. injection E2 as <-. apply lookup_entry_Ok in E.
  destruct (linked_entry index w e Hwl E) as [Hls Hlp].
  pose proof (consistent_call w st Hw Hc) as Hc0.
  pose proof (forward_loop_clean _ _ _ _ _ _ _ Hls (Hclean w Hkey) E0) as Hn1.
  pose proof (forward_loop_linked _ _ _ _ _ _ _ _ Hwl Hls E0) as Hl1.
  apply forward_loop_state in E0 as (Hs1 & Hd1 & Ht1).
  pose proof (consistent_grow _ _ Hd1 Ht1 Hs1 Hc0) as Hc1.
  destruct (forward_resolution_keeps _ _ _ _ _ _ (build_contig_keeps index limit) E1 Hc1)
    as [_ Hc2].
  assert (Hn2 : nucleotides contig2 = true).
  { unfold forward_resolution in E1. destruct (1 <? length successor1)%nat.
    - exact (forward_branches_clean _ (build_contig_keeps index limit) IH
               _ _ _ _ _ Hl1 Hc1 Hn1 E1).
    - now injection E1 as <- <-. }
  pose proof (backward_loop_clean _ _ _ _ _ _ _ Hlp Hn2 E3) as Hn3.
  pose proof (backward_loop_linked _ _ _ _ _ _ _ _ Hwl Hlp E3) as Hl3.
  apply backward_loop_state in E3 as (Hs3 & Hd3 & Ht3).
  pose proof (consistent_grow _ _ Hd3 Ht3 Hs3 Hc2) as Hc3.
  unfold backward_resolution in E4. destruct (1 <? length pre3)%nat.
  - exact (backward_branches_clean _ (build_contig_keeps index limit) IH
             _ _ _ _ _ _ Hl3 Hc3 Hn3 Hn3 E4).
  - now injection E4 as <- <-.
Qed.

Lemma drive_clean limit ws list_contig st list_contig' st' :
  drive limit index ws list_contig st = Ok (list_contig', st') ->
  Forall (fun w => Dict.get index w <> None) ws -> consistent st ->
  Forall (fun c => nucleotides c = true) list_contig ->
  Forall (fun c => nucleotides c = true) list_contig'.
Proof.
  revert list_contig st. induction ws as [|w ws IH]; intros acc st H Hk Hc Hacc; simpl in H.
  - now injection H as <- <-.
  - apply Forall_cons in Hk as [Hw Hk].
    destruct (decide (w ∈ visited st)) as [Hs|Hs]; [eauto |].
    bind_split H as [contig st1] E.
    destruct (build_contig_keeps index limit _ _ _ _ E Hs Hc) as [_ Hc1].
    pose proof (build_contig_clean _ _ _ _ _ E Hw Hs Hc) as Hn.
    apply (IH _ _ H Hk Hc1). apply Forall_app. split; [assumption | now constructor].
Qed.

End CleanFacts.

Lemma nucleotides_slice (s : string) (a b : option Z) :
  nucleotides s = true -> nucleotides (PyStr.slice s a b) = true.
Proof.
  intros H. unfold PyStr.slice.
  match goal with |- context [if ?c then _ else _] => destruct c end; [| reflexivity].
  now apply nucleotides_take, nucleotides_drop.
Qed.

Lemma index_kmers_keys_windows sequences k x :
  x ∈ Dict.keys (index_kmers sequences k) -> x ∈ all_windows k sequences.
Proof.
  intros Hx. apply occurrences_pos. rewrite <- count_of_index_kmers.
  apply get_Some_key in Hx. unfold count_of.
  destruct (Dict.get (index_kmers sequences k) x) as [n|] eqn:E; [| congruence].
  pose proof (index_kmers_counted sequences k) as [_ Hpos].
  apply get_Some_elem, Hpos in E. lia.
Qed.

(** X18. When no accepted read carries a final newline, every contig of
    the pipeline is a string over {A, C, G, T}. *)
Theorem contigs_over_alphabet limit sequences k threshold list_contig :
  Forall (fun s => pattern_match s = true -> nucleotides s = true) sequences ->
  pipeline limit sequences k threshold = Ok list_contig ->
  Forall (fun contig => nucleotides contig = true) list_contig.
Proof.
  intros Hseq H. unfold pipeline, simple_path, simple_path_run in H.
  bind_split H as [l st] E. injection H as <-.
  set (filtered_kmers := filter_kmers (index_kmers sequences k) threshold) in *.
  apply (drive_clean _ (adjacency_well_linked filtered_kmers)) in E;
    [exact E | | apply keys_are_keys | apply consistent_initial | constructor].
  intros w Hw. rewrite adjacency_get in Hw.
  destruct (decide (w ∈ Dict.keys filtered_kmers)) as [Hk|]; [| congruence].
  pose proof (index_kmers_counted sequences k) as [Hnd _].
  apply (filter_kmers_keys _ threshold Hnd), index_kmers_keys_windows in Hk.
  unfold all_windows in Hk. apply list_elem_of_In, in_flat_map in Hk as (s & Hs & Hx).
  apply list_elem_of_In in Hs. rewrite Forall_forall in Hseq.
  unfold windows in Hx. destruct (pattern_match s) eqn:Hm; [| destruct Hx].
  apply in_map_iff in Hx as (i & <- & _).
  apply nucleotides_slice. now apply Hseq.
Qed.

Lemma contigs_over_alphabet_witness :
  Forall (fun contig => nucleotides contig = true) ["GCCAC"].
Proof.
  apply (contigs_over_alphabet 3 ["CAC"; "GCA"] 2 1); [| vm_compute; reflexivity].
  repeat constructor.
Defined.

(** ** [simple_path]: indexes that are not well linked *)

(** X19. [index[...]] on a string that is no key raises [KeyError]: when
    the first entry of the index has a single successor, different from the
    key and not a key of the index, the run stops with [KeyError] on that
    successor, in the first call of [build_contig]. *)
Theorem dangling_successor_raises (limit : nat) (w s : string) (e : Entry)
    (rest : Dict.t Entry) :
  (0 < limit)%nat ->
  successors e = [s] -> s <> EmptyString -> s <> w ->
  Dict.get ((w, e) :: rest) s = None ->
  simple_path limit ((w, e) :: rest) = KeyError s.
Proof.
  intros Hlimit Hs Hne Hsw Hget. destruct limit as [|limit]; [lia |].
  unfold simple_path, simple_path_run. simpl Dict.keys.
  unfold drive. rewrite decide_False by (simpl; set_solver).
  rewrite build_contig_S. cbv zeta.
  change (contig_dict (record_call w initial_state) !! w) with ((∅ : gmap string string) !! w).
  rewrite lookup_empty.
  assert (Hw : lookup_entry ((w, e) :: rest) w = Ok e)
    by (unfold lookup_entry; simpl; now rewrite String.eqb_refl).
  rewrite Hw. cbn [bind]. rewrite Hs.
  unfold enough_fuel. cbn [forward_loop]. rewrite decide_False by (simpl; set_solver).
  destruct (subscript_last_Ok s Hne) as [c ->]. cbn [bind].
  unfold lookup_entry at 1. rewrite Hget. reflexivity.
Qed.

Lemma dangling_successor_raises_witness :
  simple_path 1 [("ACG", {| successors := ["CGT"]; predecessors := [] |})] = KeyError "CGT".
Proof.
  apply dangling_successor_raises;
    [lia | reflexivity | discriminate | discriminate | reflexivity].
Defined.


(** ** The pipeline on a read without repeats *)

Section WindowFacts.

Lemma take_take (a b : nat) (x : string) :
  (a <= b)%nat -> PyStr.take a (PyStr.take b x) = PyStr.take a x.
Proof.
  revert b x. induction a as [|a IH]; intros b x Hab; [now destruct b, x |].
  destruct b as [|b]; [lia |]. destruct x as [|c x]; [reflexivity |].
  simpl. f_equal. apply IH. lia.
Qed.

Lemma drop_drop (a b : nat) (x : string) :
  PyStr.drop a (PyStr.drop b x) = PyStr.drop (b + a) x.
Proof.
  revert x. induction b as [|b IH]; intros x; [reflexivity |].
  destruct x as [|c x]; simpl; [now destruct a | apply IH].
Qed.

Lemma drop_take_one (j : nat) (x : string) :
  PyStr.drop 1 (PyStr.take (S j) x) = PyStr.take j (PyStr.drop 1 x).
Proof. destruct x as [|c x]; simpl; [now destruct j | reflexivity]. Qed.

Lemma drop_next (i : nat) (x : string) :
  (i < String.length x)%nat -> exists a, PyStr.drop i x = String a (PyStr.drop (S i) x).
Proof.
  revert x. induction i as [|i IH]; intros [|c x] H; simpl in *; try lia.
  - now exists c.
  - apply IH. lia.
Qed.

Lemma last_take (j : nat) (x : string) (a : ascii) (rest : string) :
  PyStr.drop j x = String a rest -> PyStr.last (PyStr.take (S j) x) = Some a.
Proof.
  revert x. induction j as [|j IH]; intros [|c x] H; simpl in H; try discriminate.
  - injection H as -> ->. simpl. now destruct rest.
  - specialize (IH x H). change (PyStr.take (S (S j)) (String c x))
      with (String c (PyStr.take (S j) x)).
    remember (PyStr.take (S j) x) as t eqn:E. clear E.
    destruct t; [discriminate IH | exact IH].
Qed.

Lemma length_window_at (k i : nat) (s : string) :
  (i + k <= String.length s)%nat -> String.length (window_at k s i) = k.
Proof. intros H. unfold window_at. rewrite length_take, length_drop. lia. Qed.

Lemma nucleotides_window_at (k i : nat) (s : string) :
  nucleotides s = true -> nucleotides (window_at k s i) = true.
Proof. intros H. unfold window_at. now apply nucleotides_take, nucleotides_drop. Qed.

Lemma slice_window_at (s : string) (i k : nat) :
  (0 < k)%nat -> (i + k <= String.length s)%nat ->
  PyStr.slice s (Some (Z.of_nat i)) (Some (Z.of_nat i + Z.of_nat k)) = window_at k s i.
Proof.
  intros Hk Hik. unfold PyStr.slice, PyStr.adjust, PyStr.len, window_at.
  destruct (Z.ltb_spec (Z.of_nat i) 0); [lia |].
  destruct (Z.ltb_spec (Z.of_nat i + Z.of_nat k) 0); [lia |].
  rewrite !Z.min_l by lia.
  destruct (Z.ltb_spec (Z.of_nat i) (Z.of_nat i + Z.of_nat k)); [| lia].
  f_equal; [lia | f_equal; lia].
Qed.

(** The windows of an accepted sequence, by offset. *)
Lemma windows_by_offset (s : string) (k : nat) :
  pattern_match s = true -> (0 < k <= String.length s)%nat ->
  windows (Z.of_nat k) s = map (window_at k s) (seq 0 (String.length s - k + 1)).
Proof.
  intros Hm Hk. unfold windows, PyStr.range, PyStr.len. rewrite Hm, map_map.
  replace (Z.to_nat (Z.of_nat (String.length s) - Z.of_nat k + 1))
    with (String.length s - k + 1)%nat by lia.
  apply map_ext_in. intros i Hi. apply in_seq in Hi.
  apply slice_window_at; lia.
Qed.

Lemma nucleotides_accepted (s : string) :
  nucleotides s = true -> s <> EmptyString -> pattern_match s = true.
Proof.
  intros Hn Hne. apply pattern_match_spec. exists s. auto.
Qed.

End WindowFacts.


Lemma NoDup_only {A} (l : list A) (a : A) :
  NoDup l -> (forall x, x ∈ l <-> x = a) -> l = [a].
Proof.
  intros Hnd H. destruct l as [|x l]; [exfalso; now apply (not_elem_of_nil a), H |].
  assert (x = a) as -> by (apply H, elem_of_cons; now left).
  f_equal. destruct l as [|y l]; [reflexivity |]. exfalso.
  apply NoDup_cons in Hnd as [Hna _]. apply Hna.
  assert (y = a) as -> by (apply H; rewrite !elem_of_cons; auto).
  apply elem_of_cons. now left.
Qed.

Lemma nil_when_no_element {A} (l : list A) : (forall x, x ∉ l) -> l = [].
Proof.
  intros H. destruct l as [|x l]; [reflexivity |].
  exfalso. apply (H x), elem_of_cons. now left.
Qed.

Lemma NoDup_successors_of {V} (filtered_kmers : Dict.t V) (w : string) :
  NoDup (successors_of filtered_kmers w).
Proof.
  unfold successors_of. rewrite keep_present_filter.
  apply NoDup_list_filter, NoDup_fmap_2_strong; [| apply NoDup_bases].
  intros a b _ _. apply append_base_inj.
Qed.

Lemma NoDup_predecessors_of {V} (filtered_kmers : Dict.t V) (w : string) :
  NoDup (predecessors_of filtered_kmers w).
Proof.
  unfold predecessors_of. rewrite keep_present_filter.
  apply NoDup_list_filter, NoDup_fmap_2_strong; [| apply NoDup_bases].
  intros a b Ha Hb. now apply prepend_base_inj.
Qed.

Lemma forward_loop_nil fuel index contig st :
  forward_loop fuel index contig [] st = Ok (contig, [], st).
Proof. now destruct fuel. Qed.

Lemma backward_loop_nil fuel index contig st :
  backward_loop fuel index contig [] st = Ok (contig, [], st).
Proof. now destruct fuel. Qed.

Lemma visited_visit_all (l : list string) (st : State) :
  visited (visit_all l st) = list_to_set l ∪ visited st
  /\ contig_dict (visit_all l st) = contig_dict st
  /\ trace (visit_all l st) = trace st.
Proof.
  unfold visit_all. revert st. induction l as [|w l IH]; intros st; simpl.
  - split; [set_solver | auto].
  - destruct (IH (visit w st)) as (Hv & Hd & Ht). rewrite Hv, Hd, Ht. simpl.
    split; [set_solver | auto].
Qed.

Lemma drive_cons limit index w ws list_contig st :
  drive limit index (w :: ws) list_contig st
  = if decide (w ∈ visited st) then drive limit index ws list_contig st
    else do (contig, st) <- build_contig limit index w st ;
         drive limit index ws (list_contig ++ [contig]) st.
Proof. reflexivity. Qed.

Lemma drive_all_visited limit index ws list_contig st :
  Forall (fun w => w ∈ visited st) ws ->
  drive limit index ws list_contig st = Ok (list_contig, st).
Proof.
  induction ws as [|w ws IH]; intros H; simpl; [reflexivity |].
  apply Forall_cons in H as [Hw H]. rewrite decide_True by assumption. auto.
Qed.

Section Chain.
Variable s : string.
Variable K : nat.
Hypothesis Hs : nucleotides s = true.
Hypothesis HK : (2 <= K <= String.length s)%nat.
Hypothesis Hdistinct :
  forall i j,
    (i <= String.length s - K + 1)%nat -> (j <= String.length s - K + 1)%nat ->
    window_at (K - 1) s i = window_at (K - 1) s j -> i = j.
Variable filtered_kmers : Dict.t Z.
Hypothesis Hkeys :
  Dict.keys filtered_kmers = map (window_at K s) (seq 0 (S (String.length s - K))).

Local Abbreviation m := (String.length s - K)%nat.
Local Abbreviation W := (window_at K s).
Local Abbreviation index := (predecessors_and_successors filtered_kmers).

Lemma prefix_window i : PyStr.take (K - 1) (W i) = window_at (K - 1) s i.
Proof. unfold window_at. apply take_take. lia. Qed.

Lemma suffix_window i : PyStr.drop 1 (W i) = window_at (K - 1) s (S i).
Proof.
  unfold window_at. replace K with (S (K - 1)) at 1 by lia.
  rewrite drop_take_one, drop_drop. do 2 f_equal. lia.
Qed.

Lemma W_inj i j : (i <= m)%nat -> (j <= m)%nat -> W i = W j -> i = j.
Proof.
  intros Hi Hj H. apply Hdistinct; [lia | lia |].
  now rewrite <- !prefix_window, H.
Qed.

Lemma W_length i : (i <= m)%nat -> String.length (W i) = K.
Proof. intros Hi. apply length_window_at. lia. Qed.

Lemma key_iff x : x ∈ Dict.keys filtered_kmers <-> exists i, (i <= m)%nat /\ x = W i.
Proof.
  rewrite Hkeys, list_elem_of_fmap. split.
  - intros (i & -> & Hi). apply list_elem_of_In, in_seq in Hi. exists i. split; [lia | reflexivity].
  - intros (i & Hi & ->). exists i. split; [reflexivity |].
    apply list_elem_of_In, in_seq. lia.
Qed.

Lemma successors_chain i :
  (i <= m)%nat ->
  successors_of filtered_kmers (W i) = if decide (i < m)%nat then [W (S i)] else [].
Proof.
  intros Hi.
  assert (Hmem : forall x, x ∈ successors_of filtered_kmers (W i)
                           <-> (i < m)%nat /\ x = W (S i)).
  { intros x. rewrite elem_of_successors, key_iff. split.
    - intros [(j & Hj & ->) Hc].
      apply successor_candidate in Hc;
        [| now apply nucleotides_window_at | rewrite length_drop, !W_length by lia; lia].
      rewrite W_length, prefix_window, suffix_window in Hc by lia.
      apply Hdistinct in Hc; [| lia | lia]. subst j. split; [lia | reflexivity].
    - intros [Hlt ->]. split; [exists (S i); split; [lia | reflexivity] |].
      apply successor_candidate;
        [now apply nucleotides_window_at | rewrite length_drop, !W_length by lia; lia |].
      rewrite W_length, prefix_window, suffix_window by lia. reflexivity. }
  destruct (decide (i < m)%nat) as [Hlt|Hge].
  - apply NoDup_only; [apply NoDup_successors_of |].
    intros x. rewrite Hmem. tauto.
  - apply nil_when_no_element. intros x Hx. apply Hmem in Hx. tauto.
Qed.

Lemma predecessors_chain i :
  (i <= m)%nat ->
  predecessors_of filtered_kmers (W i)
  = match i with O => [] | S j => [W j] end.
Proof.
  intros Hi.
  assert (Hmem : forall x, x ∈ predecessors_of filtered_kmers (W i)
                           <-> exists j, i = S j /\ x = W j).
  { intros x. rewrite elem_of_predecessors, key_iff. split.
    - intros [(j & Hj & ->) Hc].
      apply predecessor_candidate in Hc;
        [| now apply nucleotides_window_at | rewrite length_take, !W_length by lia; lia].
      rewrite W_length, prefix_window, suffix_window in Hc by lia.
      apply Hdistinct in Hc; [| lia | lia]. exists j. split; [lia | reflexivity].
    - intros (j & -> & ->). split; [exists j; split; [lia | reflexivity] |].
      apply predecessor_candidate;
        [now apply nucleotides_window_at | rewrite length_take, !W_length by lia; lia |].
      rewrite W_length, prefix_window, suffix_window by lia. reflexivity. }
  destruct i as [|j].
  - apply nil_when_no_element. intros x Hx. apply Hmem in Hx as (j & Hj & _). discriminate.
  - apply NoDup_only; [apply NoDup_predecessors_of |].
    intros x. rewrite Hmem. split; [intros (j' & [= <-] & ->); reflexivity |].
    intros ->. eauto.
Qed.

Lemma chain_entry i :
  (i <= m)%nat -> lookup_entry index (W i) = Ok (entry_of filtered_kmers (W i)).
Proof.
  intros Hi. unfold lookup_entry. rewrite adjacency_get, decide_True; [reflexivity |].
  apply key_iff. eauto.
Qed.

(** The forward loop started at offset [i] walks to the last window and
    appends the rest of the read. *)
Lemma chain_forward j : forall i contig st fuel,
  (i + j = m)%nat -> (j <= fuel)%nat ->
  (forall t, (i < t <= m)%nat -> W t ∉ visited st) ->
  forward_loop fuel index contig (successors_of filtered_kmers (W i)) st
  = Ok (contig +:+ PyStr.drop (i + K) s, [], visit_all (map W (seq (S i) j)) st).
Proof.
  induction j as [|j IH]; intros i contig st fuel Hij Hfuel Hfresh.
  - rewrite successors_chain, decide_False by lia.
    rewrite forward_loop_nil, drop_all, app_empty_r by lia. reflexivity.
  - rewrite successors_chain, decide_True by lia.
    destruct fuel as [|fuel]; [lia |].
    simpl forward_loop. rewrite decide_False by (apply Hfresh; lia).
    destruct (drop_next (i + K) s ltac:(lia)) as [a Ha].
    assert (Hlast : PyStr.last (W (S i)) = Some a).
    { unfold window_at. replace K with (S (K - 1)) at 1 by lia.
      apply (last_take _ _ a (PyStr.drop (S (i + K)) s)).
      rewrite drop_drop, <- Ha. f_equal. lia. }
    rewrite Hlast. simpl subscript. simpl bind at 1.
    rewrite chain_entry by lia. simpl bind at 1. simpl successors.
    rewrite (IH (S i)); [| lia | lia |].
    + replace ((contig +:+ PyStr.of_char a) +:+ PyStr.drop (S i + K) s)
        with (contig +:+ PyStr.drop (i + K) s); [reflexivity |].
      rewrite Ha. replace (S i + K)%nat with (S (i + K)) by lia.
      generalize (PyStr.drop (S (i + K)) s). intros r.
      induction contig as [|c contig IHc]; [reflexivity |].
      rewrite !app_cons. now f_equal.
    + intros t Ht. simpl. apply not_elem_of_union. split; [| apply Hfresh; lia].
      apply not_elem_of_singleton. intros Heq. apply W_inj in Heq; lia.
Qed.

Lemma chain_keys : Dict.keys index = map W (seq 0 (S m)).
Proof.
  rewrite adjacency_keys; [exact Hkeys |]. rewrite Hkeys.
  apply NoDup_fmap_2_strong; [| apply NoDup_ListNoDup, seq_NoDup].
  intros i j Hi Hj. apply list_elem_of_In, in_seq in Hi. apply list_elem_of_In, in_seq in Hj.
  apply W_inj; lia.
Qed.

Lemma chain_length : length index = S m.
Proof.
  replace (length index) with (length (Dict.keys index)) by apply length_map.
  now rewrite chain_keys, length_map, length_seq.
Qed.

(** One call of [build_contig] on the first window rebuilds the read: the
    forward loop does all the work, no call is nested. *)
Lemma chain_build limit :
  exists st,
    build_contig (S limit) index (W 0) initial_state = Ok (s, st)
    /\ Forall (fun w => w ∈ visited st) (map W (seq 0 (S m))).
Proof.
  rewrite build_contig_S. cbv zeta.
  change (contig_dict (record_call (W 0) initial_state) !! W 0)
    with ((∅ : gmap string string) !! W 0).
  rewrite lookup_empty, chain_entry by lia. cbn [bind]. simpl successors.
  rewrite (chain_forward m 0); [| lia | unfold enough_fuel; rewrite chain_length; lia |].
  2: { intros t Ht. simpl. apply not_elem_of_union. split; [| apply not_elem_of_empty].
       apply not_elem_of_singleton. intros Heq. apply W_inj in Heq; lia. }
  assert (Hcontig : W 0 +:+ PyStr.drop (0 + K) s = s) by apply take_drop.
  rewrite Hcontig. cbn [bind predecessors entry_of].
  rewrite predecessors_chain by lia.
  unfold forward_resolution. simpl length. cbn [Nat.ltb Nat.leb bind].
  rewrite backward_loop_nil. cbn [bind].
  unfold backward_resolution. simpl length. cbn [Nat.ltb Nat.leb bind].
  eexists. split; [reflexivity |].
  simpl visited.
  destruct (visited_visit_all (map W (seq 1 m))
              (visit (W 0) (record_call (W 0) initial_state))) as (Hv & _ & _).
  rewrite Hv. simpl. constructor; [set_solver |].
  apply Forall_forall. intros x Hx. set_solver.
Qed.

Lemma chain_simple_path limit : (0 < limit)%nat -> simple_path limit index = Ok [s].
Proof.
  intros Hlimit. destruct limit as [|limit]; [lia |].
  unfold simple_path, simple_path_run.
  rewrite chain_keys.
  change (map W (seq 0 (S m))) with (W 0 :: map W (seq 1 m)).
  rewrite drive_cons, decide_False by (simpl; set_solver).
  destruct (chain_build limit) as (st & -> & Hall).
  cbn [bind]. apply Forall_cons in Hall as [_ Hall].
  rewrite drive_all_visited by exact Hall. reflexivity.
Qed.

End Chain.


Lemma fold_count_kmer_fresh sequence k (l : list Z) (kmers : Dict.t Z) :
  NoDup (Dict.keys kmers
         ++ map (fun i => PyStr.slice sequence (Some i) (Some (i + k))) l) ->
  fold_left (count_kmer sequence k) l kmers
  = kmers ++ map (fun i => (PyStr.slice sequence (Some i) (Some (i + k)), 1)) l.
Proof.
  revert kmers. induction l as [|i l IH]; intros kmers Hnd; simpl.
  - now rewrite app_nil_r.
  - assert (Hfresh : Dict.get kmers (PyStr.slice sequence (Some i) (Some (i + k))) = None).
    { apply get_None. apply NoDup_app in Hnd as (_ & Hd & _).
      intros Hin. apply (Hd _ Hin). apply elem_of_cons. now left. }
    unfold count_kmer at 2. rewrite Hfresh, IH.
    + rewrite set_fresh by assumption. now rewrite <- app_assoc.
    + rewrite keys_set_fresh by assumption. now rewrite <- app_assoc.
Qed.

Lemma index_single_distinct (sequence : string) (k : Z) :
  NoDup (windows k sequence) ->
  index_kmers [sequence] k = map (fun w => (w, 1)) (windows k sequence).
Proof.
  intros Hnd. unfold index_kmers, index_sequence, windows in *. simpl fold_left.
  destruct (pattern_match sequence); simpl; [| reflexivity].
  rewrite fold_count_kmer_fresh by exact Hnd. simpl. now rewrite map_map.
Qed.

Lemma NoDup_map_inj {A B} (f : A -> B) (l : list A) (x y : A) :
  NoDup (map f l) -> x ∈ l -> y ∈ l -> f x = f y -> x = y.
Proof.
  induction l as [|a l IH]; intros Hnd Hx Hy Hf; [now apply not_elem_of_nil in Hx |].
  simpl in Hnd. apply NoDup_cons in Hnd as [Ha Hnd].
  apply elem_of_cons in Hx as [->|Hx]; apply elem_of_cons in Hy as [->|Hy]; auto.
  - exfalso. apply Ha. rewrite Hf. apply list_elem_of_fmap. eauto.
  - exfalso. apply Ha. rewrite <- Hf. apply list_elem_of_fmap. eauto.
Qed.

(** X20. A read over {A, C, G, T} in which no string of [k-1] characters
    occurs twice ([k >= 2], [k] at most the length of the read) is rebuilt:
    with a threshold of at most 1 the pipeline returns that read as its
    single contig, in one call of [build_contig]. *)
Theorem repeat_free_read_is_rebuilt (limit : nat) (s : string) (k threshold : Z) :
  (0 < limit)%nat ->
  nucleotides s = true ->
  2 <= k <= PyStr.len s ->
  threshold <= 1 ->
  NoDup (windows (k - 1) s) ->
  pipeline limit [s] k threshold = Ok [s].
Proof.
  intros Hlimit Hs Hk Ht Hnd. unfold PyStr.len in Hk.
  set (K := Z.to_nat k).
  assert (HK : (2 <= K <= String.length s)%nat) by lia.
  assert (Hne : s <> EmptyString) by (intros ->; simpl in HK; lia).
  pose proof (nucleotides_accepted s Hs Hne) as Hm.
  replace (k - 1) with (Z.of_nat (K - 1)) in Hnd by lia.
  rewrite windows_by_offset in Hnd by (assumption || lia).
  assert (Hdistinct : forall i j,
             (i <= String.length s - K + 1)%nat -> (j <= String.length s - K + 1)%nat ->
             window_at (K - 1) s i = window_at (K - 1) s j -> i = j).
  { intros i j Hi Hj. apply (NoDup_map_inj _ _ i j Hnd);
      apply list_elem_of_In, in_seq; lia. }
  assert (Hw : windows k s = map (window_at K s) (seq 0 (S (String.length s - K)))).
  { replace k with (Z.of_nat K) by lia. rewrite windows_by_offset by (assumption || lia).
    do 2 f_equal. lia. }
  assert (Hndw : NoDup (windows k s)).
  { rewrite Hw. apply NoDup_fmap_2_strong; [| apply NoDup_ListNoDup, seq_NoDup].
    intros i j Hi Hj. apply list_elem_of_In, in_seq in Hi. apply list_elem_of_In, in_seq in Hj.
    apply (W_inj s K HK Hdistinct); lia. }
  assert (Hkeys : Dict.keys (map (fun w : string => (w, 1)) (windows k s)) = windows k s).
  { unfold Dict.keys. rewrite map_map. apply map_id. }
  unfold pipeline. rewrite index_single_distinct by assumption.
  assert (Hf : filter_kmers (map (fun w : string => (w, 1)) (windows k s)) threshold
               = map (fun w : string => (w, 1)) (windows k s)).
  { rewrite filter_kmers_filter by (rewrite Hkeys; exact Hndw).
    apply filter_all. intros [w n] Hin. apply list_elem_of_fmap in Hin as (x & [= -> ->] & _).
    unfold keep. simpl. apply Z.geb_le. lia. }
  rewrite Hf.
  apply (chain_simple_path s K Hs HK Hdistinct); [now rewrite Hkeys | exact Hlimit].
Qed.

Lemma repeat_free_read_is_rebuilt_witness : pipeline 1 ["ACGTTAG"] 3 1 = Ok ["ACGTTAG"].
Proof.
  apply repeat_free_read_is_rebuilt;
    [lia | reflexivity | vm_compute; split; discriminate | lia |].
  vm_compute. repeat (apply NoDup_cons; split; [| ]); try apply NoDup_nil_2;
    rewrite ?not_elem_of_cons; repeat split; try discriminate; apply not_elem_of_nil.
Defined.


(** ** Edge cases of the pipeline *)

Lemma index_sequence_short k kmers sequence :
  PyStr.len sequence < k -> index_sequence k kmers sequence = kmers.
Proof.
  intros H. unfold index_sequence. destruct (negb (pattern_match sequence)); [reflexivity |].
  unfold PyStr.range. replace (Z.to_nat (PyStr.len sequence - k + 1)) with 0%nat by lia.
  reflexivity.
Qed.

(** X21. When [k] is larger than every read, no k-mer is indexed and the
    pipeline returns no contig. *)
Theorem k_above_every_read limit sequences k threshold :
  Forall (fun s => PyStr.len s < k) sequences ->
  index_kmers sequences k = [] /\ pipeline limit sequences k threshold = Ok [].
Proof.
  intros Hall.
  assert (H : forall d, fold_left (index_sequence k) sequences d = d).
  { induction Hall as [|s l Hs Hl IH]; intros d; simpl; [reflexivity |].
    now rewrite index_sequence_short, IH. }
  assert (Hnil : index_kmers sequences k = []) by apply H.
  split; [exact Hnil |]. unfold pipeline. rewrite Hnil. reflexivity.
Qed.

Lemma k_above_every_read_witness :
  index_kmers ["ACGT"; "CGTAC"] 6 = [] /\ pipeline 0 ["ACGT"; "CGTAC"] 6 1 = Ok [].
Proof.
  apply k_above_every_read. repeat constructor.
Defined.

(** X22. Subscripting an empty successor raises [IndexError]: when the
    first entry of the index, under a non-empty key, has the empty string as
    its single successor, the run stops with [IndexError], in the first call
    of [build_contig]. *)
Theorem empty_successor_raises (limit : nat) (w : string) (e : Entry) (rest : Dict.t Entry) :
  (0 < limit)%nat ->
  successors e = [EmptyString] -> w <> EmptyString ->
  simple_path limit ((w, e) :: rest) = IndexError.
Proof.
  intros Hlimit Hs Hne. destruct limit as [|limit]; [lia |].
  unfold simple_path, simple_path_run. simpl Dict.keys.
  rewrite drive_cons, decide_False by (simpl; set_solver).
  rewrite build_contig_S. cbv zeta.
  change (contig_dict (record_call w initial_state) !! w) with ((∅ : gmap string string) !! w).
  rewrite lookup_empty.
  assert (Hw : lookup_entry ((w, e) :: rest) w = Ok e)
    by (unfold lookup_entry; simpl; now rewrite String.eqb_refl).
  rewrite Hw. cbn [bind]. rewrite Hs.
  unfold enough_fuel. cbn [forward_loop]. rewrite decide_False by (simpl; set_solver).
  reflexivity.
Qed.

Lemma empty_successor_raises_witness :
  simple_path 1 [("ACG", {| successors := [EmptyString]; predecessors := [] |})] = IndexError.
Proof. apply empty_successor_raises; [lia | reflexivity | discriminate]. Defined.

Section IsolatedFacts.
Variable index : Dict.t Entry.

Lemma build_contig_isolated limit w st e :
  lookup_entry index w = Ok e -> successors e = [] -> predecessors e = [] ->
  contig_dict st !! w = None ->
  build_contig (S limit) index w st
  = Ok (w, record_return w (memoize w w (visit w (record_call w st)))).
Proof.
  intros He Hs Hp Hmiss. rewrite build_contig_S. cbv zeta.
  change (contig_dict (record_call w st)) with (contig_dict st).
  rewrite Hmiss, He. cbn [bind]. rewrite Hs, Hp, forward_loop_nil. cbn [bind].
  unfold forward_resolution. simpl length. cbn [Nat.ltb Nat.leb bind].
  rewrite backward_loop_nil. reflexivity.
Qed.

Lemma drive_isolated limit ws list_contig st :
  NoDup ws ->
  (forall w, w ∈ ws ->
     (w ∉ visited st) /\ contig_dict st !! w = None
     /\ exists e, lookup_entry index w = Ok e /\ successors e = [] /\ predecessors e = []) ->
  exists st', drive (S limit) index ws list_contig st = Ok (list_contig ++ ws, st').
Proof.
  revert list_contig st. induction ws as [|w ws IH]; intros acc st Hnd Hall.
  - exists st. simpl. now rewrite app_nil_r.
  - apply NoDup_cons in Hnd as [Hw Hnd].
    destruct (Hall w ltac:(apply elem_of_cons; now left)) as (Hv & Hmiss & e & He & Hs & Hp).
    rewrite drive_cons, decide_False by assumption.
    rewrite (build_contig_isolated limit w st e He Hs Hp Hmiss). cbn [bind].
    destruct (IH (acc ++ [w])
                (record_return w (memoize w w (visit w (record_call w st)))) Hnd)
      as [st' Hst'].
    + intros x Hx.
      destruct (Hall x ltac:(apply elem_of_cons; now right)) as (Hxv & Hxm & Hxe).
      assert (x <> w) by (intros ->; contradiction).
      split; [simpl; set_solver |]. split; [| exact Hxe].
      simpl. rewrite lookup_insert_ne by congruence. exact Hxm.
    + exists st'. rewrite Hst', <- app_assoc. reflexivity.
Qed.

End IsolatedFacts.

(** X23. In a graph without edges every k-mer is its own contig: the
    assembler returns the keys of the index, in their order, and no call of
    [build_contig] is nested in another. *)
Theorem isolated_kmers_are_contigs (limit : nat) (index : Dict.t Entry) :
  (0 < limit)%nat ->
  NoDup (Dict.keys index) ->
  Forall (fun we => successors (snd we) = [] /\ predecessors (snd we) = []) index ->
  simple_path limit index = Ok (Dict.keys index).
Proof.
  intros Hlimit Hnd Hiso. destruct limit as [|limit]; [lia |].
  unfold simple_path, simple_path_run.
  destruct (drive_isolated index limit (Dict.keys index) [] initial_state Hnd)
    as [st' ->]; [| reflexivity].
  intros w Hw. split; [simpl; set_solver |]. split; [apply lookup_empty |].
  apply get_Some_key in Hw. unfold lookup_entry.
  destruct (Dict.get index w) as [e|] eqn:E; [| congruence].
  exists e. split; [reflexivity |].
  apply get_Some_elem in E. rewrite Forall_forall in Hiso. exact (Hiso _ E).
Qed.

Lemma isolated_kmers_are_contigs_witness :
  pipeline 1 ["ACG"; "TCA"; "GGT"] 3 1 = Ok ["ACG"; "TCA"; "GGT"].
Proof.
  unfold pipeline.
  assert (E : predecessors_and_successors (filter_kmers (index_kmers ["ACG"; "TCA"; "GGT"] 3) 1)
              = [("ACG", {| successors := []; predecessors := [] |});
                 ("TCA", {| successors := []; predecessors := [] |});
                 ("GGT", {| successors := []; predecessors := [] |})])
    by (vm_compute; reflexivity).
  rewrite E. apply isolated_kmers_are_contigs.
  - lia.
  - simpl. repeat (apply NoDup_cons; split; [| ]); try apply NoDup_nil_2;
      rewrite ?not_elem_of_cons; repeat split; try discriminate; apply not_elem_of_nil.
  - repeat constructor.
Defined.

(** ** The summary printed by [main] *)





(** ** [simple_path]: the traversal stops on every index *)

(** X25. The two [while] loops end on every index, well linked or not:
    they only go on while they mark new nodes.  So a run of [simple_path]
    ends in one of four ways: with a contig list, with [KeyError], with
    [IndexError], or with [RecursionError] when the calls of [build_contig]
    nest deeper than the interpreter allows.  On a well-linked index it ends
    with a list or with [RecursionError], and with a list when more nested
    calls are allowed than the index has keys. *)
Theorem assembler_stops (limit : nat) (index : Dict.t Entry) :
  ((exists list_contig, simple_path limit index = Ok list_contig)
   \/ (exists k, simple_path limit index = KeyError k)
   \/ simple_path limit index = IndexError
   \/ simple_path limit index = RecursionError)
  /\ (well_linked index ->
      (exists list_contig, simple_path limit index = Ok list_contig)
      \/ simple_path limit index = RecursionError)
  /\ (well_linked index -> (length index < limit)%nat ->
      exists list_contig, simple_path limit index = Ok list_contig).
Proof.
  split; [| split].
  - pose proof (simple_path_stops index limit) as H.
    destruct (simple_path limit index) as [l| k | | |]; eauto. contradiction.
  - intros Hwl. exact (simple_path_safe index Hwl limit).
  - intros Hwl Hlimit. now apply simple_path_total.
Qed.

Lemma assembler_stops_witness :
  (exists list_contig, simple_path 4 merge_index = Ok list_contig)
  /\ simple_path 1 merge_index = RecursionError.
Proof.
  assert (Hwl : well_linked merge_index).
  { assert (Hidx : merge_index
                   = predecessors_and_successors
                       (filter_kmers (index_kmers ["CAC"; "GCA"] 2) 1))
      by (vm_compute; reflexivity).
    rewrite Hidx. apply adjacency_well_linked. }
  split.
  - destruct (assembler_stops 4 merge_index) as (_ & _ & H).
    apply H; [exact Hwl | vm_compute; lia].
  - destruct (assembler_stops 1 merge_index) as (_ & [[l H] | H] & _);
      [exact Hwl | vm_compute in H; discriminate H | exact H].
Defined.

(** X27. The recursion limit decides whether a run returns, not what it
    returns: a run of [simple_path] that returns a contig list returns the
    same list under every larger limit, and any other run on the same index
    that returns, returns that list. *)
Theorem recursion_limit_independent (index : Dict.t Entry) limit1 limit2 list_contig :
  simple_path limit1 index = Ok list_contig ->
  ((limit1 <= limit2)%nat -> simple_path limit2 index = Ok list_contig)
  /\ (forall list_contig',
        simple_path limit2 index = Ok list_contig' -> list_contig' = list_contig).
Proof.
  unfold simple_path. intros H1. bind_split H1 as [l1 st1] E1. injection H1 as <-.
  split.
  - intros Hle. unfold simple_path_run in *.
    now rewrite (drive_more_limit index limit1 limit2 _ _ _ _ Hle E1).
  - intros l2 H2. bind_split H2 as [l2' st2] E2. injection H2 as <-.
    pose proof (simple_path_run_any_limit index _ _ _ _ E1 E2) as [= -> _]. reflexivity.
Qed.

Lemma recursion_limit_independent_witness :
  simple_path 2 merge_index = Ok ["GCCAC"] /\ simple_path 9 merge_index = Ok ["GCCAC"].
Proof.
  assert (H : simple_path 2 merge_index = Ok ["GCCAC"]) by (vm_compute; reflexivity).
  split; [exact H |].
  destruct (recursion_limit_independent merge_index 2 9 ["GCCAC"] H) as [Hmore _].
  apply Hmore. lia.
Defined.

(** ** The validity pattern *)

(** X26. The pattern accepts exactly the non-empty strings over
    {A, C, G, T} and those strings followed by one final newline. *)
Theorem validity_pattern_accepts (sequence : string) :
  pattern_match sequence = true
  <-> exists body,
        body <> EmptyString /\ nucleotides body = true
        /\ (sequence = body \/ sequence = body +:+ PyStr.of_char newline).
Proof. apply pattern_match_spec. Qed.
